(** * FinanzasViajeras: the debt-settlement engine of [GastosView]

    Shallow embedding of the four memoised computations of [GastosView]
    in [src/App.tsx] (lines 804-833): [totalTripCost],
    [expensesByCategory], [expensesByParticipant] and [settledPayments],
    together with the types of [types.ts] they read, and of the handlers
    of [App] around them.

    Numbers.  The source computes with JavaScript numbers (IEEE-754
    doubles).  In the definitions the theorems are about, a number is an
    exact rational ([Q]): a finite number, computed without rounding and
    compared with [==] ([Qeq]).  What is proved of the order of the two
    lists, of the comparisons with [0.005] and of which payments there
    are rests on comparisons alone and holds of finite doubles for the
    same reasons.  What is proved of sums holds "given exact arithmetic",
    the reading the specification itself uses, and is stated as such.
    [Binary64] has the same lines on doubles, to run the engine on given
    inputs: the transfer of exactly [0.005] is shown on both, and the
    examples at the end show where rounding departs from the exact
    results.

    Objects.  [Record<string, number>] values that are only read by key
    are finite maps ([gmap]).  The [balances] object is read through
    [Object.entries], whose order is observable in the output, so it is
    an insertion-ordered association list with the property order of
    ECMAScript.  [byParticipant] and [balances] are object literals and
    inherit from [Object.prototype]: the first definitions are the
    computation on their own numeric properties, [Proto] has them with
    the inherited members, and the two agree when no name is the name of
    a member. *)

From Stdlib Require Import QArith Qminmax Qabs Lqa Ascii String Sorted DecimalString HexadecimalString.
From Stdlib Require Import PrimFloat Uint63.
From stdpp Require Import gmap strings list fin_maps.

Open Scope Q_scope.

(** ** Numbers *)

(** [x < y] on numbers, as a boolean. *)
Definition Qltb (x y : Q) : bool :=
  match x ?= y with
  | Lt => true
  | _ => false
  end.

(** [x || 0] for [x : number | undefined]: [undefined] and [0] are falsy. *)
Definition or_zero (x : option Q) : Q :=
  match x with
  | Some v => if Qeq_bool v 0 then 0 else v
  | None => 0
  end.

(** The literal [0.005] of lines 822-830. *)
Definition epsilon : Q := 0.005.

(** A count as a number; [xs.length]. *)
Definition of_nat (n : nat) : Q := inject_Z (Z.of_nat n).

Definition length_number {A} (xs : list A) : Q := of_nat (length xs).

(** ** Types ([types.ts]) *)

Inductive ExpenseCategory :=
  | ALOJAMIENTO
  | ACTIVIDADES
  | COMIDA
  | TRANSPORTE
  | ENTRADAS
  | COMPRAS
  | OTROS.

#[global] Instance ExpenseCategory_eq_dec : EqDecision ExpenseCategory.
Proof. solve_decision. Defined.

(** The run-time value of an enum member: the key it has in a [Record]. *)
Definition category_key (c : ExpenseCategory) : string :=
  match c with
  | ALOJAMIENTO => "Alojamiento"
  | ACTIVIDADES => "Actividades"
  | COMIDA => "Comida"
  | TRANSPORTE => "Transporte"
  | ENTRADAS => "Entradas"
  | COMPRAS => "Compras"
  | OTROS => "Otros"
  end.

(** [CATEGORIES = Object.values(ExpenseCategory)] ([constants.tsx]). *)
Definition CATEGORIES : list ExpenseCategory :=
  [ALOJAMIENTO; ACTIVIDADES; COMIDA; TRANSPORTE; ENTRADAS; COMPRAS; OTROS].

Record Expense := {
  id : string;
  tripId : string;
  date : string;
  amount : Q;
  category : ExpenseCategory;
  description : string;
  paidBy : string;
  proofImage : option string;
  paymentMethod : option string
}.

Record Participant := { name : string }.

(** [pay_amount] is the field [amount] of [SettledPayment]; the name
    [amount] is the projection of [Expense]. *)
Record SettledPayment := { from : string; to : string; pay_amount : Q }.

(** ** JavaScript objects with observable key order *)

Module JsObject.

(** The own properties in the order they were first assigned.  The
    operations below are for values of any type [V]; [t] is an object
    whose values are numbers. *)
Definition t := list (string * Q).

Definition empty : t := [].

(** [o[k]]. *)
Fixpoint get {V : Type} (o : list (string * V)) (k : string) : option V :=
  match o with
  | [] => None
  | (k', v') :: o' => if String.eqb k' k then Some v' else get o' k
  end.

(** [o[k] = v]: an existing key keeps its place, a new key goes last. *)
Fixpoint set {V : Type} (o : list (string * V)) (k : string) (v : V)
    : list (string * V) :=
  match o with
  | [] => [(k, v)]
  | (k', v') :: o' =>
      if String.eqb k' k then (k', v) :: o' else (k', v') :: set o' k v
  end.

Definition digit_value (c : Ascii.ascii) : option N :=
  let n := Ascii.N_of_ascii c in
  if ((48 <=? n) && (n <=? 57))%N then Some (n - 48)%N else None.

Fixpoint parse_digits (acc : N) (s : string) : option N :=
  match s with
  | EmptyString => Some acc
  | String c s' =>
      match digit_value c with
      | Some d => parse_digits (10 * acc + d)%N s'
      | None => None
      end
  end.

(** An array index: the canonical decimal string of an integer in
    [0, 2^32 - 2]. *)
Definition array_index (s : string) : option N :=
  match s with
  | EmptyString => None
  | String c s' =>
      if Ascii.eqb c "0"%char then
        match s' with EmptyString => Some 0%N | _ => None end
      else
        match parse_digits 0 s with
        | Some n => if (n <? 4294967295)%N then Some n else None
        | None => None
        end
  end.

Definition is_array_index {V : Type} (kv : string * V) : bool :=
  match array_index kv.1 with Some _ => true | None => false end.

Definition index_of {V : Type} (kv : string * V) : N :=
  match array_index kv.1 with Some n => n | None => 0%N end.

(** Ascending insertion of an array-index property. *)
Fixpoint insert_index {V : Type} (x : string * V) (l : list (string * V))
    : list (string * V) :=
  match l with
  | [] => [x]
  | y :: l' =>
      if (index_of y <? index_of x)%N then y :: insert_index x l' else x :: y :: l'
  end.

(** The order of the array-index properties. *)
Definition by_index {V : Type} (a b : string * V) : Prop :=
  (index_of a <= index_of b)%N.

(** [Object.entries(o)]: array-index keys in ascending numeric order,
    then the other keys in insertion order. *)
Definition entries {V : Type} (o : list (string * V)) : list (string * V) :=
  foldr insert_index [] (List.filter is_array_index o)
    ++ List.filter (fun kv => negb (is_array_index kv)) o.

End JsObject.

(** ** [Array.prototype.sort] *)

(** The sort is stable; [cmp a b > 0] means [a] goes after [b].  With the
    comparators used here (a difference of numbers) the order is total, so
    the result is the one stable insertion yields. *)
Section Sort.
Context {A : Type} (cmp : A -> A -> Q).

Fixpoint sort_insert (x : A) (l : list A) : list A :=
  match l with
  | [] => [x]
  | y :: l' => if Qltb 0 (cmp x y) then y :: sort_insert x l' else x :: y :: l'
  end.

Definition array_sort (l : list A) : list A := foldr sort_insert [] l.
End Sort.

(** ** The aggregates (lines 804-816) *)

(** [expenses.reduce((sum, exp) => sum + exp.amount, 0)] *)
Definition totalTripCost (expenses : list Expense) : Q :=
  foldl (fun sum exp => sum + amount exp) 0 expenses.

(** [expenses.forEach(exp => { m[key] = (m[key] || 0) + exp.amount; })],
    the statement of lines 808 and 814, [key] being [exp.category] or
    [exp.paidBy]. *)
Definition add_amounts (key : Expense -> string) (m : gmap string Q)
    (expenses : list Expense) : gmap string Q :=
  foldl (fun m exp => <[key exp := or_zero (m !! key exp) + amount exp]> m)
        m expenses.

Definition expensesByCategory (expenses : list Expense) : gmap string Q :=
  let byCategory := foldl (fun m cat => <[category_key cat := 0]> m) ∅ CATEGORIES in
  add_amounts (fun exp => category_key (category exp)) byCategory expenses.

(** Lines 811-816 on the own numeric properties of [byParticipant]; with
    the members the object inherits it is [Proto.expensesByParticipant]. *)
Definition expensesByParticipant (participants : list Participant)
    (expenses : list Expense) : gmap string Q :=
  let byParticipant := foldl (fun m p => <[name p := 0]> m) ∅ participants in
  add_amounts paidBy byParticipant expenses.

(** ** The settlement (lines 817-833) *)

(** Lines 819-821. *)
Definition avgCost (participants : list Participant) (totalTripCost : Q) : Q :=
  totalTripCost / length_number participants.

(** The right-hand side of the assignment of line 821, for a totals
    object read on its own numeric properties: the number the balance is,
    when it is one ([Proto.balance] has the other cases). *)
Definition balance (participants : list Participant) (totalTripCost : Q)
    (expensesByParticipant : gmap string Q) (who : string) : Q :=
  or_zero (expensesByParticipant !! who) - avgCost participants totalTripCost.

(** Lines 820-821, every balance being a number stored under its name. *)
Definition balances (participants : list Participant) (totalTripCost : Q)
    (expensesByParticipant : gmap string Q) : JsObject.t :=
  foldl (fun b p =>
           JsObject.set b (name p)
             (balance participants totalTripCost expensesByParticipant (name p)))
        JsObject.empty participants.

(** The predicates of the two [filter] calls of lines 822-823. *)
Definition is_debtor (e : string * Q) : bool := Qltb e.2 (- epsilon).

Definition is_creditor (e : string * Q) : bool := Qltb epsilon e.2.

(** Lines 822-823. *)
Definition debtors_of (balances : JsObject.t) : list (string * Q) :=
  array_sort (fun a b => a.2 - b.2)
    (List.filter is_debtor (JsObject.entries balances)).

Definition creditors_of (balances : JsObject.t) : list (string * Q) :=
  array_sort (fun a b => b.2 - a.2)
    (List.filter is_creditor (JsObject.entries balances)).

(** The variables of the loop of lines 824-831. *)
Record LoopState := {
  debtors : list (string * Q);
  creditors : list (string * Q);
  payments : list SettledPayment;
  dIdx : nat;
  cIdx : nat
}.

(** [dIdx < debtors.length && cIdx < creditors.length] *)
Definition loop_cond (s : LoopState) : bool :=
  (dIdx s <? length (debtors s))%nat && (cIdx s <? length (creditors s))%nat.

(** Lines 826-830, with [d = debtors\[dIdx\]] and [c = creditors\[cIdx\]]
    as they are when the pass begins. *)
Definition pass (s : LoopState) (d c : string * Q) : LoopState :=
  let transfer := Qmin (- d.2) c.2 in
  let payments' :=
    if Qltb epsilon transfer
    then payments s ++ [{| from := d.1; to := c.1; pay_amount := transfer |}]
    else payments s in
  let d' := (d.1, d.2 + transfer) in
  let c' := (c.1, c.2 - transfer) in
  {| debtors := <[dIdx s := d']> (debtors s);
     creditors := <[cIdx s := c']> (creditors s);
     payments := payments';
     dIdx := if Qltb (Qabs d'.2) epsilon then S (dIdx s) else dIdx s;
     cIdx := if Qltb (Qabs c'.2) epsilon then S (cIdx s) else cIdx s |}.

(** The body of the loop.  [None] is the [TypeError] of reading [\[1\]]
    of an element that is not there. *)
Definition loop_body (s : LoopState) : option LoopState :=
  match debtors s !! dIdx s, creditors s !! cIdx s with
  | Some d, Some c => Some (pass s d c)
  | _, _ => None
  end.

(** The [while] loop, with the number of passes it made.  [None] when the
    fuel is used up before the condition fails (or the body raised). *)
Fixpoint while_loop (fuel : nat) (s : LoopState) : option (LoopState * nat) :=
  if loop_cond s then
    match fuel with
    | O => None
    | S fuel' =>
        match loop_body s with
        | Some s' =>
            match while_loop fuel' s' with
            | Some (s'', n) => Some (s'', S n)
            | None => None
            end
        | None => None
        end
    end
  else Some (s, O).

Definition initial_state (balances : JsObject.t) : LoopState :=
  {| debtors := debtors_of balances;
     creditors := creditors_of balances;
     payments := [];
     dIdx := O;
     cIdx := O |}.

(** The loop started on the balances, given as much fuel as there are
    debtors and creditors. *)
Definition settle_loop (balances : JsObject.t) : option (LoopState * nat) :=
  let s := initial_state balances in
  while_loop (length (debtors s) + length (creditors s)) s.

(** [settledPayments], as a function of its three dependencies, on the
    own numeric properties of the two objects. *)
Definition settledPayments (participants : list Participant) (totalTripCost : Q)
    (expensesByParticipant : gmap string Q) : option (list SettledPayment) :=
  if (length participants <? 2)%nat || Qeq_bool totalTripCost 0 then Some []
  else
    match settle_loop (balances participants totalTripCost expensesByParticipant) with
    | Some (s, _) => Some (payments s)
    | None => None
    end.

(** The value [settledPayments] has in [GastosView], where its
    dependencies are the memoised aggregates of the same render. *)
Definition settledPayments_of (participants : list Participant)
    (expenses : list Expense) : option (list SettledPayment) :=
  settledPayments participants (totalTripCost expenses)
    (expensesByParticipant participants expenses).

(** ** The objects as the engine builds them: [Object.prototype]

    [byParticipant] (line 812) and [balances] (line 820) are object
    literals, so a key they do not own is looked up in [Object.prototype].
    Reading such a key yields the inherited member (a function, or for
    [__proto__] the prototype itself), which is truthy; assigning a
    number or a string to [__proto__] calls the inherited setter, which
    ignores a value that is not an object, while assigning to any other
    inherited name creates an own property.  The definitions above are
    the computations on the own numeric properties; the module [Proto]
    has the same lines with the values those reads and writes really
    produce.  The two agree when no name is the name of a member
    ([Proto_expensesByParticipant_number], [settledPayments_plain]
    below), and both run the same loop. *)

Module Proto.

(** The property names of [Object.prototype]. *)
Definition members : list string :=
  ["constructor"; "__defineGetter__"; "__defineSetter__"; "hasOwnProperty";
   "__lookupGetter__"; "__lookupSetter__"; "isPrototypeOf";
   "propertyIsEnumerable"; "toString"; "valueOf"; "__proto__";
   "toLocaleString"].

Definition inherited (k : string) : bool := bool_decide (k ∈ members).

(** The values the two objects hold or yield.  [Member m] is the object
    [Object.prototype\[m\]]; [Text m l] is the string that object converts
    to, followed by the decimal texts of the numbers [l], the result of
    adding numbers to it. *)
Inductive value :=
  | Undefined
  | Number (x : Q)
  | NaN
  | Member (m : string)
  | Text (m : string) (l : list Q).

(** [o\[k\]]: an own property, else the inherited member. *)
Definition get (o : gmap string value) (k : string) : value :=
  match o !! k with
  | Some v => v
  | None => if inherited k then Member k else Undefined
  end.

(** [o\[k\] = v] for a [v] that is not an object, [put] being the
    assignment of an own property. *)
Definition assign {O : Type} (put : O -> string -> value -> O)
    (o : O) (k : string) (v : value) : O :=
  if String.eqb k "__proto__" then o else put o k v.

(** [v || 0]: [undefined], [0] and [NaN] are falsy, objects and these
    strings are not. *)
Definition or_zero (v : value) : value :=
  match v with
  | Undefined | NaN => Number 0
  | Number x => if Qeq_bool x 0 then Number 0 else Number x
  | Member _ | Text _ _ => v
  end.

(** [v + a] for a number [a]: an object or a string is concatenated
    with the text of [a]. *)
Definition plus (v : value) (a : Q) : value :=
  match v with
  | Number x => Number (x + a)
  | Member m => Text m [a]
  | Text m l => Text m (l ++ [a])
  | Undefined | NaN => NaN
  end.

(** [v - a] for a number [a]: none of these objects and strings
    converts to a number. *)
Definition minus (v : value) (a : Q) : value :=
  match v with
  | Number x => Number (x - a)
  | _ => NaN
  end.

(** The assignment of an own property. *)
Definition put (o : gmap string value) (k : string) (v : value)
    : gmap string value := <[k := v]> o.

(** [participants.forEach(p => o\[p.name\] = 0)] (line 813). *)
Definition zeroed (o : gmap string value) (participants : list Participant)
    : gmap string value :=
  foldl (fun o p => assign put o (name p) (Number 0)) o participants.

(** [expenses.forEach(exp => { o\[exp.paidBy\] = (o\[exp.paidBy\] || 0)
    + exp.amount; })] (line 814). *)
Definition add_amounts (o : gmap string value) (expenses : list Expense)
    : gmap string value :=
  foldl (fun o exp =>
           assign put o (paidBy exp)
             (plus (or_zero (get o (paidBy exp))) (amount exp)))
        o expenses.

(** Lines 811-816. *)
Definition expensesByParticipant (participants : list Participant)
    (expenses : list Expense) : gmap string value :=
  add_amounts (zeroed ∅ participants) expenses.

(** The right-hand side of the assignment of line 821. *)
Definition balance (participants : list Participant) (totalTripCost : Q)
    (expensesByParticipant : gmap string value) (who : string) : value :=
  minus (or_zero (get expensesByParticipant who))
        (avgCost participants totalTripCost).

(** Lines 820-821. *)
Definition balances (participants : list Participant) (totalTripCost : Q)
    (expensesByParticipant : gmap string value) : list (string * value) :=
  foldl (fun b p =>
           assign JsObject.set b (name p)
             (balance participants totalTripCost expensesByParticipant (name p)))
        [] participants.

(** The entries whose amount is a number: [NaN] fails both tests of
    lines 822-823. *)
Definition numbers (l : list (string * value)) : list (string * Q) :=
  omap (fun kv => match kv.2 with Number x => Some (kv.1, x) | _ => None end) l.

(** The number a value is, when it is one. *)
Definition number_of (v : value) : Q :=
  match v with Number x => x | _ => 0 end.

Definition is_number (v : value) : bool :=
  match v with Number _ => true | _ => false end.

(** The participants whose balance line 821 stores as a number. *)
Definition has_balance (participants : list Participant) (totalTripCost : Q)
    (expensesByParticipant : gmap string value) (p : Participant) : bool :=
  negb (String.eqb (name p) "__proto__")
  && is_number (balance participants totalTripCost expensesByParticipant (name p)).

(** Lines 822-823. *)
Definition debtors_of (balances : list (string * value)) : list (string * Q) :=
  array_sort (fun a b => a.2 - b.2)
    (List.filter is_debtor (numbers (JsObject.entries balances))).

Definition creditors_of (balances : list (string * value)) : list (string * Q) :=
  array_sort (fun a b => b.2 - a.2)
    (List.filter is_creditor (numbers (JsObject.entries balances))).

Definition initial_state (balances : list (string * value)) : LoopState :=
  {| debtors := debtors_of balances;
     creditors := creditors_of balances;
     payments := [];
     dIdx := O;
     cIdx := O |}.

(** The loop of lines 824-831, the one above, started on these
    balances. *)
Definition settle_loop (balances : list (string * value))
    : option (LoopState * nat) :=
  let s := initial_state balances in
  while_loop (length (debtors s) + length (creditors s)) s.

(** [settledPayments] (lines 817-833). *)
Definition settledPayments (participants : list Participant) (totalTripCost : Q)
    (expensesByParticipant : gmap string value) : option (list SettledPayment) :=
  if (length participants <? 2)%nat || Qeq_bool totalTripCost 0 then Some []
  else
    match settle_loop (balances participants totalTripCost expensesByParticipant) with
    | Some (s, _) => Some (payments s)
    | None => None
    end.

(** The value [settledPayments] has in [GastosView]. *)
Definition settledPayments_of (participants : list Participant)
    (expenses : list Expense) : option (list SettledPayment) :=
  settledPayments participants (totalTripCost expenses)
    (expensesByParticipant participants expenses).

End Proto.

(** ** The engine on doubles

    The same lines computed on IEEE-754 binary64 numbers, the numbers of
    the source, to run the engine on given inputs.  Every operation is
    the primitive one, rounded to nearest; an amount of an [Expense] is
    the double its decimal denotes.  The objects are taken on their own
    properties, as they are for the names used below. *)

Module Binary64.

(** An integer as a double; exact below [2^53]. *)
Definition of_Z (z : Z) : float :=
  match z with
  | Z0 => PrimFloat.zero
  | Zpos _ => PrimFloat.of_uint63 (Uint63.of_Z z)
  | Zneg p => PrimFloat.opp (PrimFloat.of_uint63 (Uint63.of_Z (Zpos p)))
  end.

(** The double a decimal denotes: the quotient of two integers is
    rounded once, to nearest. *)
Definition number (x : Q) : float :=
  PrimFloat.div (of_Z (Qnum x)) (of_Z (Zpos (Qden x))).

Definition epsilon : float := number 0.005.

(** [Math.min] of two numbers. *)
Definition Math_min (x y : float) : float :=
  if PrimFloat.is_nan x || PrimFloat.is_nan y then PrimFloat.nan
  else if PrimFloat.ltb x y then x
  else if PrimFloat.ltb y x then y
  else match PrimFloat.classify x with
       | FloatClass.NZero => x
       | _ => y
       end.

(** [x || 0]: [undefined], the zeros and [NaN] are falsy. *)
Definition or_zero (x : option float) : float :=
  match x with
  | Some v => if PrimFloat.is_zero v || PrimFloat.is_nan v then PrimFloat.zero else v
  | None => PrimFloat.zero
  end.

(** Line 804. *)
Definition totalTripCost (expenses : list Expense) : float :=
  foldl (fun sum exp => PrimFloat.add sum (number (amount exp))) PrimFloat.zero expenses.

(** Lines 811-816. *)
Definition expensesByParticipant (participants : list Participant)
    (expenses : list Expense) : list (string * float) :=
  let byParticipant :=
    foldl (fun o p => JsObject.set o (name p) PrimFloat.zero) [] participants in
  foldl (fun o exp =>
           JsObject.set o (paidBy exp)
             (PrimFloat.add (or_zero (JsObject.get o (paidBy exp)))
                            (number (amount exp))))
        byParticipant expenses.

(** Lines 819-821. *)
Definition avgCost (participants : list Participant) (totalTripCost : float) : float :=
  PrimFloat.div totalTripCost (of_Z (Z.of_nat (length participants))).

Definition balances (participants : list Participant) (totalTripCost : float)
    (expensesByParticipant : list (string * float)) : list (string * float) :=
  foldl (fun b p =>
           JsObject.set b (name p)
             (PrimFloat.sub (or_zero (JsObject.get expensesByParticipant (name p)))
                            (avgCost participants totalTripCost)))
        [] participants.

(** [Array.prototype.sort] with a comparator that returns a double. *)
Fixpoint sort_insert {A} (cmp : A -> A -> float) (x : A) (l : list A) : list A :=
  match l with
  | [] => [x]
  | y :: l' =>
      if PrimFloat.ltb PrimFloat.zero (cmp x y) then y :: sort_insert cmp x l'
      else x :: y :: l'
  end.

Definition array_sort {A} (cmp : A -> A -> float) (l : list A) : list A :=
  foldr (sort_insert cmp) [] l.

(** Lines 822-823. *)
Definition debtors_of (balances : list (string * float)) : list (string * float) :=
  array_sort (fun a b => PrimFloat.sub a.2 b.2)
    (List.filter (fun e => PrimFloat.ltb e.2 (PrimFloat.opp epsilon))
                 (JsObject.entries balances)).

Definition creditors_of (balances : list (string * float)) : list (string * float) :=
  array_sort (fun a b => PrimFloat.sub b.2 a.2)
    (List.filter (fun e => PrimFloat.ltb epsilon e.2) (JsObject.entries balances)).

Record SettledPayment := { from : string; to : string; amount : float }.

Record LoopState := {
  debtors : list (string * float);
  creditors : list (string * float);
  payments : list SettledPayment;
  dIdx : nat;
  cIdx : nat
}.

Definition loop_cond (s : LoopState) : bool :=
  (dIdx s <? length (debtors s))%nat && (cIdx s <? length (creditors s))%nat.

(** Lines 826-830. *)
Definition pass (s : LoopState) (d c : string * float) : LoopState :=
  let transfer := Math_min (PrimFloat.opp d.2) c.2 in
  let payments' :=
    if PrimFloat.ltb epsilon transfer
    then payments s ++ [{| from := d.1; to := c.1; amount := transfer |}]
    else payments s in
  let d' := (d.1, PrimFloat.add d.2 transfer) in
  let c' := (c.1, PrimFloat.sub c.2 transfer) in
  {| debtors := <[dIdx s := d']> (debtors s);
     creditors := <[cIdx s := c']> (creditors s);
     payments := payments';
     dIdx := if PrimFloat.ltb (PrimFloat.abs d'.2) epsilon then S (dIdx s) else dIdx s;
     cIdx := if PrimFloat.ltb (PrimFloat.abs c'.2) epsilon then S (cIdx s) else cIdx s |}.

Definition loop_body (s : LoopState) : option LoopState :=
  match debtors s !! dIdx s, creditors s !! cIdx s with
  | Some d, Some c => Some (pass s d c)
  | _, _ => None
  end.

(** The [while] loop; [None] when the fuel is used up before the
    condition fails. *)
Fixpoint while_loop (fuel : nat) (s : LoopState) : option LoopState :=
  if loop_cond s then
    match fuel with
    | O => None
    | S fuel' =>
        match loop_body s with
        | Some s' => while_loop fuel' s'
        | None => None
        end
    end
  else Some s.

(** The state after [k] passes. *)
Fixpoint after_passes (k : nat) (s : LoopState) : option LoopState :=
  match k with
  | O => Some s
  | S k' =>
      if loop_cond s then
        match loop_body s with
        | Some s' => after_passes k' s'
        | None => None
        end
      else None
  end.

Definition initial_state (balances : list (string * float)) : LoopState :=
  {| debtors := debtors_of balances;
     creditors := creditors_of balances;
     payments := [];
     dIdx := O;
     cIdx := O |}.

(** [settledPayments] (lines 817-833). *)
Definition settledPayments (participants : list Participant) (totalTripCost : float)
    (expensesByParticipant : list (string * float)) : option (list SettledPayment) :=
  if (length participants <? 2)%nat || PrimFloat.eqb totalTripCost PrimFloat.zero
  then Some []
  else
    let s := initial_state (balances participants totalTripCost expensesByParticipant) in
    match while_loop (length (debtors s) + length (creditors s)) s with
    | Some s' => Some (payments s')
    | None => None
    end.

Definition settledPayments_of (participants : list Participant)
    (expenses : list Expense) : option (list SettledPayment) :=
  settledPayments participants (totalTripCost expenses)
    (expensesByParticipant participants expenses).

(** The sum of the amounts of a list of payments, and the credit owed. *)
Definition total_paid (pays : list SettledPayment) : float :=
  foldl (fun sum p => PrimFloat.add sum (amount p)) PrimFloat.zero pays.

Definition sum_values (l : list (string * float)) : float :=
  foldl (fun sum e => PrimFloat.add sum e.2) PrimFloat.zero l.

Definition owed (balances : list (string * float)) : float :=
  foldl (fun sum e =>
           PrimFloat.add sum
             (if PrimFloat.ltb PrimFloat.zero e.2 then e.2 else PrimFloat.zero))
        PrimFloat.zero balances.

End Binary64.

(** ** Sample data *)

Definition expense_by (who : string) (a : Q) (c : ExpenseCategory) : Expense :=
  {| id := ""; tripId := ""; date := ""; amount := a; category := c;
     description := ""; paidBy := who; proofImage := None; paymentMethod := None |}.

Definition people (names : list string) : list Participant :=
  map (fun n => {| name := n |}) names.

(** ** Quantities the statements speak about *)

(** The sum of the values of a list of entries. *)
Definition sum_values (l : list (string * Q)) : Q :=
  foldr (fun e acc => e.2 + acc) 0 l.

(** The sum of the amounts of a list of payments. *)
Definition total_paid (pays : list SettledPayment) : Q :=
  foldr (fun p acc => pay_amount p + acc) 0 pays.

(** The passes the loop can still make: the elements at or after the two
    cursors. *)
Definition passes_left (s : LoopState) : nat :=
  (length (debtors s) - dIdx s) + (length (creditors s) - cIdx s).

(** The state after [k] passes of the loop from [s] ([None] if the loop
    stops earlier). *)
Fixpoint after_passes (k : nat) (s : LoopState) : option LoopState :=
  match k with
  | O => Some s
  | S k' =>
      if loop_cond s then
        match loop_body s with
        | Some s' => after_passes k' s'
        | None => None
        end
      else None
  end.

(** What the loop keeps true, for the lists [D0] and [C0] it started on:
    the names never change; an element before a cursor is settled to
    within [epsilon] and one at or after it still holds at least
    [epsilon]; every payment exceeds [epsilon] and goes from a name of
    [D0] to a name of [C0]; both sides have moved the same amount, the
    payments are part of it, and what was moved but not paid, together
    with what is left before the cursors, is at most [epsilon] for every
    element the cursors have passed. *)
Record settle_inv (D0 C0 : list (string * Q)) (s : LoopState) : Prop := {
  inv_dkeys : (debtors s).*1 = D0.*1;
  inv_ckeys : (creditors s).*1 = C0.*1;
  inv_dIdx : (dIdx s <= length (debtors s))%nat;
  inv_cIdx : (cIdx s <= length (creditors s))%nat;
  inv_debtors : forall i e, debtors s !! i = Some e ->
      if (i <? dIdx s)%nat then - epsilon < e.2 /\ e.2 <= 0 else e.2 <= - epsilon;
  inv_creditors : forall j e, creditors s !! j = Some e ->
      if (j <? cIdx s)%nat then 0 <= e.2 /\ e.2 < epsilon else epsilon <= e.2;
  inv_payments :
    Forall (fun p => epsilon < pay_amount p /\ from p ∈ D0.*1 /\ to p ∈ C0.*1)
           (payments s);
  inv_moved :
    sum_values (debtors s) - sum_values D0 == sum_values C0 - sum_values (creditors s);
  inv_paid : total_paid (payments s) <= sum_values C0 - sum_values (creditors s);
  inv_lost :
    sum_values C0 - sum_values (creditors s) - total_paid (payments s)
    - sum_values (take (dIdx s) (debtors s))
    + sum_values (take (cIdx s) (creditors s))
    <= of_nat (dIdx s + cIdx s) * epsilon
}.

(** The sum of [f] over the names of the participants, in list order. *)
Definition sum_over (ps : list Participant) (f : string -> Q) : Q :=
  foldr (fun p acc => f (name p) + acc) 0 ps.

(** The sum of the positive parts of the values of a list of entries:
    the credit owed. *)
Definition pos_sum (l : list (string * Q)) : Q :=
  foldr (fun e acc => Qmax 0 e.2 + acc) 0 l.

(** The balance of [who] once the payments are made: a payer's balance
    rises by what they pay, a payee's falls by what they receive. *)
Definition balance_after (bal : string -> Q) (pays : list SettledPayment)
    (who : string) : Q :=
  foldl (fun b p =>
           (if String.eqb (from p) who then b + pay_amount p else b)
           - (if String.eqb (to p) who then pay_amount p else 0))
        (bal who) pays.

(** The [forEach] of line 821 for any right-hand side [val] and any object
    [b] to start from. *)
Definition assign_all (val : string -> Q) (b : JsObject.t)
    (ps : list Participant) : JsObject.t :=
  foldl (fun b p => JsObject.set b (name p) (val (name p))) b ps.


(** Payments are compared field by field, amounts as numbers. *)
Definition payment_eq (p q : SettledPayment) : Prop :=
  from p = from q /\ to p = to q /\ pay_amount p == pay_amount q.

(** What [who] pays, and what [who] receives, in a list of payments. *)
Definition paid_by (pays : list SettledPayment) (who : string) : Q :=
  foldr (fun p acc => (if String.eqb (from p) who then pay_amount p else 0) + acc)
        0 pays.

Definition received_by (pays : list SettledPayment) (who : string) : Q :=
  foldr (fun p acc => (if String.eqb (to p) who then pay_amount p else 0) + acc)
        0 pays.

(** The ledger the loop keeps, for the lists [D0] and [C0] it started on:
    what a debtor has paid so far is no more than what its element has
    risen by, and what a creditor has received no more than what its
    element has fallen by. *)
Record ledger_inv (D0 C0 : list (string * Q)) (s : LoopState) : Prop := {
  led_debtors : forall i e e0, debtors s !! i = Some e -> D0 !! i = Some e0 ->
      e0.2 + paid_by (payments s) e0.1 <= e.2;
  led_creditors : forall j e e0, creditors s !! j = Some e -> C0 !! j = Some e0 ->
      e.2 <= e0.2 - received_by (payments s) e0.1
}.

(** The sum of a list of numbers. *)
Definition Qsum (l : list Q) : Q := foldr Qplus 0 l.

(** Entries, and loop states, that are the same up to [==] on numbers. *)
Definition entry_eq (a b : string * Q) : Prop := a.1 = b.1 /\ a.2 == b.2.

Record state_eq (s s' : LoopState) : Prop := {
  eq_debtors : Forall2 entry_eq (debtors s) (debtors s');
  eq_creditors : Forall2 entry_eq (creditors s) (creditors s');
  eq_payments : Forall2 payment_eq (payments s) (payments s');
  eq_dIdx : dIdx s = dIdx s';
  eq_cIdx : cIdx s = cIdx s'
}.

(** ** The chart data and the calendar index of [GastosView] *)

(** [CHART_COLORS] ([constants.tsx]). *)
Definition CHART_COLORS : list string :=
  ["#4ade80"; "#22d3ee"; "#facc15"; "#fb923c"; "#f87171";
   "#a78bfa"; "#38bdf8"; "#c084fc"; "#fb7185"; "#60a5fa"].

(** The three arrays of [chartDataByCategory]; an element of
    [backgroundColors] is [None] when the colour read was [undefined]. *)
Record ChartData := {
  labels : list string;
  data : list Q;
  backgroundColors : list (option string)
}.

(** [expensesByCategory\[cat\] > 0]; [undefined > 0] is false. *)
Definition positive_entry (m : gmap string Q) (cat : ExpenseCategory) : bool :=
  match m !! category_key cat with
  | Some v => Qltb 0 v
  | None => false
  end.

(** The callback of the [forEach] of line 871, on the arrays and [cIdx]. *)
Definition chart_step (m : gmap string Q) (acc : ChartData * nat)
    (cat : ExpenseCategory) : ChartData * nat :=
  if positive_entry m cat then
    ({| labels := labels acc.1 ++ [category_key cat];
        data := data acc.1 ++ [default 0 (m !! category_key cat)];
        backgroundColors :=
          backgroundColors acc.1 ++ [CHART_COLORS !! (acc.2 mod length CHART_COLORS)%nat] |},
     S acc.2)
  else acc.

(** [chartDataByCategory] (lines 869-873). *)
Definition chartDataByCategory (expensesByCategory : gmap string Q) : ChartData :=
  (foldl (chart_step expensesByCategory)
         ({| labels := []; data := []; backgroundColors := [] |}, O) CATEGORIES).1.

(** [Object.values(expensesByCategory).every(v => v === 0)], the condition
    of the message "No hay gastos para mostrar". *)
Definition every_zero (expensesByCategory : gmap string Q) : bool :=
  forallb (fun kv => Qeq_bool kv.2 0) (map_to_list expensesByCategory).

(** [expensesByDate] of [GastosCalendarView] (lines 1023-1031): a [Map]
    from a date to the array of its expenses. *)
Definition expensesByDate (expenses : list Expense) : gmap string (list Expense) :=
  foldl (fun map exp =>
           let dateKey := date exp in
           let map1 :=
             match map !! dateKey with
             | Some _ => map
             | None => <[dateKey := []]> map
             end in
           match map1 !! dateKey with
           | Some l => <[dateKey := l ++ [exp]]> map1
           | None => map1 (* not reached: the key has just been set *)
           end)
        ∅ expenses.

(** ** The state of [App] and its handlers (lines 136-288) *)

(** The remaining types of [types.ts].  Each record is in a module of its
    own so that the fields keep their names. *)

Module Trip.
Record t := {
  id : string;
  name : string;
  participants : list Participant;
  tripCode : string
}.
End Trip.

Module User.
Record t := { username : string }.
End User.

Module StoredUser.
Record t := { username : string; password : option string }.
End StoredUser.

Inductive MediaType := image | video.

Module MediaItem.
Record t := {
  id : string;
  tripId : string;
  uploader : string;
  type : MediaType;
  dataUrl : string;
  fileName : string;
  uploadedAt : string;
  description : option string
}.
End MediaItem.

Inductive InfoItemType :=
  | BOARDING_PASS
  | HOTEL_RESERVATION
  | ATTRACTION_TICKET
  | NOTE_TEXT
  | NOTE_AUDIO
  | OTHER.

Module InfoItem.
Record t := {
  id : string;
  tripId : string;
  title : string;
  type : InfoItemType;
  details : option string;
  fileDataUrl : option string;
  fileName : option string;
  date : option string;
  time : option string;
  isCompleted : bool;
  reminderEnabled : bool;
  addedBy : string;
  createdAt : string
}.
End InfoItem.

Module ChatMessage.
Record t := {
  id : string;
  tripId : string;
  sender : string;
  text : string;
  timestamp : string
}.
End ChatMessage.

Inductive ItineraryItemCategory :=
  | VISIT
  | MEAL
  | ACTIVITY
  | TRANSPORT
  | NOTE
  | OTHER_ITEM.

Module ItineraryItem.
Record t := {
  id : string;
  tripId : string;
  title : string;
  date : string;
  time : option string;
  category : option ItineraryItemCategory;
  notes : option string;
  location : option string;
  isCompleted : bool;
  addedBy : string;
  createdAt : string
}.
End ItineraryItem.

Module MarkedLocation.
Record t := {
  id : string;
  tripId : string;
  name : string;
  query : string;
  addedAt : string
}.
End MarkedLocation.

Inductive AppView := auth | trip_dashboard | trip_create | trip_join | active_trip.

(** The state variables of [App] (lines 137-151). *)
Record AppState := {
  currentUser : option User.t;
  storedUsers : list StoredUser.t;
  trips : list Trip.t;
  expenses : list Expense;
  mediaItems : list MediaItem.t;
  infoItems : list InfoItem.t;
  chatMessages : list ChatMessage.t;
  itineraryItems : list ItineraryItem.t;
  markedMapLocations : list MarkedLocation.t;
  activeTripId : option string;
  view : AppView;
  joinTripError : option string;
  showTripCodeModal : option string;
  authFormInitialValues : option (option string * option string)
}.

(** [!s] for a string: only the empty string is falsy. *)
Definition blank (s : string) : bool := String.eqb s "".

(** The truthiness of [activeTripId : string | null]. *)
Definition is_set (o : option string) : bool :=
  match o with
  | Some s => negb (blank s)
  | None => false
  end.

(** [String(n)] for a non-negative integer, as in [`trip-${Date.now()}`]. *)
Definition number_string (n : N) : string :=
  DecimalString.NilEmpty.string_of_uint (N.to_uint n).

(** [handleLogin] (lines 210-220): the result and the new state. *)
Definition handleLogin (st : AppState) (username pass : string) : bool * AppState :=
  match List.find (fun user =>
                     String.eqb (StoredUser.username user) username
                     && match StoredUser.password user with
                        | Some p => String.eqb p pass
                        | None => false
                        end)
                  (storedUsers st) with
  | Some userExists =>
      (true,
       {| currentUser := Some {| User.username := StoredUser.username userExists |};
          storedUsers := storedUsers st;
          trips := trips st;
          expenses := expenses st;
          mediaItems := mediaItems st;
          infoItems := infoItems st;
          chatMessages := chatMessages st;
          itineraryItems := itineraryItems st;
          markedMapLocations := markedMapLocations st;
          activeTripId := activeTripId st;
          view := view st;
          joinTripError := joinTripError st;
          showTripCodeModal := showTripCodeModal st;
          authFormInitialValues := None |})
  | None => (false, st)
  end.

(** The result of [handleRegister]: [true], or the message. *)
Inductive RegisterResult :=
  | Registered
  | Rejected (message : string).

Section Handlers.

(** [String.prototype.trim] is a parameter: the handlers only use it, and
    what is proved of them holds for whatever it returns. *)
Context (trim : string -> string).

(** [handleRegister] (lines 222-229). *)
Definition handleRegister (st : AppState) (username pass confirmPass : string)
    : RegisterResult * AppState :=
  if blank (trim username) || blank (trim pass) then
    (Rejected "El nombre de usuario y la contraseña no pueden estar vacíos.", st)
  else if negb (String.eqb pass confirmPass) then
    (Rejected "Las contraseñas no coinciden.", st)
  else if existsb (fun user => String.eqb (StoredUser.username user) username)
                  (storedUsers st) then
    (Rejected "El nombre de usuario ya existe.", st)
  else
    (Registered,
     {| currentUser := currentUser st;
        storedUsers :=
          storedUsers st
          ++ [{| StoredUser.username := username; StoredUser.password := Some pass |}];
        trips := trips st;
        expenses := expenses st;
        mediaItems := mediaItems st;
        infoItems := infoItems st;
        chatMessages := chatMessages st;
        itineraryItems := itineraryItems st;
        markedMapLocations := markedMapLocations st;
        activeTripId := activeTripId st;
        view := view st;
        joinTripError := joinTripError st;
        showTripCodeModal := showTripCodeModal st;
        authFormInitialValues := Some (Some username, Some pass) |}).

(** [handleCreateTrip] (lines 237-251), with the values of [Date.now()]
    and [generateTripCode()]; the first component is the text of the
    [alert], if there is one. *)
Definition handleCreateTrip (now : N) (code : string) (st : AppState)
    (tripName : string) (participantNames : list string) : option string * AppState :=
  if blank (trim tripName)
     || (length participantNames =? 0)%nat
     || existsb (fun p => blank (trim p)) participantNames
  then
    (Some "El nombre del viaje y los nombres de los participantes no pueden estar vacíos.",
     st)
  else
    let newTrip :=
      {| Trip.id := "trip-" ++ number_string now;
         Trip.name := tripName;
         Trip.participants := map (fun pName => {| name := trim pName |}) participantNames;
         Trip.tripCode := code |} in
    (None,
     {| currentUser := currentUser st;
        storedUsers := storedUsers st;
        trips := trips st ++ [newTrip];
        expenses := expenses st;
        mediaItems := mediaItems st;
        infoItems := infoItems st;
        chatMessages := chatMessages st;
        itineraryItems := itineraryItems st;
        markedMapLocations := markedMapLocations st;
        activeTripId := Some (Trip.id newTrip);
        view := view st;
        joinTripError := joinTripError st;
        showTripCodeModal := Some (Trip.tripCode newTrip);
        authFormInitialValues := authFormInitialValues st |}).

(** [participantsStr.split(',')]: the pieces between the commas. *)
Fixpoint split_commas (s : string) : list string :=
  match s with
  | EmptyString => [EmptyString]
  | String c s' =>
      if Ascii.eqb c ","%char then EmptyString :: split_commas s'
      else
        match split_commas s' with
        | piece :: pieces => String c piece :: pieces
        | [] => [String c EmptyString]
        end
  end.

(** [handleSubmit] of [TripCreateForm] (lines 586-591), with
    [handleCreateTrip] as its [onSubmit]. *)
Definition tripCreateSubmit (now : N) (code : string) (st : AppState)
    (tripName participantsStr : string) : option string * AppState :=
  let participantNames :=
    List.filter (fun p => negb (blank p)) (map trim (split_commas participantsStr)) in
  if (length participantNames =? 0)%nat then
    (Some "Por favor, añade al menos un participante.", st)
  else handleCreateTrip now code st tripName participantNames.

End Handlers.

(** [handleDeleteTrip] (lines 264-277), with the answer of
    [window.confirm]. *)
Definition handleDeleteTrip (confirm : bool) (st : AppState) (tripId0 : string) : AppState :=
  if negb confirm then st
  else
    let active := match activeTripId st with
                  | Some a => String.eqb a tripId0
                  | None => false
                  end in
    {| currentUser := currentUser st;
       storedUsers := storedUsers st;
       trips := List.filter (fun t => negb (String.eqb (Trip.id t) tripId0)) (trips st);
       expenses := List.filter (fun e => negb (String.eqb (tripId e) tripId0)) (expenses st);
       mediaItems :=
         List.filter (fun m => negb (String.eqb (MediaItem.tripId m) tripId0)) (mediaItems st);
       infoItems :=
         List.filter (fun i => negb (String.eqb (InfoItem.tripId i) tripId0)) (infoItems st);
       chatMessages :=
         List.filter (fun c => negb (String.eqb (ChatMessage.tripId c) tripId0)) (chatMessages st);
       itineraryItems :=
         List.filter (fun it => negb (String.eqb (ItineraryItem.tripId it) tripId0))
                     (itineraryItems st);
       markedMapLocations :=
         List.filter (fun ml => negb (String.eqb (MarkedLocation.tripId ml) tripId0))
                     (markedMapLocations st);
       activeTripId := if active then None else activeTripId st;
       view := if active then trip_dashboard else view st;
       joinTripError := joinTripError st;
       showTripCodeModal := showTripCodeModal st;
       authFormInitialValues := authFormInitialValues st |}.
(** [handleAddExpense] (lines 279-283), with the value of [Date.now()]:
    [id] and [tripId] of [expenseData] are overwritten. *)
Definition handleAddExpense (now : N) (st : AppState) (expenseData : Expense) : AppState :=
  match activeTripId st with
  | Some active =>
      if blank active then st
      else
        let newExpense :=
          {| id := "exp-" ++ number_string now;
             tripId := active;
             date := date expenseData;
             amount := amount expenseData;
             category := category expenseData;
             description := description expenseData;
             paidBy := paidBy expenseData;
             proofImage := proofImage expenseData;
             paymentMethod := paymentMethod expenseData |} in
        {| currentUser := currentUser st;
           storedUsers := storedUsers st;
           trips := trips st;
           expenses := expenses st ++ [newExpense];
           mediaItems := mediaItems st;
           infoItems := infoItems st;
           chatMessages := chatMessages st;
           itineraryItems := itineraryItems st;
           markedMapLocations := markedMapLocations st;
           activeTripId := activeTripId st;
           view := view st;
           joinTripError := joinTripError st;
           showTripCodeModal := showTripCodeModal st;
           authFormInitialValues := authFormInitialValues st |}
  | None => st
  end.

(** [handleDeleteExpense] (lines 285-288), with the answer of
    [window.confirm]. *)
Definition handleDeleteExpense (confirm : bool) (st : AppState) (expenseId : string)
    : AppState :=
  if negb confirm then st
  else
    {| currentUser := currentUser st;
       storedUsers := storedUsers st;
       trips := trips st;
       expenses := List.filter (fun exp => negb (String.eqb (id exp) expenseId)) (expenses st);
       mediaItems := mediaItems st;
       infoItems := infoItems st;
       chatMessages := chatMessages st;
       itineraryItems := itineraryItems st;
       markedMapLocations := markedMapLocations st;
       activeTripId := activeTripId st;
       view := view st;
       joinTripError := joinTripError st;
       showTripCodeModal := showTripCodeModal st;
       authFormInitialValues := authFormInitialValues st |}.

(** [activeTrip] (lines 174-177). *)
Definition activeTrip (st : AppState) : option Trip.t :=
  match activeTripId st with
  | Some active =>
      if blank active then None
      else List.find (fun trip => String.eqb (Trip.id trip) active) (trips st)
  | None => None
  end.

Section ActiveTripExpenses.

(** [new Date(s).getTime()] and [a.localeCompare(b)] are parameters.  The
    list is sorted with [array_sort], which is what the engine's sort
    returns when the comparator is a consistent one. *)
Context (getTime : string -> Q) (localeCompare : string -> string -> Q).

(** The comparator of line 181; [x || y] is [y] when [x] is zero. *)
Definition compareExpenses (a b : Expense) : Q :=
  let byDate := getTime (date b) - getTime (date a) in
  if Qeq_bool byDate 0 then localeCompare (id b) (id a) else byDate.

(** [activeTripExpenses] (lines 179-182), the [expenses] of [GastosView]. *)
Definition activeTripExpenses (st : AppState) : list Expense :=
  match activeTripId st with
  | Some active =>
      if blank active then []
      else array_sort compareExpenses
             (List.filter (fun exp => String.eqb (tripId exp) active) (expenses st))
  | None => []
  end.

End ActiveTripExpenses.

(** Every trip has a participant, and no participant has an empty name. *)
Definition trips_named (st : AppState) : Prop :=
  Forall (fun t => Trip.participants t <> []
                   /\ Forall (fun q => blank (name q) = false) (Trip.participants t))
         (trips st).

(** ** Trip codes (lines 19-22) *)

(** [n.toString(16)] for a non-negative integer: lower-case digits. *)
Definition hex_string (n : N) : string :=
  HexadecimalString.NilEmpty.string_of_uint (N.to_hex_uint n).

(** [s.substring(1)]. *)
Definition substring_from_1 (s : string) : string :=
  match s with
  | EmptyString => EmptyString
  | String _ s' => s'
  end.

(** [toUpperCase] on the letters [a] to [z], which is all it meets here. *)
Definition upper_char (c : Ascii.ascii) : Ascii.ascii :=
  let n := Ascii.N_of_ascii c in
  if ((97 <=? n) && (n <=? 122))%N then Ascii.ascii_of_N (n - 32) else c.

Fixpoint toUpperCase (s : string) : string :=
  match s with
  | EmptyString => EmptyString
  | String c s' => String (upper_char c) (toUpperCase s')
  end.

(** [S4], as a function of [n = ((1 + Math.random()) * 0x10000) | 0]. *)
Definition S4 (n : N) : string := toUpperCase (substring_from_1 (hex_string n)).

(** [generateTripCode], as a function of the two numbers drawn. *)
Definition generateTripCode (n1 n2 : N) : string :=
  "TF-" ++ S4 n1 ++ "-" ++ S4 n2.

(** The value of an upper-case hexadecimal digit, and of a string of them. *)
Definition upper_hex_value (c : Ascii.ascii) : option N :=
  let n := Ascii.N_of_ascii c in
  if ((48 <=? n) && (n <=? 57))%N then Some (n - 48)%N
  else if ((65 <=? n) && (n <=? 70))%N then Some (n - 55)%N
  else None.

Fixpoint upper_hex_number (acc : N) (s : string) : option N :=
  match s with
  | EmptyString => Some acc
  | String c s' =>
      match upper_hex_value c with
      | Some d => upper_hex_number (16 * acc + d)%N s'
      | None => None
      end
  end.

(** [f] holds of [count] numbers from [start] on. *)
Fixpoint holds_from (f : N -> bool) (start : N) (count : nat) : bool :=
  match count with
  | O => true
  | S count' => f start && holds_from f (N.succ start) count'
  end.

(** A state with one open trip and one expense, for the examples. *)
Definition sample_state : AppState :=
  {| currentUser := Some {| User.username := "ana" |};
     storedUsers := [{| StoredUser.username := "ana"; StoredUser.password := Some "secreto" |}];
     trips := [{| Trip.id := "trip-1"; Trip.name := "Roma";
                  Trip.participants := people ["Ana"; "Juan"];
                  Trip.tripCode := "TF-0A1B-2C3D" |}];
     expenses := [{| id := "exp-1"; tripId := "trip-1"; date := "2024-05-01"; amount := 12;
                     category := COMIDA; description := ""; paidBy := "Ana";
                     proofImage := None; paymentMethod := None |}];
     mediaItems := []; infoItems := []; chatMessages := [];
     itineraryItems := []; markedMapLocations := [];
     activeTripId := Some "trip-1";
     view := active_trip; joinTripError := None; showTripCodeModal := None;
     authFormInitialValues := None |}.

(** [handleJoinTrip] (lines 253-262), with [String.prototype.trim] as a
    parameter. *)
Definition handleJoinTrip (trim : string -> string) (st : AppState) (tripCode : string)
    : AppState :=
  match List.find (fun t => String.eqb (Trip.tripCode t) (trim tripCode)) (trips st) with
  | Some tripToJoin =>
      {| currentUser := currentUser st;
         storedUsers := storedUsers st;
         trips := trips st;
         expenses := expenses st;
         mediaItems := mediaItems st;
         infoItems := infoItems st;
         chatMessages := chatMessages st;
         itineraryItems := itineraryItems st;
         markedMapLocations := markedMapLocations st;
         activeTripId := Some (Trip.id tripToJoin);
         view := active_trip;
         joinTripError := None;
         showTripCodeModal := showTripCodeModal st;
         authFormInitialValues := authFormInitialValues st |}
  | None =>
      {| currentUser := currentUser st;
         storedUsers := storedUsers st;
         trips := trips st;
         expenses := expenses st;
         mediaItems := mediaItems st;
         infoItems := infoItems st;
         chatMessages := chatMessages st;
         itineraryItems := itineraryItems st;
         markedMapLocations := markedMapLocations st;
         activeTripId := activeTripId st;
         view := view st;
         joinTripError :=
           Some "Viaje no encontrado con este código. Para unirte, los datos completos del viaje (no solo el código) deben haber sido importados o compartidos previamente en este dispositivo. Pídele al creador del viaje que comparta los datos si es necesario.";
         showTripCodeModal := showTripCodeModal st;
         authFormInitialValues := authFormInitialValues st |}
  end.

(** ** Numbers: basic facts *)

Lemma Qltb_lt (x y : Q) : Qltb x y = true <-> x < y.
Proof.
  unfold Qltb. rewrite Qlt_alt. destruct (x ?= y); split; congruence.
Qed.

Lemma Qltb_ge (x y : Q) : Qltb x y = false <-> y <= x.
Proof.
  rewrite <- not_true_iff_false, Qltb_lt. split; intros H; lra.
Qed.

Lemma or_zero_Some (v : Q) : or_zero (Some v) == v.
Proof.
  simpl. destruct (Qeq_bool v 0) eqn:E; [|reflexivity].
  apply Qeq_bool_eq in E. symmetry. exact E.
Qed.

Lemma epsilon_pos : 0 < epsilon.
Proof. reflexivity. Qed.

(** ** Sorting only permutes *)

Section SortFacts.
Context {A : Type} (cmp : A -> A -> Q).

Lemma sort_insert_perm (x : A) (l : list A) : sort_insert cmp x l ≡ₚ x :: l.
Proof.
  induction l as [|y l IH]; simpl; [done|].
  destruct (Qltb 0 (cmp x y)); [|done].
  rewrite IH. apply Permutation_swap.
Qed.

Lemma array_sort_perm (l : list A) : array_sort cmp l ≡ₚ l.
Proof.
  induction l as [|x l IH]; simpl; [done|].
  rewrite sort_insert_perm. by rewrite IH.
Qed.
End SortFacts.


(** ** Objects: lookup, assignment and enumeration *)

Section ObjectFacts.
Import JsObject.
Context {V : Type}.

Lemma get_set (o : list (string * V)) (k k' : string) (v : V) :
  get (set o k v) k' = if String.eqb k k' then Some v else get o k'.
Proof.
  induction o as [|[k0 v0] o IH]; simpl.
  - reflexivity.
  - destruct (String.eqb_spec k0 k) as [->|Hk]; simpl.
    + destruct (String.eqb k k'); reflexivity.
    + rewrite IH. destruct (String.eqb_spec k0 k') as [->|Hk'].
      * destruct (String.eqb_spec k k'); congruence.
      * reflexivity.
Qed.

Lemma keys_set (o : list (string * V)) (k : string) (v : V) :
  (set o k v).*1 = if decide (k ∈ o.*1) then o.*1 else o.*1 ++ [k].
Proof.
  induction o as [|[k0 v0] o IH].
  - rewrite decide_False; [done|]. apply not_elem_of_nil.
  - cbn [set]. rewrite fmap_cons. cbn [fst].
    destruct (String.eqb_spec k0 k) as [->|Hk].
    + rewrite decide_True; [done|]. apply list_elem_of_here.
    + rewrite fmap_cons, IH. cbn [fst].
      destruct (decide (k ∈ o.*1)) as [Hin|Hin].
      * rewrite decide_True; [done|]. by apply list_elem_of_further.
      * rewrite decide_False; [done|].
        intros [?|?]%elem_of_cons; congruence.
Qed.

Lemma length_set (o : list (string * V)) (k : string) (v : V) :
  (length (set o k v) <= S (length o))%nat.
Proof.
  induction o as [|[k0 v0] o IH]; simpl; [lia|].
  destruct (String.eqb k0 k); simpl; lia.
Qed.

Lemma NoDup_keys_set (o : list (string * V)) (k : string) (v : V) :
  NoDup o.*1 -> NoDup (set o k v).*1.
Proof.
  intros Hnd. rewrite keys_set. case_decide; [done|].
  apply NoDup_app. split_and!; [done| |apply NoDup_singleton].
  intros x Hx ->%list_elem_of_singleton. done.
Qed.

Lemma get_Some_elem_of (o : list (string * V)) (k : string) (v : V) :
  get o k = Some v -> (k, v) ∈ o.
Proof.
  induction o as [|[k0 v0] o IH]; simpl; [done|].
  destruct (String.eqb_spec k0 k) as [->|Hk].
  - intros [= ->]. apply list_elem_of_here.
  - intros H. apply list_elem_of_further. auto.
Qed.

Lemma elem_of_get_Some (o : list (string * V)) (k : string) (v : V) :
  NoDup o.*1 -> (k, v) ∈ o -> get o k = Some v.
Proof.
  induction o as [|[k0 v0] o IH]; simpl.
  - intros _ H. by apply not_elem_of_nil in H.
  - intros [Hk0 Hnd]%NoDup_cons [Heq|Hin]%elem_of_cons.
    + injection Heq as -> ->. by rewrite String.eqb_refl.
    + destruct (String.eqb_spec k0 k) as [->|Hk]; [|auto].
      exfalso. apply Hk0. apply list_elem_of_fmap. by exists (k, v).
Qed.

Lemma insert_index_perm (x : string * V) (l : list (string * V)) :
  insert_index x l ≡ₚ x :: l.
Proof.
  induction l as [|y l IH]; simpl; [done|].
  destruct (index_of y <? index_of x)%N; [|done].
  rewrite IH. apply Permutation_swap.
Qed.

Lemma filter_split_perm {A} (f : A -> bool) (l : list A) :
  List.filter f l ++ List.filter (fun x => negb (f x)) l ≡ₚ l.
Proof.
  induction l as [|x l IH]; simpl; [done|].
  destruct (f x); simpl.
  - by rewrite IH.
  - rewrite <- Permutation_middle. by rewrite IH.
Qed.

Lemma entries_perm (o : list (string * V)) : entries o ≡ₚ o.
Proof.
  unfold entries.
  assert (Hs : forall l : list (string * V), foldr insert_index [] l ≡ₚ l).
  { induction l as [|x l IH]; simpl; [done|].
    rewrite insert_index_perm. by rewrite IH. }
  rewrite Hs. apply filter_split_perm.
Qed.
End ObjectFacts.


(** ** The object built by a [forEach] of assignments *)

Section AssignFacts.
Import JsObject.
Context (val : string -> Q).

Lemma assign_all_get (ps : list Participant) (b : t) (k : string) :
  get (assign_all val b ps) k
  = if decide (k ∈ name <$> ps) then Some (val k) else get b k.
Proof.
  revert b. induction ps as [|p ps IH]; intros b.
  - rewrite decide_False; [done|]. apply not_elem_of_nil.
  - cbn [assign_all foldl]. fold (assign_all val (set b (name p) (val (name p))) ps).
    rewrite IH, fmap_cons.
    destruct (decide (k ∈ name <$> ps)) as [Hin|Hin].
    + rewrite decide_True; [done|]. by apply list_elem_of_further.
    + rewrite get_set. destruct (String.eqb_spec (name p) k) as [<-|Hk].
      * rewrite decide_True; [done|]. apply list_elem_of_here.
      * rewrite decide_False; [done|].
        intros [?|?]%elem_of_cons; congruence.
Qed.

Lemma assign_all_NoDup (ps : list Participant) (b : t) :
  NoDup b.*1 -> NoDup (assign_all val b ps).*1.
Proof.
  revert b. induction ps as [|p ps IH]; intros b Hb; [done|].
  apply IH. by apply NoDup_keys_set.
Qed.

Lemma assign_all_length (ps : list Participant) (b : t) :
  (length (assign_all val b ps) <= length b + length ps)%nat.
Proof.
  revert b. induction ps as [|p ps IH]; intros b; simpl; [lia|].
  etrans; [apply IH|]. pose proof (length_set b (name p) (val (name p))). lia.
Qed.

(** With pairwise distinct names the object lists the participants in
    order. *)
Lemma assign_all_fresh (ps : list Participant) (b : t) :
  NoDup (name <$> ps) ->
  (forall k, k ∈ name <$> ps -> k ∉ b.*1) ->
  assign_all val b ps = b ++ ((fun p => (name p, val (name p))) <$> ps).
Proof.
  revert b. induction ps as [|p ps IH]; intros b Hnd Hfresh.
  - simpl. by rewrite app_nil_r.
  - rewrite fmap_cons in Hnd. apply NoDup_cons in Hnd as [Hp Hnd].
    cbn [assign_all foldl]. fold (assign_all val (set b (name p) (val (name p))) ps).
    assert (Hset : set b (name p) (val (name p)) = b ++ [(name p, val (name p))]).
    { assert (Hnp : name p ∉ b.*1) by (apply Hfresh, list_elem_of_here).
      clear -Hnp. induction b as [|[k0 v0] b IHb]; [done|].
      rewrite fmap_cons in Hnp. apply not_elem_of_cons in Hnp as [Hne Hnp].
      cbn [set app]. cbn [fst] in Hne.
      destruct (String.eqb_spec k0 (name p)); [congruence|].
      by rewrite IHb. }
    rewrite IH; [|done|].
    + rewrite Hset, fmap_cons, <- app_assoc. done.
    + intros k Hk. rewrite Hset, fmap_app. cbn.
      intros [Hin|Hin%list_elem_of_singleton]%elem_of_app.
      * revert Hin. apply Hfresh. by apply list_elem_of_further.
      * subst k. done.
Qed.
End AssignFacts.

Lemma balances_assign_all ps total byP :
  balances ps total byP = assign_all (balance ps total byP) JsObject.empty ps.
Proof. reflexivity. Qed.

(** ** Enumerating an object that also holds values that are not numbers *)

(** Selecting the numeric entries commutes with [Object.entries]: the
    array-index part of the enumeration is sorted, so dropping entries
    does not move the others. *)
Section ProtoEntries.
Import JsObject.

Lemma insert_index_sorted {V} (x : string * V) (l : list (string * V)) :
  StronglySorted by_index l -> StronglySorted by_index (insert_index x l).
Proof.
  induction 1 as [|y l Hl IH Hy]; cbn [insert_index].
  - repeat constructor.
  - destruct (N.ltb_spec (index_of y) (index_of x)) as [Hlt|Hge].
    + constructor; [done|]. rewrite insert_index_perm.
      constructor; [unfold by_index; lia|done].
    + constructor; [by constructor|].
      constructor; [done|]. eapply Forall_impl; [exact Hy|].
      unfold by_index. intros z Hz. lia.
Qed.

Lemma entries_index_sorted {V} (l : list (string * V)) :
  StronglySorted by_index (foldr insert_index [] l).
Proof.
  induction l as [|x l IH]; cbn [foldr]; [constructor|].
  by apply insert_index_sorted.
Qed.

Lemma insert_index_first {V} (x : string * V) (l : list (string * V)) :
  Forall (by_index x) l -> insert_index x l = x :: l.
Proof.
  destruct l as [|y l]; [done|]. intros [Hy _]%Forall_cons.
  cbn [insert_index]. unfold by_index in Hy.
  destruct (N.ltb_spec (index_of y) (index_of x)); [lia|done].
Qed.

Lemma numbers_cons (kv : string * Proto.value) l :
  Proto.numbers (kv :: l)
  = match kv.2 with
    | Proto.Number x => (kv.1, x) :: Proto.numbers l
    | _ => Proto.numbers l
    end.
Proof. unfold Proto.numbers. cbn [omap list_omap]. by destruct kv.2. Qed.

Lemma numbers_index (l : list (string * Proto.value)) (x : string * Proto.value)
    (y : string * Q) :
  y.1 = x.1 -> Forall (by_index x) l -> Forall (by_index y) (Proto.numbers l).
Proof.
  intros Hk. induction 1 as [|z l Hz Hl IH]; [constructor|].
  rewrite numbers_cons. destruct z as [kz vz]. cbn [fst snd].
  destruct vz; try exact IH.
  constructor; [|exact IH].
  unfold by_index, index_of in *. cbn [fst] in *. by rewrite Hk.
Qed.

Lemma numbers_insert_index (x : string * Proto.value) (l : list (string * Proto.value)) :
  StronglySorted by_index l ->
  Proto.numbers (insert_index x l)
  = match x.2 with
    | Proto.Number v => insert_index (x.1, v) (Proto.numbers l)
    | _ => Proto.numbers l
    end.
Proof.
  induction 1 as [|y l Hl IH Hy]; cbn [insert_index].
  - rewrite numbers_cons. by destruct x.2.
  - destruct (N.ltb_spec (index_of y) (index_of x)) as [Hlt|Hge].
    + rewrite !numbers_cons, IH. destruct y as [ky vy]. cbn [fst snd].
      destruct vy; try done.
      destruct x as [kx vx]. cbn [fst snd]. destruct vx; try done.
      cbn [insert_index]. unfold index_of in *. cbn [fst] in *.
      destruct (N.ltb_spec
        (match array_index ky with Some n => n | None => 0%N end)
        (match array_index kx with Some n => n | None => 0%N end)); [done|lia].
    + rewrite numbers_cons. destruct x as [kx vx]. cbn [fst snd].
      destruct vx; try done.
      symmetry. apply insert_index_first.
      apply (numbers_index (y :: l) (kx, Proto.Number x)); [done|].
      constructor; [exact Hge|].
      eapply Forall_impl; [exact Hy|]. unfold by_index. intros z Hz.
      unfold by_index in Hge. lia.
Qed.

Lemma numbers_filter (f : forall V, string * V -> bool) (l : list (string * Proto.value)) :
  (forall k (v : Proto.value) (x : Q), f _ (k, v) = f _ (k, x)) ->
  Proto.numbers (List.filter (f _) l) = List.filter (f _) (Proto.numbers l).
Proof.
  intros Hf. induction l as [|[k v] l IH]; [done|].
  cbn [List.filter]. destruct (f _ (k, v)) eqn:Hkv.
  - rewrite !numbers_cons. cbn [fst snd]. destruct v as [|x| | |]; try exact IH.
    cbn [List.filter]. rewrite <- (Hf k (Proto.Number x) x), Hkv. by rewrite IH.
  - rewrite numbers_cons. cbn [fst snd]. destruct v as [|x| | |]; try exact IH.
    cbn [List.filter]. rewrite <- (Hf k (Proto.Number x) x), Hkv. exact IH.
Qed.

Lemma numbers_app l l' :
  Proto.numbers (l ++ l') = Proto.numbers l ++ Proto.numbers l'.
Proof. unfold Proto.numbers. apply omap_app. Qed.

Lemma numbers_entries (b : list (string * Proto.value)) :
  Proto.numbers (entries b) = entries (Proto.numbers b).
Proof.
  unfold entries. rewrite numbers_app. f_equal.
  - rewrite <- (numbers_filter (@is_array_index)); [|done].
    induction (List.filter is_array_index b) as [|x l IH]; [done|].
    cbn [foldr]. rewrite numbers_insert_index by apply entries_index_sorted.
    rewrite numbers_cons. destruct x as [k v]; cbn [fst snd].
    destruct v; try exact IH. cbn [foldr]. by rewrite IH.
  - apply (numbers_filter (fun V kv => negb (is_array_index kv))). done.
Qed.
End ProtoEntries.



(** ** Arithmetic of one pass *)

Lemma of_nat_S (n : nat) : of_nat (S n) == of_nat n + 1.
Proof.
  unfold of_nat. rewrite Nat2Z.inj_succ, <- Z.add_1_r, inject_Z_plus. reflexivity.
Qed.

Lemma of_nat_add (n m : nat) : of_nat (n + m) == of_nat n + of_nat m.
Proof.
  unfold of_nat. rewrite Nat2Z.inj_add, inject_Z_plus. reflexivity.
Qed.

Lemma of_nat_nonneg (n : nat) : 0 <= of_nat n.
Proof.
  unfold of_nat. change 0 with (inject_Z 0). rewrite <- Zle_Qle. lia.
Qed.

Lemma of_nat_le (n m : nat) : (n <= m)%nat -> of_nat n <= of_nat m.
Proof.
  intros H. unfold of_nat. rewrite <- Zle_Qle. lia.
Qed.

(** [Math.abs(x) < 0.005] *)
Lemma abs_below (x : Q) : Qltb (Qabs x) epsilon = true <-> - epsilon < x /\ x < epsilon.
Proof. rewrite Qltb_lt. apply Qabs_Qlt_condition. Qed.

Lemma abs_not_below (x : Q) :
  Qltb (Qabs x) epsilon = false <-> x <= - epsilon \/ epsilon <= x.
Proof.
  rewrite <- not_true_iff_false, abs_below. split.
  - intros H. destruct (Qlt_le_dec (- epsilon) x); [|by left].
    destruct (Qlt_le_dec x epsilon); [|by right]. exfalso. auto.
  - intros [H|H] [H1 H2]; lra.
Qed.

(** [Math.min(a, b)] is one of its arguments and below both. *)
Lemma min_cases (a b : Q) :
  (Qmin a b == a /\ a <= b) \/ (Qmin a b == b /\ b <= a).
Proof.
  destruct (Q.min_spec a b) as [[H1 H2]|[H1 H2]]; [left|right]; split; auto; lra.
Qed.


(** ** The loop: termination *)

Lemma loop_cond_true (s : LoopState) :
  loop_cond s = true
  <-> (dIdx s < length (debtors s))%nat /\ (cIdx s < length (creditors s))%nat.
Proof.
  unfold loop_cond. rewrite andb_true_iff, !Nat.ltb_lt. reflexivity.
Qed.

Lemma loop_cond_false (s : LoopState) :
  loop_cond s = false
  <-> (length (debtors s) <= dIdx s)%nat \/ (length (creditors s) <= cIdx s)%nat.
Proof.
  unfold loop_cond. rewrite andb_false_iff, !Nat.ltb_ge. reflexivity.
Qed.

(** While the condition holds both elements exist and the body is a pass. *)
Lemma loop_body_Some (s : LoopState) :
  loop_cond s = true ->
  exists d c, debtors s !! dIdx s = Some d /\ creditors s !! cIdx s = Some c
              /\ loop_body s = Some (pass s d c).
Proof.
  intros [Hd Hc]%loop_cond_true.
  destruct (lookup_lt_is_Some_2 _ _ Hd) as [d Hd'].
  destruct (lookup_lt_is_Some_2 _ _ Hc) as [c Hc'].
  exists d, c. unfold loop_body. rewrite Hd', Hc'. done.
Qed.

(** A pass moves at least one cursor, and each by at most one: the
    transfer is the whole of one of the two amounts. *)
Lemma pass_advances (s : LoopState) (d c : string * Q) :
  let s' := pass s d c in
  (dIdx s <= dIdx s' <= S (dIdx s))%nat /\ (cIdx s <= cIdx s' <= S (cIdx s))%nat
  /\ (S (dIdx s + cIdx s) <= dIdx s' + cIdx s')%nat.
Proof.
  cbn [pass dIdx cIdx snd].
  destruct (Qltb (Qabs (d.2 + Qmin (- d.2) c.2)) epsilon) eqn:Ed;
    destruct (Qltb (Qabs (c.2 - Qmin (- d.2) c.2)) epsilon) eqn:Ec; try lia.
  exfalso. pose proof epsilon_pos.
  apply abs_not_below in Ed, Ec.
  destruct (min_cases (- d.2) c.2) as [[Hm _]|[Hm _]]; lra.
Qed.

Lemma pass_lengths (s : LoopState) (d c : string * Q) :
  length (debtors (pass s d c)) = length (debtors s)
  /\ length (creditors (pass s d c)) = length (creditors s).
Proof. cbn [pass debtors creditors]. by rewrite !length_insert. Qed.

Lemma pass_passes_left (s : LoopState) (d c : string * Q) :
  loop_cond s = true -> (passes_left (pass s d c) < passes_left s)%nat.
Proof.
  intros [Hd Hc]%loop_cond_true.
  destruct (pass_advances s d c) as (H1 & H2 & H3).
  destruct (pass_lengths s d c) as [L1 L2].
  unfold passes_left. rewrite L1, L2. lia.
Qed.

(** With fuel for the passes that are left the loop runs to the end, and
    while both cursors are in range it makes fewer passes than there are
    elements left. *)
Lemma while_loop_terminates (fuel : nat) (s : LoopState) :
  (passes_left s <= fuel)%nat ->
  exists s' n, while_loop fuel s = Some (s', n) /\ loop_cond s' = false
               /\ (loop_cond s = true -> (S n <= passes_left s)%nat)
               /\ (loop_cond s = false -> n = O /\ s' = s).
Proof.
  revert s. induction fuel as [|fuel IH]; intros s Hfuel.
  - destruct (loop_cond s) eqn:Hc.
    + apply loop_cond_true in Hc. unfold passes_left in Hfuel. lia.
    + exists s, O. cbn. rewrite Hc. done.
  - destruct (loop_cond s) eqn:Hc.
    + destruct (loop_body_Some s Hc) as (d & c & Hd & Hcr & Hb).
      pose proof (pass_passes_left s d c Hc) as Hlt.
      destruct (IH (pass s d c)) as (s' & n & Hw & Hend & Hn & Hn0); [lia|].
      exists s', (S n). cbn [while_loop]. rewrite Hc, Hb, Hw.
      split_and!; [done|done| |done].
      intros _. destruct (loop_cond (pass s d c)) eqn:Hc'.
      * specialize (Hn eq_refl). lia.
      * destruct (Hn0 eq_refl) as [-> _].
        apply loop_cond_true in Hc. unfold passes_left. lia.
    + exists s, O. cbn [while_loop]. rewrite Hc. done.
Qed.

(** What holds before the loop and is kept by every pass holds after it. *)
Lemma while_loop_invariant (I : LoopState -> Prop) :
  (forall s d c, loop_cond s = true ->
     debtors s !! dIdx s = Some d -> creditors s !! cIdx s = Some c ->
     I s -> I (pass s d c)) ->
  forall fuel s s' n, I s -> while_loop fuel s = Some (s', n) -> I s'.
Proof.
  intros Hstep. induction fuel as [|fuel IH]; intros s s' n Hs; cbn [while_loop].
  - destruct (loop_cond s); [done|]. by intros [= <- _].
  - destruct (loop_cond s) eqn:Hc; [|by intros [= <- _]].
    destruct (loop_body_Some s Hc) as (d & c & Hd & Hcr & Hb). rewrite Hb.
    destruct (while_loop fuel (pass s d c)) as [[s'' m]|] eqn:Hw; [|done].
    intros [= <- _]. eapply IH; [|exact Hw]. by apply Hstep.
Qed.


(** ** Sums *)

Lemma sum_values_cons (e : string * Q) (l : list (string * Q)) :
  sum_values (e :: l) = e.2 + sum_values l.
Proof. reflexivity. Qed.

Lemma sum_values_app (l1 l2 : list (string * Q)) :
  sum_values (l1 ++ l2) == sum_values l1 + sum_values l2.
Proof.
  induction l1 as [|e l1 IH].
  - change (sum_values l2 == 0 + sum_values l2). lra.
  - change (sum_values (e :: (l1 ++ l2)) == sum_values (e :: l1) + sum_values l2).
    rewrite !sum_values_cons. lra.
Qed.

Lemma sum_values_perm (l1 l2 : list (string * Q)) :
  l1 ≡ₚ l2 -> sum_values l1 == sum_values l2.
Proof.
  induction 1 as [|x l l' _ IH|x y l|l l' l'' _ IH1 _ IH2];
    rewrite ?sum_values_cons; lra.
Qed.

Lemma sum_values_insert (l : list (string * Q)) (i : nat) (e e' : string * Q) :
  l !! i = Some e -> sum_values (<[i := e']> l) == sum_values l - e.2 + e'.2.
Proof.
  revert i. induction l as [|x l IH]; intros [|i] H; try done.
  - injection H as ->. cbn [insert list_insert]. rewrite !sum_values_cons. lra.
  - cbn [insert list_insert]. rewrite !sum_values_cons.
    fold (insert (M := list (string * Q)) i e' l).
    rewrite (IH i H). lra.
Qed.

Lemma total_paid_cons (p : SettledPayment) (l : list SettledPayment) :
  total_paid (p :: l) = pay_amount p + total_paid l.
Proof. reflexivity. Qed.

Lemma total_paid_app (l1 l2 : list SettledPayment) :
  total_paid (l1 ++ l2) == total_paid l1 + total_paid l2.
Proof.
  induction l1 as [|e l1 IH].
  - change (total_paid l2 == 0 + total_paid l2). lra.
  - change (total_paid (e :: (l1 ++ l2)) == total_paid (e :: l1) + total_paid l2).
    rewrite !total_paid_cons. lra.
Qed.

(** The elements before a cursor, after the element under it was
    rewritten and the cursor perhaps moved. *)
Lemma sum_take_insert (l : list (string * Q)) (i : nat) (e e' : string * Q) (b : bool) :
  l !! i = Some e ->
  sum_values (take (if b then S i else i) (<[i := e']> l))
  == sum_values (take i l) + (if b then e'.2 else 0).
Proof.
  intros H. destruct b.
  - rewrite (take_S_r _ _ e').
    + rewrite take_insert_ge by lia. rewrite sum_values_app.
      cbn [sum_values foldr]. lra.
    + apply list_lookup_insert_eq. by eapply lookup_lt_Some.
  - rewrite take_insert_ge by lia. lra.
Qed.


(** ** The loop: what every pass keeps *)

Lemma ltb_cursor (i k k' : nat) :
  i <> k -> (k <= k' <= S k)%nat -> (i <? k')%nat = (i <? k)%nat.
Proof.
  intros Hne Hk. destruct (Nat.ltb_spec i k'), (Nat.ltb_spec i k); lia.
Qed.

Lemma keys_insert_same (l : list (string * Q)) (i : nat) (e : string * Q) (v : Q) :
  l !! i = Some e -> (<[i := (e.1, v)]> l).*1 = l.*1.
Proof.
  intros H. rewrite list_fmap_insert. apply list_insert_id.
  by rewrite list_lookup_fmap, H.
Qed.

Lemma pass_settle_inv (D0 C0 : list (string * Q)) (s : LoopState) (d c : string * Q) :
  loop_cond s = true ->
  debtors s !! dIdx s = Some d -> creditors s !! cIdx s = Some c ->
  settle_inv D0 C0 s -> settle_inv D0 C0 (pass s d c).
Proof.
  intros Hcond Hd Hc Inv.
  pose proof epsilon_pos as Heps.
  assert (Hd2 : d.2 <= - epsilon).
  { pose proof (inv_debtors _ _ _ Inv _ _ Hd) as H.
    by rewrite Nat.ltb_irrefl in H. }
  assert (Hc2 : epsilon <= c.2).
  { pose proof (inv_creditors _ _ _ Inv _ _ Hc) as H.
    by rewrite Nat.ltb_irrefl in H. }
  apply loop_cond_true in Hcond as [Hdl Hcl].
  pose proof (sum_values_insert _ _ _ (d.1, d.2 + Qmin (- d.2) c.2) Hd) as Sd.
  pose proof (sum_values_insert _ _ _ (c.1, c.2 - Qmin (- d.2) c.2) Hc) as Sc.
  pose proof (fun b => sum_take_insert _ _ _ (d.1, d.2 + Qmin (- d.2) c.2) b Hd) as Td.
  pose proof (fun b => sum_take_insert _ _ _ (c.1, c.2 - Qmin (- d.2) c.2) b Hc) as Tc.
  pose proof (inv_moved _ _ _ Inv) as Im.
  pose proof (inv_paid _ _ _ Inv) as Ip.
  pose proof (inv_lost _ _ _ Inv) as Il.
  rewrite of_nat_add in Il.
  unfold pass. cbn [fst snd] in *.
  pose proof (min_cases (- d.2) c.2) as Ht.
  pose proof (abs_below (d.2 + Qmin (- d.2) c.2)) as Bd.
  pose proof (abs_not_below (d.2 + Qmin (- d.2) c.2)) as Nd.
  pose proof (abs_below (c.2 - Qmin (- d.2) c.2)) as Bc.
  pose proof (abs_not_below (c.2 - Qmin (- d.2) c.2)) as Nc.
  pose proof (Qltb_lt epsilon (Qmin (- d.2) c.2)) as Et.
  pose proof (Qltb_ge epsilon (Qmin (- d.2) c.2)) as Ef.
  set (t := Qmin (- d.2) c.2) in *. clearbody t.
  set (bd := Qltb (Qabs (d.2 + t)) epsilon) in *.
  set (bc := Qltb (Qabs (c.2 - t)) epsilon) in *.
  set (bt := Qltb epsilon t) in *.
  assert (Hbd : if bd then - epsilon < d.2 + t /\ d.2 + t <= 0 else d.2 + t <= - epsilon).
  { destruct bd; [destruct (proj1 Bd eq_refl)|destruct (proj1 Nd eq_refl)];
      destruct Ht as [[? ?]|[? ?]]; try split; lra. }
  assert (Hbc : if bc then 0 <= c.2 - t /\ c.2 - t < epsilon else epsilon <= c.2 - t).
  { destruct bc; [destruct (proj1 Bc eq_refl)|destruct (proj1 Nc eq_refl)];
      destruct Ht as [[? ?]|[? ?]]; try split; lra. }
  assert (Hbt : if bt then epsilon < t else t <= epsilon).
  { destruct bt; [apply Et|apply Ef]; done. }
  assert (Hadv : bd = true \/ bc = true).
  { destruct bd; [by left|]. destruct bc; [by right|].
    exfalso. destruct Ht as [[? ?]|[? ?]]; lra. }
  clear Bd Nd Bc Nc Et Ef.
  constructor; cbn [debtors creditors payments dIdx cIdx].
  - rewrite (keys_insert_same _ _ d) by done. apply Inv.
  - rewrite (keys_insert_same _ _ c) by done. apply Inv.
  - rewrite length_insert. destruct bd; lia.
  - rewrite length_insert. destruct bc; lia.
  - intros i e [(<- & <- & _)|(Hne & He)]%list_lookup_insert_Some.
    + cbn [snd]. destruct bd.
      * by rewrite (proj2 (Nat.ltb_lt _ _)) by lia.
      * by rewrite Nat.ltb_irrefl.
    + rewrite (ltb_cursor i (dIdx s)) by (try done; destruct bd; lia).
      by apply (inv_debtors _ _ _ Inv).
  - intros j e [(<- & <- & _)|(Hne & He)]%list_lookup_insert_Some.
    + cbn [snd]. destruct bc.
      * by rewrite (proj2 (Nat.ltb_lt _ _)) by lia.
      * by rewrite Nat.ltb_irrefl.
    + rewrite (ltb_cursor j (cIdx s)) by (try done; destruct bc; lia).
      by apply (inv_creditors _ _ _ Inv).
  - destruct bt; [|apply Inv].
    apply Forall_app. split; [apply Inv|]. apply Forall_singleton. cbn.
    split_and!; [done| |].
    + rewrite <- (inv_dkeys _ _ _ Inv). apply list_elem_of_fmap.
      exists d. split; [done|]. by eapply list_elem_of_lookup_2.
    + rewrite <- (inv_ckeys _ _ _ Inv). apply list_elem_of_fmap.
      exists c. split; [done|]. by eapply list_elem_of_lookup_2.
  - rewrite Sd, Sc. cbn [snd]. lra.
  - rewrite Sc. cbn [snd]. destruct bt.
    + rewrite total_paid_app. cbn. lra.
    + destruct Ht as [[? ?]|[? ?]]; lra.
  - rewrite Sc, (Td bd), (Tc bc), of_nat_add. cbn [snd].
    assert (Hp : total_paid (if bt then payments s ++ [{| from := d.1; to := c.1; pay_amount := t |}] else payments s)
                 == total_paid (payments s) + (if bt then t else 0)).
    { destruct bt; [|lra]. rewrite total_paid_app. cbn. lra. }
    rewrite Hp.
    assert (Hid : of_nat (if bd then S (dIdx s) else dIdx s)
                  == of_nat (dIdx s) + (if bd then 1 else 0)).
    { destruct bd; [apply of_nat_S|lra]. }
    assert (Hic : of_nat (if bc then S (cIdx s) else cIdx s)
                  == of_nat (cIdx s) + (if bc then 1 else 0)).
    { destruct bc; [apply of_nat_S|lra]. }
    rewrite Hid, Hic.
    destruct bd, bc, bt, Hadv as [?|?], Ht as [[? ?]|[? ?]]; try discriminate;
      repeat match goal with H : _ /\ _ |- _ => destruct H end; lra.
Qed.


(** ** The two partitions *)

Lemma elem_of_filter_bool {A} (f : A -> bool) (l : list A) (x : A) :
  x ∈ List.filter f l <-> x ∈ l /\ f x = true.
Proof. rewrite !list_elem_of_In. apply filter_In. Qed.

Lemma elem_of_debtors_of (B : JsObject.t) (e : string * Q) :
  e ∈ debtors_of B <-> e ∈ B /\ e.2 < - epsilon.
Proof.
  unfold debtors_of. rewrite array_sort_perm, elem_of_filter_bool.
  unfold is_debtor. by rewrite entries_perm, Qltb_lt.
Qed.

Lemma elem_of_creditors_of (B : JsObject.t) (e : string * Q) :
  e ∈ creditors_of B <-> e ∈ B /\ epsilon < e.2.
Proof.
  unfold creditors_of. rewrite array_sort_perm, elem_of_filter_bool.
  unfold is_creditor. by rewrite entries_perm, Qltb_lt.
Qed.

(** ** The loop as a whole *)

Lemma initial_settle_inv (B : JsObject.t) :
  settle_inv (debtors_of B) (creditors_of B) (initial_state B).
Proof.
  constructor; cbn [initial_state debtors creditors payments dIdx cIdx];
    try done; try lia.
  - intros i e He. cbn. apply list_elem_of_lookup_2, elem_of_debtors_of in He.
    destruct He as [_ He]. lra.
  - intros j e He. cbn. apply list_elem_of_lookup_2, elem_of_creditors_of in He.
    destruct He as [_ He]. lra.
  - lra.
  - change (total_paid []) with 0. lra.
  - change (total_paid []) with 0. change (of_nat (0 + 0)) with 0.
    change (sum_values (take 0 (debtors_of B))) with 0.
    change (sum_values (take 0 (creditors_of B))) with 0. lra.
Qed.

(** The loop runs to its end within its fuel; the end state has one
    cursor at the end of its list and satisfies the invariant. *)
Lemma settle_loop_end (B : JsObject.t) :
  exists s n,
    settle_loop B = Some (s, n) /\ loop_cond s = false
    /\ settle_inv (debtors_of B) (creditors_of B) s
    /\ (loop_cond (initial_state B) = true ->
        (S n <= length (debtors_of B) + length (creditors_of B))%nat)
    /\ (loop_cond (initial_state B) = false -> n = O).
Proof.
  unfold settle_loop.
  destruct (while_loop_terminates
              (length (debtors (initial_state B)) + length (creditors (initial_state B)))
              (initial_state B)) as (s & n & Hw & Hend & Hn & Hn0).
  { unfold passes_left. lia. }
  exists s, n. split_and!; [done|done| | |].
  - eapply (while_loop_invariant (settle_inv (debtors_of B) (creditors_of B)));
      [|apply initial_settle_inv|exact Hw].
    intros. by apply pass_settle_inv.
  - intros H. specialize (Hn H). unfold passes_left in Hn. cbn in Hn. lia.
  - intros H. by destruct (Hn0 H).
Qed.

(** [settledPayments] always returns: either the guard's empty list or the
    payments of the end state of the loop. *)
Lemma settledPayments_returns (ps : list Participant) (total : Q) (byP : gmap string Q) :
  exists pays,
    settledPayments ps total byP = Some pays
    /\ (((length ps < 2)%nat \/ total == 0) /\ pays = []
        \/ ((2 <= length ps)%nat /\ ~ total == 0
            /\ exists s n, settle_loop (balances ps total byP) = Some (s, n)
                           /\ pays = payments s)).
Proof.
  unfold settledPayments.
  destruct (Nat.ltb_spec (length ps) 2) as [Hl|Hl]; cbn [orb].
  - exists []. split; [done|]. left. split; [by left|done].
  - destruct (Qeq_bool total 0) eqn:Ht.
    + exists []. split; [done|]. left. split; [|done]. right. by apply Qeq_bool_eq.
    + destruct (settle_loop_end (balances ps total byP)) as (s & n & Hs & _).
      rewrite Hs. exists (payments s). split; [done|]. right.
      split_and!; [lia| |by exists s, n].
      intros H. apply Qeq_eq_bool in H. congruence.
Qed.


(** ** The guard (lines 817-818) *)

(** C3.  With fewer than two participants, or a total trip cost of zero,
    [settledPayments] returns the empty list, whatever the totals by
    participant are; in particular with a single participant. *)
Theorem settledPayments_guard (ps : list Participant) (total : Q) (byP : gmap string Q) :
  (length ps < 2)%nat \/ total == 0 -> settledPayments ps total byP = Some [].
Proof.
  intros H. unfold settledPayments.
  destruct H as [H|H].
  - apply Nat.ltb_lt in H. by rewrite H.
  - apply Qeq_eq_bool in H. rewrite H. by rewrite orb_true_r.
Qed.

Lemma settledPayments_guard_witness :
  settledPayments (people ["Alice"]) 100 (<["Alice" := 100]> ∅) = Some []
  /\ settledPayments (people ["Alice"; "Bob"]) (0 # 7) (<["Alice" := 0]> ∅) = Some [].
Proof.
  split.
  - apply (settledPayments_guard (people ["Alice"]) 100 (<["Alice" := 100]> ∅)).
    left. simpl. lia.
  - apply (settledPayments_guard (people ["Alice"; "Bob"]) (0 # 7) (<["Alice" := 0]> ∅)).
    right. reflexivity.
Defined.

(** ** The payments (lines 822-827) *)


(** The names among the debtors and the creditors are names of
    participants, with the balance line 821 gave them. *)
Lemma balances_elem_of (ps : list Participant) (total : Q) (byP : gmap string Q)
    (e : string * Q) :
  e ∈ balances ps total byP ->
  (exists q, q ∈ ps /\ name q = e.1) /\ e.2 = balance ps total byP e.1.
Proof.
  intros He. destruct e as [k v]. cbn [fst snd].
  assert (Hg : JsObject.get (balances ps total byP) k = Some v).
  { apply elem_of_get_Some; [|done]. rewrite balances_assign_all.
    apply assign_all_NoDup. constructor. }
  rewrite balances_assign_all, assign_all_get in Hg.
  destruct (decide (k ∈ name <$> ps)) as [Hin|Hin]; [|done].
  injection Hg as <-. split; [|done].
  apply list_elem_of_fmap in Hin as (q & -> & Hq). by exists q.
Qed.



(** ** The entries of [balances] (line 821) *)

Lemma balances_get (ps : list Participant) (total : Q) (byP : gmap string Q)
    (q : Participant) :
  q ∈ ps ->
  JsObject.get (balances ps total byP) (name q) = Some (balance ps total byP (name q)).
Proof.
  intros Hq. rewrite balances_assign_all, assign_all_get.
  rewrite decide_True; [done|]. apply list_elem_of_fmap. by exists q.
Qed.

Lemma balances_NoDup (ps : list Participant) (total : Q) (byP : gmap string Q) :
  NoDup (balances ps total byP).*1.
Proof. rewrite balances_assign_all. apply assign_all_NoDup. constructor. Qed.

(** ** The aggregates *)

Lemma foldl_amounts_from (a : Q) (es : list Expense) :
  foldl (fun sum exp => sum + amount exp) a es == a + totalTripCost es.
Proof.
  unfold totalTripCost. revert a. induction es as [|e es IH]; intros a.
  - cbn. lra.
  - cbn [foldl]. rewrite (IH (a + amount e)), (IH (0 + amount e)). lra.
Qed.

Lemma totalTripCost_cons (e : Expense) (es : list Expense) :
  totalTripCost (e :: es) == amount e + totalTripCost es.
Proof.
  unfold totalTripCost at 1. cbn [foldl]. rewrite foldl_amounts_from. lra.
Qed.

Lemma totalTripCost_nil : totalTripCost [] = 0.
Proof. reflexivity. Qed.

Section AddAmounts.
Context (key : Expense -> string).

Lemma add_amounts_cons (m : gmap string Q) (e : Expense) (es : list Expense) :
  add_amounts key m (e :: es)
  = add_amounts key (<[key e := or_zero (m !! key e) + amount e]> m) es.
Proof. reflexivity. Qed.

(** The keys: those there before, and the key of every expense. *)
Lemma add_amounts_dom (es : list Expense) (m : gmap string Q) :
  dom (add_amounts key m es) = dom m ∪ list_to_set (key <$> es).
Proof.
  revert m. induction es as [|e es IH]; intros m.
  - cbn. by rewrite (right_id_L ∅ (∪)).
  - rewrite add_amounts_cons, IH, dom_insert_L, fmap_cons. cbn [list_to_set].
    rewrite (comm_L (∪) {[key e]} (dom m)). by rewrite (assoc_L (∪)).
Qed.

(** The values: what was there (or zero), plus the amounts of the
    expenses with that key. *)
Lemma add_amounts_lookup (es : list Expense) (m : gmap string Q) (k : string) (v : Q) :
  add_amounts key m es !! k = Some v ->
  v == or_zero (m !! k)
       + totalTripCost (List.filter (fun e => String.eqb (key e) k) es).
Proof.
  revert m. induction es as [|e es IH]; intros m Hv.
  - cbn in Hv. rewrite Hv, or_zero_Some. cbn [List.filter].
    rewrite totalTripCost_nil. lra.
  - rewrite add_amounts_cons in Hv. apply IH in Hv. rewrite Hv.
    cbn [List.filter]. destruct (String.eqb_spec (key e) k) as [<-|Hk].
    + rewrite lookup_insert_eq, or_zero_Some, totalTripCost_cons. lra.
    + rewrite lookup_insert_ne by done. lra.
Qed.
End AddAmounts.

Lemma category_key_eqb (c c' : ExpenseCategory) :
  String.eqb (category_key c) (category_key c') = bool_decide (c = c').
Proof. destruct c, c'; reflexivity. Qed.

(** C8.  [expensesByCategory] has an entry for every category, and the
    entry is the sum of the amounts of the expenses of that category: zero
    when there is none. *)
Theorem expensesByCategory_total (es : list Expense) (c : ExpenseCategory) :
  exists v,
    expensesByCategory es !! category_key c = Some v
    /\ v == totalTripCost (List.filter (fun e => bool_decide (category e = c)) es).
Proof.
  unfold expensesByCategory.
  set (m0 := foldl (fun m cat => <[category_key cat := 0]> m) ∅ CATEGORIES).
  assert (H0 : m0 !! category_key c = Some 0) by (destruct c; reflexivity).
  assert (Hin : category_key c
                ∈ dom (add_amounts (fun e => category_key (category e)) m0 es)).
  { rewrite add_amounts_dom. apply elem_of_union_l, elem_of_dom. by eexists. }
  apply elem_of_dom in Hin as [v Hv]. exists v. split; [done|].
  apply add_amounts_lookup in Hv. rewrite Hv, H0.
  rewrite (filter_ext _ (fun e => bool_decide (category e = c))).
  - change (or_zero (Some 0)) with 0. lra.
  - intros e. apply category_key_eqb.
Qed.


(** The object of line 813: every participant at zero. *)
Lemma zeroed_lookup (ps : list Participant) (m : gmap string Q) (k : string) :
  foldl (fun m p => <[name p := 0]> m) m ps !! k
  = if decide (k ∈ name <$> ps) then Some 0 else m !! k.
Proof.
  revert m. induction ps as [|p ps IH]; intros m.
  - rewrite decide_False; [done|]. apply not_elem_of_nil.
  - cbn [foldl]. rewrite IH, fmap_cons.
    destruct (decide (k ∈ name <$> ps)) as [Hin|Hin].
    + rewrite decide_True; [done|]. by apply list_elem_of_further.
    + destruct (decide (name p = k)) as [<-|Hk].
      * rewrite lookup_insert_eq, decide_True; [done|]. apply list_elem_of_here.
      * rewrite lookup_insert_ne by done. rewrite decide_False; [done|].
        intros [?|?]%elem_of_cons; congruence.
Qed.

Lemma zeroed_dom (ps : list Participant) :
  dom (foldl (fun m p => <[name p := 0]> m) (∅ : gmap string Q) ps)
  = list_to_set (name <$> ps).
Proof.
  apply set_eq. intros k. rewrite elem_of_dom, zeroed_lookup, elem_of_list_to_set.
  destruct (decide (k ∈ name <$> ps)) as [Hin|Hin].
  - split; [done|]. by eexists.
  - rewrite lookup_empty. split; [by intros [? ?]|done].
Qed.

(** The entry of a name: the amounts of the expenses that name paid. *)
Lemma expensesByParticipant_lookup (ps : list Participant) (es : list Expense)
    (k : string) (v : Q) :
  expensesByParticipant ps es !! k = Some v ->
  v == totalTripCost (List.filter (fun e => String.eqb (paidBy e) k) es).
Proof.
  intros Hv. apply add_amounts_lookup in Hv. rewrite Hv, zeroed_lookup.
  destruct (decide (k ∈ name <$> ps)).
  - change (or_zero (Some 0)) with 0. lra.
  - rewrite lookup_empty. change (or_zero None) with 0. lra.
Qed.

Lemma expensesByParticipant_dom (ps : list Participant) (es : list Expense) :
  dom (expensesByParticipant ps es)
  = list_to_set (name <$> ps) ∪ list_to_set (paidBy <$> es).
Proof.
  unfold expensesByParticipant. by rewrite add_amounts_dom, zeroed_dom.
Qed.

(** ** The balances add up *)

Lemma sum_over_cons (q : Participant) (ps : list Participant) (f : string -> Q) :
  sum_over (q :: ps) f = f (name q) + sum_over ps f.
Proof. reflexivity. Qed.

Lemma sum_over_ext (ps : list Participant) (f g : string -> Q) :
  Forall (fun q => f (name q) == g (name q)) ps -> sum_over ps f == sum_over ps g.
Proof.
  induction 1 as [|q ps Hq _ IH]; [reflexivity|].
  rewrite !sum_over_cons. lra.
Qed.

Lemma sum_over_sub_const (ps : list Participant) (f : string -> Q) (c : Q) :
  sum_over ps (fun k => f k - c) == sum_over ps f - of_nat (length ps) * c.
Proof.
  induction ps as [|q ps IH].
  - change (0 == 0 - 0 * c). lra.
  - rewrite !sum_over_cons, IH. cbn [length]. rewrite of_nat_S. lra.
Qed.

Lemma totalTripCost_filter_split (h f g : Expense -> bool) (es : list Expense) :
  (forall e, h e = f e || g e) -> (forall e, f e && g e = false) ->
  totalTripCost (List.filter h es)
  == totalTripCost (List.filter f es) + totalTripCost (List.filter g es).
Proof.
  intros Hh Hfg. induction es as [|e es IH].
  - cbn [List.filter]. rewrite totalTripCost_nil. lra.
  - cbn [List.filter]. rewrite Hh. specialize (Hfg e).
    destruct (f e), (g e); try discriminate; cbn [orb];
      rewrite ?totalTripCost_cons; lra.
Qed.

Lemma totalTripCost_filter_none (f : Expense -> bool) (es : list Expense) :
  (forall e, f e = false) -> totalTripCost (List.filter f es) == 0.
Proof.
  intros Hf. induction es as [|e es IH]; cbn [List.filter].
  - rewrite totalTripCost_nil. lra.
  - by rewrite Hf.
Qed.

Lemma filter_all {A} (f : A -> bool) (l : list A) :
  Forall (fun x => f x = true) l -> List.filter f l = l.
Proof.
  induction 1 as [|x l Hx _ IH]; [done|]. cbn. by rewrite Hx, IH.
Qed.

(** What the participants paid, name by name, is what was paid by a
    participant, when no name occurs twice. *)
Lemma paid_by_names (ps : list Participant) (es : list Expense) :
  NoDup (name <$> ps) ->
  sum_over ps (fun k => totalTripCost (List.filter (fun e => String.eqb (paidBy e) k) es))
  == totalTripCost (List.filter (fun e => bool_decide (paidBy e ∈ name <$> ps)) es).
Proof.
  induction ps as [|q ps IH]; intros Hnd.
  - change (sum_over [] _) with 0. symmetry. apply totalTripCost_filter_none.
    intros e. apply bool_decide_eq_false, not_elem_of_nil.
  - rewrite fmap_cons in Hnd. apply NoDup_cons in Hnd as [Hq Hnd].
    rewrite sum_over_cons, (IH Hnd). symmetry.
    apply totalTripCost_filter_split.
    + intros e. rewrite fmap_cons.
      destruct (String.eqb_spec (paidBy e) (name q)) as [->|Hne]; cbn [orb].
      * apply bool_decide_eq_true, list_elem_of_here.
      * apply bool_decide_ext. rewrite elem_of_cons.
        split; [by intros [?|?]|by right].
    + intros e. destruct (String.eqb_spec (paidBy e) (name q)) as [->|Hne]; [|done].
      cbn [andb]. by apply bool_decide_eq_false.
Qed.

Lemma sum_of_totals (ps : list Participant) (es : list Expense) :
  NoDup (name <$> ps) ->
  sum_over ps (fun k => or_zero (expensesByParticipant ps es !! k))
  == totalTripCost (List.filter (fun e => bool_decide (paidBy e ∈ name <$> ps)) es).
Proof.
  intros Hnd. rewrite <- (paid_by_names ps es Hnd).
  apply sum_over_ext, Forall_forall. intros q Hq.
  assert (Hin : name q ∈ dom (expensesByParticipant ps es)).
  { rewrite expensesByParticipant_dom, elem_of_union, !elem_of_list_to_set.
    left. apply list_elem_of_fmap. by exists q. }
  apply elem_of_dom in Hin as [v Hv]. rewrite Hv, or_zero_Some.
  by eapply expensesByParticipant_lookup.
Qed.

Lemma sum_of_balances (ps : list Participant) (total : Q) (byP : gmap string Q) :
  ps <> [] ->
  sum_over ps (balance ps total byP)
  == sum_over ps (fun k => or_zero (byP !! k)) - total.
Proof.
  intros Hps. unfold balance. rewrite sum_over_sub_const.
  unfold avgCost, length_number.
  assert (Hn : ~ of_nat (length ps) == 0).
  { destruct ps as [|q ps]; [done|]. cbn [length]. rewrite of_nat_S.
    pose proof (of_nat_nonneg (length ps)). lra. }
  field. exact Hn.
Qed.

(** ** Conservation *)

Lemma pos_sum_cons (e : string * Q) (l : list (string * Q)) :
  pos_sum (e :: l) = Qmax 0 e.2 + pos_sum l.
Proof. reflexivity. Qed.

Lemma pos_sum_perm (l1 l2 : list (string * Q)) :
  l1 ≡ₚ l2 -> pos_sum l1 == pos_sum l2.
Proof.
  induction 1 as [|x l l' _ IH|x y l|l l' l'' _ IH1 _ IH2];
    rewrite ?pos_sum_cons; lra.
Qed.

Lemma max0_cases (x : Q) :
  (0 <= x /\ Qmax 0 x == x) \/ (x <= 0 /\ Qmax 0 x == 0).
Proof.
  destruct (Q.max_spec 0 x) as [[H1 H2]|[H1 H2]]; [left|right]; split; auto; lra.
Qed.

Lemma sum_values_nonneg (l : list (string * Q)) :
  Forall (fun e => 0 <= e.2) l -> 0 <= sum_values l.
Proof.
  induction 1 as [|e l He _ IH]; [apply Qle_refl|].
  rewrite sum_values_cons. lra.
Qed.

Lemma sum_values_nonpos (l : list (string * Q)) :
  Forall (fun e => e.2 <= 0) l -> sum_values l <= 0.
Proof.
  induction 1 as [|e l He _ IH]; [apply Qle_refl|].
  rewrite sum_values_cons. lra.
Qed.

Section Partition.
(** The creditors hold no more than the credit owed. *)
Lemma creditors_below_credit (l : list (string * Q)) :
  sum_values (List.filter is_creditor l) <= pos_sum l.
Proof.
  induction l as [|e l IH]; [apply Qle_refl|].
  cbn [List.filter]. rewrite pos_sum_cons.
  change (is_creditor e) with (Qltb epsilon e.2).
  pose proof epsilon_pos. destruct (max0_cases e.2) as [[? ?]|[? ?]];
    destruct (Qltb epsilon e.2); rewrite ?sum_values_cons; lra.
Qed.

(** The credit the creditors do not hold is at most [epsilon] for every
    entry that is neither a debtor nor a creditor. *)
Lemma credit_outside_creditors (l : list (string * Q)) :
  pos_sum l
  + epsilon * (of_nat (length (List.filter is_debtor l))
               + of_nat (length (List.filter is_creditor l)))
  <= sum_values (List.filter is_creditor l) + epsilon * of_nat (length l).
Proof.
  induction l as [|e l IH].
  - cbn [List.filter length]. change (of_nat 0) with 0.
    change (pos_sum []) with 0. change (sum_values []) with 0. lra.
  - cbn [List.filter length]. rewrite pos_sum_cons, of_nat_S.
    change (is_creditor e) with (Qltb epsilon e.2).
    change (is_debtor e) with (Qltb e.2 (- epsilon)). pose proof epsilon_pos.
    destruct (Qltb e.2 (- epsilon)) eqn:Ed; destruct (Qltb epsilon e.2) eqn:Ec;
      [apply Qltb_lt in Ed|apply Qltb_lt in Ed|apply Qltb_ge in Ed|apply Qltb_ge in Ed];
      [apply Qltb_lt in Ec|apply Qltb_ge in Ec|apply Qltb_lt in Ec|apply Qltb_ge in Ec];
      cbn [length]; rewrite ?sum_values_cons, ?of_nat_S;
      destruct (max0_cases e.2) as [[? ?]|[? ?]]; lra.
Qed.

(** The same, seen from the debtors. *)
Lemma credit_against_debtors (l : list (string * Q)) :
  pos_sum l + sum_values (List.filter is_debtor l)
  + epsilon * (of_nat (length (List.filter is_debtor l))
               + of_nat (length (List.filter is_creditor l)))
  <= sum_values l + epsilon * of_nat (length l).
Proof.
  induction l as [|e l IH].
  - cbn [List.filter length]. change (of_nat 0) with 0.
    change (pos_sum []) with 0. change (sum_values []) with 0. lra.
  - cbn [List.filter length]. rewrite pos_sum_cons, of_nat_S, (sum_values_cons e l).
    change (is_creditor e) with (Qltb epsilon e.2).
    change (is_debtor e) with (Qltb e.2 (- epsilon)). pose proof epsilon_pos.
    destruct (Qltb e.2 (- epsilon)) eqn:Ed; destruct (Qltb epsilon e.2) eqn:Ec;
      [apply Qltb_lt in Ed|apply Qltb_lt in Ed|apply Qltb_ge in Ed|apply Qltb_ge in Ed];
      [apply Qltb_lt in Ec|apply Qltb_ge in Ec|apply Qltb_lt in Ec|apply Qltb_ge in Ec];
      cbn [length]; rewrite ?sum_values_cons, ?of_nat_S;
      destruct (max0_cases e.2) as [[? ?]|[? ?]]; lra.
Qed.
End Partition.


(** What the loop pays, against the credit owed: never more, and less by
    at most [epsilon] for every entry of the balances, provided the
    balances do not add up to more than zero. *)
Lemma settle_loop_conserves (B : JsObject.t) (s : LoopState) (n : nat) :
  settle_loop B = Some (s, n) -> sum_values B <= 0 ->
  total_paid (payments s) <= pos_sum B
  /\ pos_sum B - total_paid (payments s) <= epsilon * of_nat (length B).
Proof.
  intros Hs Hsum.
  destruct (settle_loop_end B) as (s' & n' & Hs' & Hend & Inv & _).
  rewrite Hs in Hs'. injection Hs' as <- <-.
  pose proof (entries_perm B) as Hl.
  pose proof (array_sort_perm (fun a b : string * Q => a.2 - b.2)
                (List.filter is_debtor (JsObject.entries B))) as HD.
  pose proof (array_sort_perm (fun a b : string * Q => b.2 - a.2)
                (List.filter is_creditor (JsObject.entries B))) as HC.
  fold (debtors_of B) in HD. fold (creditors_of B) in HC.
  pose proof (sum_values_perm _ _ HD) as SD. pose proof (sum_values_perm _ _ HC) as SC.
  pose proof (Permutation_length HD) as LD. pose proof (Permutation_length HC) as LC.
  pose proof (creditors_below_credit (JsObject.entries B)) as P0.
  pose proof (credit_outside_creditors (JsObject.entries B)) as P1.
  pose proof (credit_against_debtors (JsObject.entries B)) as P2.
  rewrite <- LD, <- LC in P1, P2. rewrite <- SC in P0, P1. rewrite <- SD in P2.
  rewrite (pos_sum_perm _ _ Hl) in P0, P1, P2.
  rewrite (sum_values_perm _ _ Hl) in P2. rewrite (Permutation_length Hl) in P1, P2.
  clear HD HC SD SC LD LC Hl.
  pose proof (inv_moved _ _ _ Inv) as Im.
  pose proof (inv_paid _ _ _ Inv) as Ip.
  pose proof (inv_lost _ _ _ Inv) as Il.
  assert (Hcr : 0 <= sum_values (creditors s)).
  { apply sum_values_nonneg, Forall_forall. intros e [j He]%list_elem_of_lookup_1.
    pose proof (inv_creditors _ _ _ Inv j e He) as H. pose proof epsilon_pos.
    destruct (j <? cIdx s)%nat; lra. }
  assert (Htd : sum_values (take (dIdx s) (debtors s)) <= 0).
  { apply sum_values_nonpos, Forall_forall. intros e [i He]%list_elem_of_lookup_1.
    apply lookup_take_Some in He as [He Hi].
    pose proof (inv_debtors _ _ _ Inv i e He) as H.
    rewrite (proj2 (Nat.ltb_lt _ _) Hi) in H. lra. }
  assert (Htc : 0 <= sum_values (take (cIdx s) (creditors s))).
  { apply sum_values_nonneg, Forall_forall. intros e [j He]%list_elem_of_lookup_1.
    apply lookup_take_Some in He as [He Hj].
    pose proof (inv_creditors _ _ _ Inv j e He) as H.
    rewrite (proj2 (Nat.ltb_lt _ _) Hj) in H. lra. }
  assert (HlenD : length (debtors s) = length (debtors_of B)).
  { rewrite <- (length_fmap fst (debtors s)), (inv_dkeys _ _ _ Inv). apply length_fmap. }
  assert (HlenC : length (creditors s) = length (creditors_of B)).
  { rewrite <- (length_fmap fst (creditors s)), (inv_ckeys _ _ _ Inv). apply length_fmap. }
  assert (Hidx : of_nat (dIdx s + cIdx s) * epsilon
                 <= epsilon * (of_nat (length (debtors_of B))
                               + of_nat (length (creditors_of B)))).
  { rewrite <- of_nat_add, (Qmult_comm epsilon).
    apply Qmult_le_compat_r; [|apply Qlt_le_weak, epsilon_pos].
    apply of_nat_le. pose proof (inv_dIdx _ _ _ Inv). pose proof (inv_cIdx _ _ _ Inv). lia. }
  split; [lra|].
  apply loop_cond_false in Hend as [Hd|Hc].
  - rewrite (take_ge (debtors s)) in Il by done. lra.
  - rewrite (take_ge (creditors s)) in Il by done. lra.
Qed.


Lemma totalTripCost_filter_le (f : Expense -> bool) (es : list Expense) :
  Forall (fun e => 0 <= amount e) es ->
  0 <= totalTripCost (List.filter f es)
  /\ totalTripCost (List.filter f es) <= totalTripCost es.
Proof.
  induction 1 as [|e es He _ IH]; cbn [List.filter].
  - rewrite totalTripCost_nil. lra.
  - destruct (f e); rewrite ?totalTripCost_cons; lra.
Qed.

(** With pairwise distinct names the balances object lists every
    participant once, with the balance of line 821. *)
Lemma balances_distinct (ps : list Participant) (total : Q) (byP : gmap string Q) :
  NoDup (name <$> ps) ->
  balances ps total byP
  = (fun p => (name p, balance ps total byP (name p))) <$> ps.
Proof.
  intros Hnd. rewrite balances_assign_all, assign_all_fresh; [done|done|].
  intros k _. apply not_elem_of_nil.
Qed.

Lemma sums_of_entries (ps : list Participant) (f : string -> Q) :
  let l := (fun p => (name p, f (name p))) <$> ps in
  sum_values l = sum_over ps f
  /\ pos_sum l = sum_over ps (fun k => Qmax 0 (f k))
  /\ length l = length ps.
Proof.
  induction ps as [|q ps (IH1 & IH2 & IH3)]; [done|].
  cbn zeta in *. rewrite fmap_cons, sum_values_cons, pos_sum_cons, !sum_over_cons.
  cbn [snd length]. by rewrite IH1, IH2, IH3.
Qed.

(** The balances of a trip do not add up to more than zero when no two
    participants have the same name and no amount is negative. *)
Lemma balances_of_expenses_nonpos (ps : list Participant) (es : list Expense) :
  NoDup (name <$> ps) -> Forall (fun e => 0 <= amount e) es -> ps <> [] ->
  sum_over ps (balance ps (totalTripCost es) (expensesByParticipant ps es)) <= 0.
Proof.
  intros Hnd Hpos Hps. rewrite sum_of_balances, sum_of_totals by done.
  destruct (totalTripCost_filter_le
              (fun e => bool_decide (paidBy e ∈ name <$> ps)) es Hpos) as [_ Hle].
  lra.
Qed.

(** Conservation on the own numeric properties.  For participants with
    pairwise distinct names, a total and totals by participant that pass
    the guard, and balances that do not add up to more than zero (as in
    [balances_of_expenses_nonpos]), the payments returned add up to no
    more than the credit owed, the sum over the participants of
    [max(0, balance)], and to no less than that sum minus [epsilon] times
    the number of participants. *)
Lemma conservation_own (ps : list Participant) (total : Q)
    (byP : gmap string Q) :
  NoDup (name <$> ps) ->
  (2 <= length ps)%nat ->
  ~ total == 0 ->
  sum_over ps (balance ps total byP) <= 0 ->
  let owed := sum_over ps (fun k => Qmax 0 (balance ps total byP k)) in
  exists pays,
    settledPayments ps total byP = Some pays
    /\ total_paid pays <= owed
    /\ owed - total_paid pays <= epsilon * length_number ps.
Proof.
  intros Hnd Hlen Htot Hbal owed.
  destruct (settledPayments_returns ps total byP) as (pays & Hp & Hcase).
  exists pays. split; [exact Hp|].
  destruct Hcase as [[[Hl|Hz] _]|(_ & _ & s & n & Hs & ->)]; [lia|done|].
  destruct (sums_of_entries ps (balance ps total byP)) as (E1 & E2 & E3).
  cbn zeta in E1, E2, E3. rewrite <- balances_distinct in E1, E2, E3 by done.
  assert (Hsum : sum_values (balances ps total byP) <= 0) by (by rewrite E1).
  destruct (settle_loop_conserves _ _ _ Hs Hsum) as [Hup Hlow].
  rewrite E2 in Hup, Hlow. rewrite E3 in Hlow. fold owed in Hup, Hlow.
  split; [exact Hup|exact Hlow].
Qed.

(** Why the names must be distinct: "Ana, Ana" is one key of the balances
    object and two participants in the count. *)
Remark duplicate_names_unbalanced :
  let ps := people ["Ana"; "Ana"] in
  let es := [expense_by "Ana" 100 COMIDA] in
  settledPayments_of ps es = Some []
  /\ sum_over ps (balance ps (totalTripCost es) (expensesByParticipant ps es)) == 100.
Proof. split; vm_compute; reflexivity. Qed.

(** ** The scenarios of the specification *)

(** Scenario A: Alice paid 100, Bob nothing. *)
Example scenario_A :
  exists pays,
    settledPayments_of (people ["Alice"; "Bob"]) [expense_by "Alice" 100 COMIDA]
    = Some pays
    /\ Forall2 payment_eq pays [{| from := "Bob"; to := "Alice"; pay_amount := 50 |}].
Proof.
  eexists. split; [vm_compute; reflexivity|].
  repeat constructor.
Qed.

(** Scenario B: the two debtors tie and keep the order of the participants. *)
Example scenario_B :
  exists pays,
    settledPayments_of (people ["Alice"; "Bob"; "Carol"]) [expense_by "Alice" 90 COMIDA]
    = Some pays
    /\ Forall2 payment_eq pays
         [{| from := "Bob"; to := "Alice"; pay_amount := 30 |};
          {| from := "Carol"; to := "Alice"; pay_amount := 30 |}].
Proof.
  eexists. split; [vm_compute; reflexivity|].
  repeat constructor.
Qed.

(** Scenario C: everybody paid the average. *)
Example scenario_C :
  settledPayments_of (people ["Alice"; "Bob"])
    [expense_by "Alice" 50 COMIDA; expense_by "Bob" 50 COMPRAS]
  = Some [].
Proof. vm_compute. reflexivity. Qed.

(** Scenario E: no expenses. *)
Example scenario_E :
  settledPayments_of (people ["Alice"; "Bob"]) [] = Some []
  /\ expensesByParticipant (people ["Alice"; "Bob"]) [] !! "Bob" = Some 0
  /\ expensesByCategory [] !! category_key OTROS = Some 0.
Proof. split_and!; vm_compute; reflexivity. Qed.

(** Array-index names come first in [Object.entries], in numeric order. *)
Example entries_order :
  JsObject.entries
    (JsObject.set (JsObject.set (JsObject.set (JsObject.set JsObject.empty "b" 1) "10" 2) "a" 3) "2" 4)
  = [("2", 4); ("10", 2); ("b", 1); ("a", 3)].
Proof. reflexivity. Qed.

(** ** More on the settlement (lines 817-833) *)

(** A pass adds at most one payment and never removes one. *)
Lemma while_loop_payments_length (fuel : nat) (s s' : LoopState) (n : nat) :
  while_loop fuel s = Some (s', n) ->
  (length (payments s) <= length (payments s') <= length (payments s) + n)%nat.
Proof.
  revert s s' n. induction fuel as [|fuel IH]; intros s s' n; cbn [while_loop].
  - destruct (loop_cond s); [done|]. intros [= <- <-]. lia.
  - destruct (loop_cond s) eqn:Hc; [|intros [= <- <-]; lia].
    destruct (loop_body_Some s Hc) as (d & c & _ & _ & Hb). rewrite Hb.
    destruct (while_loop fuel (pass s d c)) as [[s'' m]|] eqn:Hw; [|done].
    intros [= <- <-]. apply IH in Hw. revert Hw. cbn [pass payments].
    destruct (Qltb epsilon (Qmin (- d.2) c.2)); rewrite ?length_app; cbn [length]; lia.
Qed.

(** Nobody is both a debtor and a creditor. *)
Lemma partition_lengths (l : list (string * Q)) :
  (length (List.filter is_debtor l) + length (List.filter is_creditor l)
   <= length l)%nat.
Proof.
  induction l as [|e l IH]; [done|]. cbn [List.filter length].
  destruct (is_debtor e) eqn:Ed; destruct (is_creditor e) eqn:Ec; cbn [length]; try lia.
  exfalso. apply Qltb_lt in Ed, Ec. pose proof epsilon_pos. lra.
Qed.

Lemma partitions_in_balances (B : JsObject.t) :
  (length (debtors_of B) + length (creditors_of B) <= length B)%nat.
Proof.
  unfold debtors_of, creditors_of.
  rewrite !(Permutation_length (array_sort_perm _ _)).
  rewrite <- (Permutation_length (entries_perm B)). apply partition_lengths.
Qed.

Lemma balances_length (ps : list Participant) (total : Q) (byP : gmap string Q) :
  (length (balances ps total byP) <= length ps)%nat.
Proof.
  rewrite balances_assign_all.
  pose proof (assign_all_length (balance ps total byP) ps JsObject.empty) as H.
  cbn in H. exact H.
Qed.

Lemma while_loop_stops (fuel : nat) (s : LoopState) :
  loop_cond s = false -> while_loop fuel s = Some (s, O).
Proof. intros H. destruct fuel; cbn [while_loop]; by rewrite H. Qed.

(** There is no debtor exactly when no participant's balance is below
    [- epsilon], and no creditor exactly when none is above [epsilon]. *)
Lemma debtors_of_nil (ps : list Participant) (total : Q) (byP : gmap string Q) :
  debtors_of (balances ps total byP) = []
  <-> Forall (fun q => - epsilon <= balance ps total byP (name q)) ps.
Proof.
  split.
  - intros Hnil. apply Forall_forall. intros q Hq.
    destruct (Qlt_le_dec (balance ps total byP (name q)) (- epsilon)) as [Hlt|]; [|done].
    exfalso.
    assert (Hin : (name q, balance ps total byP (name q)) ∈ debtors_of (balances ps total byP)).
    { apply elem_of_debtors_of. split; [|done].
      by apply get_Some_elem_of, balances_get. }
    rewrite Hnil in Hin. by apply not_elem_of_nil in Hin.
  - intros Hall. destruct (debtors_of (balances ps total byP)) as [|e l] eqn:E; [done|].
    exfalso.
    assert (Hin : e ∈ debtors_of (balances ps total byP)) by (rewrite E; apply list_elem_of_here).
    apply elem_of_debtors_of in Hin as [Hin Hlt].
    apply balances_elem_of in Hin as [(q & Hq & Hn) Hv].
    rewrite Forall_forall in Hall. specialize (Hall q Hq).
    rewrite Hn, <- Hv in Hall. lra.
Qed.

Lemma creditors_of_nil (ps : list Participant) (total : Q) (byP : gmap string Q) :
  creditors_of (balances ps total byP) = []
  <-> Forall (fun q => balance ps total byP (name q) <= epsilon) ps.
Proof.
  split.
  - intros Hnil. apply Forall_forall. intros q Hq.
    destruct (Qlt_le_dec epsilon (balance ps total byP (name q))) as [Hlt|]; [|done].
    exfalso.
    assert (Hin : (name q, balance ps total byP (name q)) ∈ creditors_of (balances ps total byP)).
    { apply elem_of_creditors_of. split; [|done].
      by apply get_Some_elem_of, balances_get. }
    rewrite Hnil in Hin. by apply not_elem_of_nil in Hin.
  - intros Hall. destruct (creditors_of (balances ps total byP)) as [|e l] eqn:E; [done|].
    exfalso.
    assert (Hin : e ∈ creditors_of (balances ps total byP)) by (rewrite E; apply list_elem_of_here).
    apply elem_of_creditors_of in Hin as [Hin Hlt].
    apply balances_elem_of in Hin as [(q & Hq & Hn) Hv].
    rewrite Forall_forall in Hall. specialize (Hall q Hq).
    rewrite Hn, <- Hv in Hall. lra.
Qed.

(** The loop pays nothing exactly when there is no debtor or no creditor:
    the first pass always pays. *)
Lemma settle_loop_pays_nothing (B : JsObject.t) (s : LoopState) (n : nat) :
  settle_loop B = Some (s, n) ->
  payments s = [] <-> debtors_of B = [] \/ creditors_of B = [].
Proof.
  intros Hs. split.
  - intros Hnil.
    destruct (debtors_of B) as [|d0 D] eqn:ED; [by left|].
    destruct (creditors_of B) as [|c0 C] eqn:EC; [by right|]. exfalso.
    assert (Hd : d0.2 < - epsilon).
    { apply (elem_of_debtors_of B). rewrite ED. apply list_elem_of_here. }
    assert (Hc : epsilon < c0.2).
    { apply (elem_of_creditors_of B). rewrite EC. apply list_elem_of_here. }
    unfold settle_loop, initial_state in Hs. rewrite ED, EC in Hs.
    cbn [debtors creditors length Nat.add while_loop loop_cond dIdx cIdx
         Nat.ltb Nat.leb andb loop_body lookup list_lookup] in Hs.
    destruct (while_loop _ _) as [[s'' m]|] eqn:Hw; [|done].
    injection Hs as -> _.
    apply while_loop_payments_length in Hw as [Hle _].
    rewrite Hnil in Hle. revert Hle. cbn [pass payments].
    assert (Ht : Qltb epsilon (Qmin (- d0.2) c0.2) = true).
    { apply Qltb_lt. destruct (min_cases (- d0.2) c0.2) as [[-> _]|[-> _]]; lra. }
    rewrite Ht. cbn. lia.
  - intros Hnil.
    assert (Hc : loop_cond (initial_state B) = false).
    { apply loop_cond_false. cbn. destruct Hnil as [->| ->]; cbn; lia. }
    unfold settle_loop in Hs. rewrite (while_loop_stops _ _ Hc) in Hs.
    by injection Hs as <- _.
Qed.

(** On the own numeric properties, the settlement is empty exactly when
    the guard applies, or no participant's balance is below [- epsilon],
    or none is above [epsilon]. *)
Lemma empty_iff_own (ps : list Participant) (total : Q)
    (byP : gmap string Q) :
  exists pays,
    settledPayments ps total byP = Some pays
    /\ (pays = []
        <-> (length ps < 2)%nat \/ total == 0
            \/ Forall (fun q => - epsilon <= balance ps total byP (name q)) ps
            \/ Forall (fun q => balance ps total byP (name q) <= epsilon) ps).
Proof.
  destruct (settledPayments_returns ps total byP) as (pays & Hp & Hcase).
  exists pays. split; [done|].
  destruct Hcase as [[Hg ->]|(Hlen & Htot & s & n & Hs & ->)].
  - split; [|done]. intros _. destruct Hg; auto.
  - rewrite (settle_loop_pays_nothing _ _ _ Hs), debtors_of_nil, creditors_of_nil.
    split; [tauto|]. intros [H|[H|H]]; [lia|done|done].
Qed.

(** ** Nobody pays more than they owe *)

Lemma paid_by_cons (p : SettledPayment) (pays : list SettledPayment) (k : string) :
  paid_by (p :: pays) k
  = (if String.eqb (from p) k then pay_amount p else 0) + paid_by pays k.
Proof. reflexivity. Qed.

Lemma received_by_cons (p : SettledPayment) (pays : list SettledPayment) (k : string) :
  received_by (p :: pays) k
  = (if String.eqb (to p) k then pay_amount p else 0) + received_by pays k.
Proof. reflexivity. Qed.

Lemma paid_by_snoc (pays : list SettledPayment) (p : SettledPayment) (k : string) :
  paid_by (pays ++ [p]) k
  == paid_by pays k + (if String.eqb (from p) k then pay_amount p else 0).
Proof.
  induction pays as [|p0 pays IH].
  - change (paid_by ([] ++ [p]) k) with (paid_by [p] k).
    rewrite paid_by_cons. change (paid_by [] k) with 0. lra.
  - change ((p0 :: pays) ++ [p]) with (p0 :: (pays ++ [p])).
    rewrite !paid_by_cons, IH. lra.
Qed.

Lemma received_by_snoc (pays : list SettledPayment) (p : SettledPayment) (k : string) :
  received_by (pays ++ [p]) k
  == received_by pays k + (if String.eqb (to p) k then pay_amount p else 0).
Proof.
  induction pays as [|p0 pays IH].
  - change (received_by ([] ++ [p]) k) with (received_by [p] k).
    rewrite received_by_cons. change (received_by [] k) with 0. lra.
  - change ((p0 :: pays) ++ [p]) with (p0 :: (pays ++ [p])).
    rewrite !received_by_cons, IH. lra.
Qed.

Lemma paid_by_bounds (pays : list SettledPayment) (k : string) :
  Forall (fun p => 0 <= pay_amount p) pays ->
  0 <= paid_by pays k /\ 0 <= received_by pays k.
Proof.
  induction 1 as [|p pays Hp _ [IH1 IH2]].
  - change (paid_by [] k) with 0. change (received_by [] k) with 0. lra.
  - rewrite paid_by_cons, received_by_cons.
    destruct (String.eqb (from p) k), (String.eqb (to p) k); lra.
Qed.

Lemma paid_by_none (pays : list SettledPayment) (k : string) :
  Forall (fun p => from p <> k) pays -> paid_by pays k == 0.
Proof.
  induction 1 as [|p pays Hp _ IH]; [reflexivity|].
  rewrite paid_by_cons, IH. destruct (String.eqb_spec (from p) k); [done|lra].
Qed.

Lemma received_by_none (pays : list SettledPayment) (k : string) :
  Forall (fun p => to p <> k) pays -> received_by pays k == 0.
Proof.
  induction 1 as [|p pays Hp _ IH]; [reflexivity|].
  rewrite received_by_cons, IH. destruct (String.eqb_spec (to p) k); [done|lra].
Qed.

(** The balance after the payments: the balance, plus what was paid,
    minus what was received. *)
Lemma balance_after_ledger (bal : string -> Q) (pays : list SettledPayment) (k : string) :
  balance_after bal pays k == bal k + paid_by pays k - received_by pays k.
Proof.
  unfold balance_after. generalize (bal k) as b.
  induction pays as [|p pays IH]; intros b.
  - change (paid_by [] k) with 0. change (received_by [] k) with 0. cbn [foldl]. lra.
  - cbn [foldl]. rewrite IH, paid_by_cons, received_by_cons.
    destruct (String.eqb (from p) k), (String.eqb (to p) k); lra.
Qed.

(** Two positions of a list without repeated names that hold the same
    name are the same position. *)
Lemma keys_NoDup_lookup (l : list (string * Q)) (i j : nat) (e e' : string * Q) :
  NoDup l.*1 -> l !! i = Some e -> l !! j = Some e' -> e.1 = e'.1 -> i = j.
Proof.
  intros Hnd Hi Hj Heq. eapply NoDup_lookup; [exact Hnd| |].
  - by rewrite list_lookup_fmap, Hi.
  - rewrite list_lookup_fmap, Hj. cbn. by rewrite Heq.
Qed.

Lemma keys_lookup (l l0 : list (string * Q)) (i : nat) (e e0 : string * Q) :
  l.*1 = l0.*1 -> l !! i = Some e -> l0 !! i = Some e0 -> e.1 = e0.1.
Proof.
  intros Hk Hi H0.
  assert (H : l.*1 !! i = l0.*1 !! i) by (by rewrite Hk).
  rewrite !list_lookup_fmap, Hi, H0 in H. by injection H.
Qed.

Lemma pass_ledger_inv (D0 C0 : list (string * Q)) (s : LoopState) (d c : string * Q) :
  NoDup D0.*1 -> NoDup C0.*1 ->
  loop_cond s = true ->
  debtors s !! dIdx s = Some d -> creditors s !! cIdx s = Some c ->
  settle_inv D0 C0 s -> ledger_inv D0 C0 s -> ledger_inv D0 C0 (pass s d c).
Proof.
  intros HndD HndC Hcond Hd Hc Inv Led.
  pose proof epsilon_pos as Heps.
  assert (Hd2 : d.2 <= - epsilon).
  { pose proof (inv_debtors _ _ _ Inv _ _ Hd) as H. by rewrite Nat.ltb_irrefl in H. }
  assert (Hc2 : epsilon <= c.2).
  { pose proof (inv_creditors _ _ _ Inv _ _ Hc) as H. by rewrite Nat.ltb_irrefl in H. }
  assert (Ht : 0 <= Qmin (- d.2) c.2).
  { destruct (min_cases (- d.2) c.2) as [[-> _]|[-> _]]; lra. }
  assert (Hpaid : forall k,
    paid_by (payments (pass s d c)) k
    <= paid_by (payments s) k + (if String.eqb d.1 k then Qmin (- d.2) c.2 else 0)).
  { intros k. cbn [pass payments]. destruct (Qltb epsilon (Qmin (- d.2) c.2)).
    - rewrite paid_by_snoc. cbn [from pay_amount]. lra.
    - destruct (String.eqb d.1 k); lra. }
  assert (Hrecv : forall k,
    received_by (payments (pass s d c)) k
    <= received_by (payments s) k + (if String.eqb c.1 k then Qmin (- d.2) c.2 else 0)).
  { intros k. cbn [pass payments]. destruct (Qltb epsilon (Qmin (- d.2) c.2)).
    - rewrite received_by_snoc. cbn [to pay_amount]. lra.
    - destruct (String.eqb c.1 k); lra. }
  constructor.
  - intros i e e0 He He0. specialize (Hpaid e0.1).
    cbn [pass debtors] in He.
    apply list_lookup_insert_Some in He as [(<- & <- & _)|(Hne & He)].
    + pose proof (led_debtors _ _ _ Led _ _ _ Hd He0) as H.
      rewrite (keys_lookup _ _ _ _ _ (inv_dkeys _ _ _ Inv) Hd He0), String.eqb_refl in Hpaid.
      cbn [snd]. lra.
    + pose proof (led_debtors _ _ _ Led _ _ _ He He0) as H.
      destruct (String.eqb_spec d.1 e0.1) as [Heq|_]; [|lra].
      exfalso. apply Hne.
      assert (Hd0 : exists d0, D0 !! dIdx s = Some d0 /\ d0.1 = d.1).
      { pose proof (inv_dkeys _ _ _ Inv) as Hk.
        assert (H' : (debtors s).*1 !! dIdx s = D0.*1 !! dIdx s) by (by rewrite Hk).
        rewrite !list_lookup_fmap, Hd in H'. cbn in H'.
        destruct (D0 !! dIdx s) as [d0|]; [|done]. exists d0. split; [done|].
        by injection H'. }
      destruct Hd0 as (d0 & Hd0 & Hk0).
      eapply (keys_NoDup_lookup D0); [done|exact Hd0|exact He0|congruence].
  - intros j e e0 He He0. specialize (Hrecv e0.1).
    cbn [pass creditors] in He.
    apply list_lookup_insert_Some in He as [(<- & <- & _)|(Hne & He)].
    + pose proof (led_creditors _ _ _ Led _ _ _ Hc He0) as H.
      rewrite (keys_lookup _ _ _ _ _ (inv_ckeys _ _ _ Inv) Hc He0), String.eqb_refl in Hrecv.
      cbn [snd]. lra.
    + pose proof (led_creditors _ _ _ Led _ _ _ He He0) as H.
      destruct (String.eqb_spec c.1 e0.1) as [Heq|_]; [|lra].
      exfalso. apply Hne.
      assert (Hc0 : exists c0, C0 !! cIdx s = Some c0 /\ c0.1 = c.1).
      { pose proof (inv_ckeys _ _ _ Inv) as Hk.
        assert (H' : (creditors s).*1 !! cIdx s = C0.*1 !! cIdx s) by (by rewrite Hk).
        rewrite !list_lookup_fmap, Hc in H'. cbn in H'.
        destruct (C0 !! cIdx s) as [c0|]; [|done]. exists c0. split; [done|].
        by injection H'. }
      destruct Hc0 as (c0 & Hc0 & Hk0).
      eapply (keys_NoDup_lookup C0); [done|exact Hc0|exact He0|congruence].
Qed.

Lemma filter_keys_NoDup (f : string * Q -> bool) (l : list (string * Q)) :
  NoDup l.*1 -> NoDup (List.filter f l).*1.
Proof.
  induction l as [|e l IH]; [done|].
  rewrite fmap_cons. intros [Hn Hnd]%NoDup_cons. cbn [List.filter].
  destruct (f e); [|auto]. rewrite fmap_cons. apply NoDup_cons. split; [|auto].
  intros (e' & Heq & [Hin _]%elem_of_filter_bool)%list_elem_of_fmap.
  apply Hn. apply list_elem_of_fmap. by exists e'.
Qed.

Lemma partitions_NoDup (B : JsObject.t) :
  NoDup B.*1 -> NoDup (debtors_of B).*1 /\ NoDup (creditors_of B).*1.
Proof.
  intros Hnd. unfold debtors_of, creditors_of.
  rewrite !array_sort_perm.
  split; apply filter_keys_NoDup; by rewrite entries_perm.
Qed.

(** The end state of the loop on balances without repeated names keeps
    the ledger. *)
Lemma settle_loop_ledger (B : JsObject.t) (s : LoopState) (n : nat) :
  NoDup B.*1 -> settle_loop B = Some (s, n) ->
  settle_inv (debtors_of B) (creditors_of B) s
  /\ ledger_inv (debtors_of B) (creditors_of B) s.
Proof.
  intros Hnd Hs. destruct (partitions_NoDup B Hnd) as [HD HC].
  unfold settle_loop in Hs.
  eapply (while_loop_invariant
            (fun s => settle_inv (debtors_of B) (creditors_of B) s
                      /\ ledger_inv (debtors_of B) (creditors_of B) s));
    [| |exact Hs].
  - intros s0 d c Hc Hd Hcr [Inv Led]. split.
    + by apply pass_settle_inv.
    + by apply pass_ledger_inv.
  - split; [apply initial_settle_inv|].
    constructor; cbn [initial_state debtors creditors payments].
    + intros i e e0 He He0. rewrite He in He0. injection He0 as <-.
      change (paid_by [] e.1) with 0. lra.
    + intros j e e0 He He0. rewrite He in He0. injection He0 as <-.
      change (received_by [] e.1) with 0. lra.
Qed.

(** On the own numeric properties and without rounding, applying the
    payments moves every participant's balance towards zero and never
    past it. *)
Lemma toward_zero_own (ps : list Participant) (total : Q)
    (byP : gmap string Q) :
  exists pays,
    settledPayments ps total byP = Some pays
    /\ Forall (fun q =>
         let b := balance ps total byP (name q) in
         let b' := balance_after (balance ps total byP) pays (name q) in
         (b <= 0 -> b <= b' /\ b' <= 0) /\ (0 <= b -> 0 <= b' /\ b' <= b)) ps.
Proof.
  destruct (settledPayments_returns ps total byP) as (pays & Hp & Hcase).
  exists pays. split; [done|]. apply Forall_forall. intros q Hq. cbn zeta.
  set (bal := balance ps total byP). set (k := name q).
  destruct Hcase as [[_ ->]|(_ & _ & s & n & Hs & ->)].
  { change (balance_after bal [] k) with (bal k). split; intros; split; lra. }
  set (B := balances ps total byP) in *.
  destruct (settle_loop_ledger B s n (balances_NoDup ps total byP) Hs) as [Inv Led].
  pose proof epsilon_pos as Heps.
  rewrite (balance_after_ledger bal (payments s) k).
  assert (Hpos : Forall (fun p => 0 <= pay_amount p) (payments s)).
  { eapply Forall_impl; [apply (inv_payments _ _ _ Inv)|]. intros p (H & _). cbn in H. lra. }
  destruct (paid_by_bounds (payments s) k Hpos) as [Hp0 Hr0].
  assert (HkB : (k, bal k) ∈ B) by (by apply get_Some_elem_of, balances_get).
  assert (HinB : forall e, e ∈ B -> e.1 = k -> e.2 = bal k).
  { intros e He Hek. apply balances_elem_of in He as [_ He]. by rewrite He, Hek. }
  (* what a name that is no debtor pays, and what a name that is no creditor receives *)
  assert (Hnd : - epsilon <= bal k -> paid_by (payments s) k == 0).
  { intros Hb. apply paid_by_none.
    eapply Forall_impl; [apply (inv_payments _ _ _ Inv)|].
    intros p (_ & Hf & _) Heq. cbn beta in *.
    apply list_elem_of_fmap in Hf as (e & He1 & [He Hlt]%elem_of_debtors_of).
    rewrite (HinB e He) in Hlt by congruence. lra. }
  assert (Hnc : bal k <= epsilon -> received_by (payments s) k == 0).
  { intros Hb. apply received_by_none.
    eapply Forall_impl; [apply (inv_payments _ _ _ Inv)|].
    intros p (_ & _ & Ht) Heq. cbn beta in *.
    apply list_elem_of_fmap in Ht as (e & He1 & [He Hlt]%elem_of_creditors_of).
    rewrite (HinB e He) in Hlt by congruence. lra. }
  (* a debtor's element never rises above zero, a creditor's never falls below *)
  assert (Hdeb : bal k < - epsilon -> bal k + paid_by (payments s) k <= 0).
  { intros Hb.
    assert (Hin : (k, bal k) ∈ debtors_of B) by (by apply elem_of_debtors_of).
    apply list_elem_of_lookup_1 in Hin as [i Hi].
    assert (Hlen : (i < length (debtors s))%nat).
    { rewrite <- (length_fmap fst (debtors s)), (inv_dkeys _ _ _ Inv), length_fmap.
      by eapply lookup_lt_Some. }
    destruct (lookup_lt_is_Some_2 _ _ Hlen) as [e He].
    pose proof (led_debtors _ _ _ Led _ _ _ He Hi) as H1. cbn [fst snd] in H1.
    pose proof (inv_debtors _ _ _ Inv _ _ He) as H2.
    destruct (i <? dIdx s)%nat; lra. }
  assert (Hcre : epsilon < bal k -> 0 <= bal k - received_by (payments s) k).
  { intros Hb.
    assert (Hin : (k, bal k) ∈ creditors_of B) by (by apply elem_of_creditors_of).
    apply list_elem_of_lookup_1 in Hin as [j Hj].
    assert (Hlen : (j < length (creditors s))%nat).
    { rewrite <- (length_fmap fst (creditors s)), (inv_ckeys _ _ _ Inv), length_fmap.
      by eapply lookup_lt_Some. }
    destruct (lookup_lt_is_Some_2 _ _ Hlen) as [e He].
    pose proof (led_creditors _ _ _ Led _ _ _ He Hj) as H1. cbn [fst snd] in H1.
    pose proof (inv_creditors _ _ _ Inv _ _ He) as H2.
    destruct (j <? cIdx s)%nat; lra. }
  split; intros Hb.
  - rewrite (Hnc ltac:(lra)).
    destruct (Qlt_le_dec (bal k) (- epsilon)) as [Hlt|Hge].
    + specialize (Hdeb Hlt). split; lra.
    + rewrite (Hnd Hge). split; lra.
  - rewrite (Hnd ltac:(lra)).
    destruct (Qlt_le_dec epsilon (bal k)) as [Hlt|Hge].
    + specialize (Hcre Hlt). split; lra.
    + rewrite (Hnc Hge). split; lra.
Qed.

(** ** More on the aggregates (lines 804-816) *)

Lemma expensesByCategory_entry (es : list Expense) (c : ExpenseCategory) :
  exists v,
    expensesByCategory es !! category_key c = Some v
    /\ v == totalTripCost (List.filter (fun e => bool_decide (category e = c)) es).
Proof.
  unfold expensesByCategory.
  set (m0 := foldl (fun m cat => <[category_key cat := 0]> m) ∅ CATEGORIES).
  assert (H0 : m0 !! category_key c = Some 0) by (destruct c; reflexivity).
  assert (Hin : category_key c
                ∈ dom (add_amounts (fun e => category_key (category e)) m0 es)).
  { rewrite add_amounts_dom. apply elem_of_union_l, elem_of_dom. by eexists. }
  apply elem_of_dom in Hin as [v Hv]. exists v. split; [done|].
  apply add_amounts_lookup in Hv. rewrite Hv, H0.
  rewrite (filter_ext _ (fun e => bool_decide (category e = c))).
  - change (or_zero (Some 0)) with 0. lra.
  - intros e. apply category_key_eqb.
Qed.

Lemma Qsum_cons (x : Q) (l : list Q) : Qsum (x :: l) = x + Qsum l.
Proof. reflexivity. Qed.

(** Every expense is in exactly one category. *)
Lemma totalTripCost_by_category (es : list Expense) :
  Qsum ((fun c => totalTripCost (List.filter (fun e => bool_decide (category e = c)) es))
          <$> CATEGORIES)
  == totalTripCost es.
Proof.
  unfold CATEGORIES. rewrite !fmap_cons, !Qsum_cons.
  change (Qsum (_ <$> [])) with 0.
  induction es as [|e es IH].
  - cbn [List.filter]. rewrite totalTripCost_nil. lra.
  - cbn [List.filter]. rewrite (totalTripCost_cons e es).
    destruct (category e);
      repeat match goal with
             | |- context [bool_decide (?a = ?b)] =>
                 first [ rewrite (bool_decide_eq_true_2 (a = b)) by reflexivity
                       | rewrite (bool_decide_eq_false_2 (a = b)) by discriminate ]
             end;
      rewrite totalTripCost_cons; lra.
Qed.

(** Without rounding, the totals by category add up to the total trip
    cost. *)
Theorem expensesByCategory_adds_up (es : list Expense) :
  Qsum ((fun c => default 0 (expensesByCategory es !! category_key c)) <$> CATEGORIES)
  == totalTripCost es.
Proof.
  rewrite <- (totalTripCost_by_category es).
  unfold CATEGORIES. rewrite !fmap_cons, !Qsum_cons.
  repeat match goal with
         | |- context [expensesByCategory es !! category_key ?c] =>
             let v := fresh "v" in let Hv := fresh "Hv" in let He := fresh "He" in
             destruct (expensesByCategory_entry es c) as (v & Hv & He);
             rewrite Hv; cbn [default]; rewrite He; clear Hv He v
         end.
  reflexivity.
Qed.

(** ** The order of the expenses does not matter *)

Lemma totalTripCost_perm (es es' : list Expense) :
  es ≡ₚ es' -> totalTripCost es == totalTripCost es'.
Proof.
  induction 1 as [|e l l' _ IH|e e' l|l l' l'' _ IH1 _ IH2];
    rewrite ?totalTripCost_cons; lra.
Qed.

Lemma filter_bool_perm {A} (f : A -> bool) (l l' : list A) :
  l ≡ₚ l' -> List.filter f l ≡ₚ List.filter f l'.
Proof.
  induction 1 as [|x l l' _ IH|x y l|l l' l'' _ IH1 _ IH2]; cbn [List.filter].
  - done.
  - destruct (f x); by rewrite IH.
  - destruct (f x), (f y); try done. apply Permutation_swap.
  - by rewrite IH1.
Qed.

Lemma add_amounts_perm (key : Expense -> string) (m : gmap string Q)
    (es es' : list Expense) (k : string) :
  es ≡ₚ es' ->
  option_Forall2 Qeq (add_amounts key m es !! k) (add_amounts key m es' !! k).
Proof.
  intros Hp.
  assert (Hdom : dom (add_amounts key m es) = dom (add_amounts key m es')).
  { rewrite !add_amounts_dom. f_equal. apply set_eq. intros x.
    rewrite !elem_of_list_to_set. by rewrite Hp. }
  destruct (add_amounts key m es !! k) as [v|] eqn:E.
  - assert (Hin : k ∈ dom (add_amounts key m es')).
    { rewrite <- Hdom. apply elem_of_dom. by eexists. }
    apply elem_of_dom in Hin as [v' E']. rewrite E'. constructor.
    apply add_amounts_lookup in E, E'. rewrite E, E'.
    rewrite (totalTripCost_perm _ _ (filter_bool_perm _ _ _ Hp)). reflexivity.
  - assert (Hnin : k ∉ dom (add_amounts key m es')).
    { rewrite <- Hdom. by apply not_elem_of_dom. }
    apply not_elem_of_dom in Hnin. rewrite Hnin. constructor.
Qed.

(** Without rounding, the three aggregates on own numeric properties are
    the same, as numbers, for any order of the expenses. *)
Lemma aggregates_order_free_own (ps : list Participant) (es es' : list Expense) :
  es ≡ₚ es' ->
  totalTripCost es == totalTripCost es'
  /\ (forall k, option_Forall2 Qeq (expensesByCategory es !! k)
                                   (expensesByCategory es' !! k))
  /\ (forall k, option_Forall2 Qeq (expensesByParticipant ps es !! k)
                                   (expensesByParticipant ps es' !! k)).
Proof.
  intros Hp. split_and!.
  - by apply totalTripCost_perm.
  - intros k. by apply add_amounts_perm.
  - intros k. by apply add_amounts_perm.
Qed.

Lemma Qltb_eq (x x' y y' : Q) : x == x' -> y == y' -> Qltb x y = Qltb x' y'.
Proof. intros Hx Hy. unfold Qltb. by rewrite Hx, Hy. Qed.

Lemma or_zero_eq (o o' : option Q) :
  option_Forall2 Qeq o o' -> or_zero o == or_zero o'.
Proof.
  destruct 1 as [v v' Hv|]; [|reflexivity]. cbn.
  rewrite (Qeqb_comp v v' Hv 0 0 (Qeq_refl 0)).
  destruct (Qeq_bool v' 0); [reflexivity|done].
Qed.

Lemma set_entry_eq (o o' : JsObject.t) (k : string) (v v' : Q) :
  Forall2 entry_eq o o' -> v == v' ->
  Forall2 entry_eq (JsObject.set o k v) (JsObject.set o' k v').
Proof.
  intros Ho Hv. induction Ho as [|[k0 v0] [k0' v0'] o o' [Hk Hv0] Ho IH];
    cbn [JsObject.set].
  - constructor; [split; [done|exact Hv]|constructor].
  - cbn in Hk, Hv0. subst k0'. destruct (String.eqb k0 k).
    + constructor; [split; [done|exact Hv]|exact Ho].
    + constructor; [split; [done|exact Hv0]|exact IH].
Qed.

Lemma assign_all_entry_eq (val val' : string -> Q) (ps : list Participant)
    (b b' : JsObject.t) :
  (forall k, val k == val' k) -> Forall2 entry_eq b b' ->
  Forall2 entry_eq (assign_all val b ps) (assign_all val' b' ps).
Proof.
  intros Hval. revert b b'. induction ps as [|p ps IH]; intros b b' Hb; [done|].
  cbn [assign_all foldl]. apply IH. by apply set_entry_eq.
Qed.

Lemma filter_Forall2 {A} (R : A -> A -> Prop) (f : A -> bool) (l l' : list A) :
  (forall a b, R a b -> f a = f b) ->
  Forall2 R l l' -> Forall2 R (List.filter f l) (List.filter f l').
Proof.
  intros Hf. induction 1 as [|a b l l' Hab _ IH]; cbn [List.filter]; [done|].
  rewrite (Hf a b Hab). destruct (f b); [by constructor|done].
Qed.

Lemma insert_index_entry_eq (x x' : string * Q) (l l' : list (string * Q)) :
  entry_eq x x' -> Forall2 entry_eq l l' ->
  Forall2 entry_eq (JsObject.insert_index x l) (JsObject.insert_index x' l').
Proof.
  intros Hx. induction 1 as [|y y' l l' Hy Hl IH]; cbn [JsObject.insert_index].
  - constructor; [exact Hx|constructor].
  - assert (E : (JsObject.index_of y <? JsObject.index_of x)%N
                = (JsObject.index_of y' <? JsObject.index_of x')%N).
    { unfold JsObject.index_of. by rewrite (proj1 Hx), (proj1 Hy). }
    rewrite E. destruct (JsObject.index_of y' <? JsObject.index_of x')%N.
    + constructor; [exact Hy|exact IH].
    + constructor; [exact Hx|]. constructor; [exact Hy|exact Hl].
Qed.

Lemma entries_entry_eq (o o' : JsObject.t) :
  Forall2 entry_eq o o' -> Forall2 entry_eq (JsObject.entries o) (JsObject.entries o').
Proof.
  intros Ho. unfold JsObject.entries. apply Forall2_app.
  - assert (H : Forall2 entry_eq (List.filter JsObject.is_array_index o)
                                 (List.filter JsObject.is_array_index o')).
    { apply filter_Forall2; [|done]. intros a b [Hk _].
      unfold JsObject.is_array_index. by rewrite Hk. }
    induction H as [|x x' l l' Hx _ IH]; cbn [foldr]; [done|].
    by apply insert_index_entry_eq.
  - apply filter_Forall2; [|done]. intros a b [Hk _].
    unfold JsObject.is_array_index. by rewrite Hk.
Qed.

Lemma array_sort_Forall2 {A} (R : A -> A -> Prop) (cmp : A -> A -> Q) (l l' : list A) :
  (forall a b x y, R a b -> R x y -> cmp a x == cmp b y) ->
  Forall2 R l l' -> Forall2 R (array_sort cmp l) (array_sort cmp l').
Proof.
  intros Hcmp.
  assert (Hins : forall x x' k k', R x x' -> Forall2 R k k' ->
                   Forall2 R (sort_insert cmp x k) (sort_insert cmp x' k')).
  { intros x x' k k' Hx. induction 1 as [|y y' k k' Hy Hk IH]; cbn [sort_insert].
    - constructor; [exact Hx|constructor].
    - rewrite (Qltb_eq 0 0 (cmp x y) (cmp x' y') (Qeq_refl 0) (Hcmp _ _ _ _ Hx Hy)).
      destruct (Qltb 0 (cmp x' y')).
      + constructor; [exact Hy|exact IH].
      + constructor; [exact Hx|]. constructor; [exact Hy|exact Hk]. }
  induction 1 as [|x x' l l' Hx _ IH]; cbn [array_sort foldr]; [done|].
  by apply Hins.
Qed.

Lemma partitions_entry_eq (B B' : JsObject.t) :
  Forall2 entry_eq B B' ->
  Forall2 entry_eq (debtors_of B) (debtors_of B')
  /\ Forall2 entry_eq (creditors_of B) (creditors_of B').
Proof.
  intros HB. apply entries_entry_eq in HB. split.
  - apply array_sort_Forall2.
    + intros a b x y [_ H1] [_ H2]. by rewrite H1, H2.
    + apply filter_Forall2; [|done]. intros a b [_ H]. unfold is_debtor.
      by apply Qltb_eq.
  - apply array_sort_Forall2.
    + intros a b x y [_ H1] [_ H2]. by rewrite H1, H2.
    + apply filter_Forall2; [|done]. intros a b [_ H]. unfold is_creditor.
      by apply Qltb_eq.
Qed.

Lemma pass_state_eq (s s' : LoopState) (d d' c c' : string * Q) :
  state_eq s s' -> entry_eq d d' -> entry_eq c c' ->
  state_eq (pass s d c) (pass s' d' c').
Proof.
  intros [HD HC HP Hi Hj] [Hdk Hdv] [Hck Hcv].
  assert (Ht : Qmin (- d.2) c.2 == Qmin (- d'.2) c'.2) by (by rewrite Hdv, Hcv).
  constructor; cbn [pass debtors creditors payments dIdx cIdx fst snd].
  - rewrite Hi. apply Forall2_insert; [done|]. split; cbn [fst snd]; [done|lra].
  - rewrite Hj. apply Forall2_insert; [done|]. split; cbn [fst snd]; [done|lra].
  - rewrite (Qltb_eq epsilon epsilon _ _ (Qeq_refl _) Ht).
    destruct (Qltb epsilon (Qmin (- d'.2) c'.2)); [|done].
    apply Forall2_app; [done|]. constructor; [|constructor].
    split_and!; cbn [from to pay_amount]; done.
  - assert (E : Qabs (d.2 + Qmin (- d.2) c.2) == Qabs (d'.2 + Qmin (- d'.2) c'.2))
      by (apply Qabs_wd; lra).
    rewrite (Qltb_eq _ _ epsilon epsilon E (Qeq_refl _)), Hi. done.
  - assert (E : Qabs (c.2 - Qmin (- d.2) c.2) == Qabs (c'.2 - Qmin (- d'.2) c'.2))
      by (apply Qabs_wd; lra).
    rewrite (Qltb_eq _ _ epsilon epsilon E (Qeq_refl _)), Hj. done.
Qed.

Lemma while_loop_state_eq (fuel : nat) (s s' : LoopState) :
  state_eq s s' ->
  match while_loop fuel s, while_loop fuel s' with
  | Some (r, n), Some (r', n') => state_eq r r' /\ n = n'
  | None, None => True
  | _, _ => False
  end.
Proof.
  revert s s'. induction fuel as [|fuel IH]; intros s s' Hs; cbn [while_loop].
  - assert (Hc : loop_cond s = loop_cond s').
    { unfold loop_cond. rewrite (eq_dIdx _ _ Hs), (eq_cIdx _ _ Hs).
      by rewrite (Forall2_length _ _ _ (eq_debtors _ _ Hs)),
                 (Forall2_length _ _ _ (eq_creditors _ _ Hs)). }
    rewrite Hc. by destruct (loop_cond s').
  - assert (Hc : loop_cond s = loop_cond s').
    { unfold loop_cond. rewrite (eq_dIdx _ _ Hs), (eq_cIdx _ _ Hs).
      by rewrite (Forall2_length _ _ _ (eq_debtors _ _ Hs)),
                 (Forall2_length _ _ _ (eq_creditors _ _ Hs)). }
    rewrite <- Hc. destruct (loop_cond s) eqn:Hcs; [|done]. symmetry in Hc.
    destruct (loop_body_Some s Hcs) as (d & c & Hd & Hcr & Hb).
    destruct (loop_body_Some s' Hc) as (d' & c' & Hd' & Hcr' & Hb').
    rewrite Hb, Hb'.
    assert (Hdd : entry_eq d d').
    { rewrite <- (eq_dIdx _ _ Hs) in Hd'.
      exact (Forall2_lookup_lr _ _ _ _ _ _ (eq_debtors _ _ Hs) Hd Hd'). }
    assert (Hcc : entry_eq c c').
    { rewrite <- (eq_cIdx _ _ Hs) in Hcr'.
      exact (Forall2_lookup_lr _ _ _ _ _ _ (eq_creditors _ _ Hs) Hcr Hcr'). }
    specialize (IH _ _ (pass_state_eq _ _ _ _ _ _ Hs Hdd Hcc)).
    destruct (while_loop fuel (pass s d c)) as [[r n]|],
             (while_loop fuel (pass s' d' c')) as [[r' n']|]; try done.
    destruct IH as [Hr ->]. done.
Qed.

(** [settledPayments] gives the same payments, as numbers, for totals that
    are the same as numbers. *)
Lemma settledPayments_eq (ps : list Participant) (total total' : Q)
    (byP byP' : gmap string Q) :
  total == total' ->
  (forall k, option_Forall2 Qeq (byP !! k) (byP' !! k)) ->
  option_Forall2 (Forall2 payment_eq)
    (settledPayments ps total byP) (settledPayments ps total' byP').
Proof.
  intros Ht Hm. unfold settledPayments.
  rewrite (Qeqb_comp total total' Ht 0 0 (Qeq_refl 0)).
  destruct ((length ps <? 2)%nat || Qeq_bool total' 0); [constructor; constructor|].
  assert (HB : Forall2 entry_eq (balances ps total byP) (balances ps total' byP')).
  { rewrite !balances_assign_all. apply assign_all_entry_eq; [|constructor].
    intros k. unfold balance, avgCost. by rewrite (or_zero_eq _ _ (Hm k)), Ht. }
  destruct (partitions_entry_eq _ _ HB) as [HD HC].
  assert (Hinit : state_eq (initial_state (balances ps total byP))
                           (initial_state (balances ps total' byP'))).
  { constructor; cbn [initial_state debtors creditors payments dIdx cIdx]; done || constructor. }
  unfold settle_loop. cbn [initial_state debtors creditors].
  rewrite (Forall2_length _ _ _ HD), (Forall2_length _ _ _ HC).
  pose proof (while_loop_state_eq
                (length (debtors_of (balances ps total' byP'))
                 + length (creditors_of (balances ps total' byP')))
                _ _ Hinit) as H.
  cbn [initial_state] in H.
  destruct (while_loop _ _) as [[r n]|], (while_loop _ _) as [[r' n']|]; try done.
  - constructor. apply H.
  - constructor.
Qed.

(** Without rounding, the settlement on the own numeric properties is the
    same, as numbers, for any order of the expenses. *)
Lemma order_free_own (ps : list Participant) (es es' : list Expense) :
  es ≡ₚ es' ->
  exists pays pays',
    settledPayments_of ps es = Some pays
    /\ settledPayments_of ps es' = Some pays'
    /\ Forall2 payment_eq pays pays'.
Proof.
  intros Hp. unfold settledPayments_of.
  destruct (settledPayments_returns ps (totalTripCost es) (expensesByParticipant ps es))
    as (pays & Hpays & _).
  pose proof (settledPayments_eq ps (totalTripCost es) (totalTripCost es')
                (expensesByParticipant ps es) (expensesByParticipant ps es')
                (totalTripCost_perm _ _ Hp)
                (fun k => add_amounts_perm _ _ _ _ k Hp)) as H.
  rewrite Hpays in H. inversion H as [x pays' Heq Hx Hy|]; subst.
  exists pays, pays'. done.
Qed.

(** ** The order of the two lists, and the first payment *)

(** The sort sorts: when the comparator is positive the second argument
    may go first, when it is not the first may, and "may go first" is
    transitive, then every element of the result may go before those
    after it. *)
Lemma array_sort_sorted {A} (cmp : A -> A -> Q) (R : A -> A -> Prop) (l : list A) :
  (forall a b, Qltb 0 (cmp a b) = true -> R b a) ->
  (forall a b, Qltb 0 (cmp a b) = false -> R a b) ->
  (forall a b c, R a b -> R b c -> R a c) ->
  StronglySorted R (array_sort cmp l).
Proof.
  intros Hpos Hneg Htrans.
  assert (Hins : forall x k, StronglySorted R k -> StronglySorted R (sort_insert cmp x k)).
  { intros x k Hk. induction Hk as [|y k Hk IH Hy]; cbn [sort_insert].
    - repeat constructor.
    - destruct (Qltb 0 (cmp x y)) eqn:E.
      + constructor; [exact IH|].
        rewrite (sort_insert_perm cmp x k). constructor; [by apply Hpos|exact Hy].
      + constructor; [by constructor|]. constructor; [by apply Hneg|].
        eapply Forall_impl; [exact Hy|]. intros z Hz. cbn in Hz.
        eapply Htrans; [by apply Hneg|exact Hz]. }
  induction l as [|x l IH]; cbn [array_sort foldr]; [constructor|].
  by apply Hins.
Qed.

(** The debtors are in ascending order of balance (the largest debt
    first), the creditors in descending order (the largest credit first). *)
Theorem partitions_sorted (B : JsObject.t) :
  StronglySorted (fun a b => a.2 <= b.2) (debtors_of B)
  /\ StronglySorted (fun a b => b.2 <= a.2) (creditors_of B).
Proof.
  split; apply array_sort_sorted.
  - intros a b H%Qltb_lt. lra.
  - intros a b H%Qltb_ge. lra.
  - intros a b c H1 H2. cbn in *. lra.
  - intros a b H%Qltb_lt. lra.
  - intros a b H%Qltb_ge. lra.
  - intros a b c H1 H2. cbn in *. lra.
Qed.

(** Payments are only ever appended. *)
Lemma while_loop_payments_prefix (fuel : nat) (s s' : LoopState) (n : nat) :
  while_loop fuel s = Some (s', n) -> exists more, payments s' = payments s ++ more.
Proof.
  revert s s' n. induction fuel as [|fuel IH]; intros s s' n; cbn [while_loop].
  - destruct (loop_cond s); [done|]. intros [= <- <-]. exists []. by rewrite app_nil_r.
  - destruct (loop_cond s) eqn:Hc; [|intros [= <- <-]; exists []; by rewrite app_nil_r].
    destruct (loop_body_Some s Hc) as (d & c & _ & _ & Hb). rewrite Hb.
    destruct (while_loop fuel (pass s d c)) as [[s'' m]|] eqn:Hw; [|done].
    intros [= <- <-]. apply IH in Hw as [more Hm]. rewrite Hm. cbn [pass payments].
    destruct (Qltb epsilon (Qmin (- d.2) c.2)).
    + rewrite <- app_assoc. by eexists.
    + by eexists.
Qed.

(** On the own numeric properties, the first payment goes from a
    participant with the lowest balance to one with the highest, and its
    amount is the smaller of what the one owes and what the other is
    owed. *)
Lemma first_own (ps : list Participant) (total : Q) (byP : gmap string Q) :
  exists pays,
    settledPayments ps total byP = Some pays
    /\ match pays with
       | [] => True
       | p :: _ =>
           Forall (fun q => balance ps total byP (from p) <= balance ps total byP (name q)
                            /\ balance ps total byP (name q) <= balance ps total byP (to p)) ps
           /\ pay_amount p
              == Qmin (- balance ps total byP (from p)) (balance ps total byP (to p))
       end.
Proof.
  destruct (settledPayments_returns ps total byP) as (pays & Hp & Hcase).
  exists pays. split; [done|].
  destruct Hcase as [[_ ->]|(_ & _ & s & n & Hs & ->)]; [done|].
  set (B := balances ps total byP) in *.
  destruct (debtors_of B) as [|d0 D] eqn:ED.
  { rewrite (proj2 (settle_loop_pays_nothing B s n Hs)); [done|by left]. }
  destruct (creditors_of B) as [|c0 C] eqn:EC.
  { rewrite (proj2 (settle_loop_pays_nothing B s n Hs)); [done|by right]. }
  destruct (partitions_sorted B) as [SD SC]. rewrite ED in SD. rewrite EC in SC.
  apply StronglySorted_inv in SD as [_ SD]. apply StronglySorted_inv in SC as [_ SC].
  assert (Hd0 : d0 ∈ debtors_of B) by (rewrite ED; apply list_elem_of_here).
  assert (Hc0 : c0 ∈ creditors_of B) by (rewrite EC; apply list_elem_of_here).
  apply elem_of_debtors_of in Hd0 as [Hd0 Hdlt].
  apply elem_of_creditors_of in Hc0 as [Hc0 Hclt].
  apply balances_elem_of in Hd0 as [_ Hdv]. apply balances_elem_of in Hc0 as [_ Hcv].
  assert (Ht : Qltb epsilon (Qmin (- d0.2) c0.2) = true).
  { apply Qltb_lt. destruct (min_cases (- d0.2) c0.2) as [[-> _]|[-> _]]; lra. }
  unfold settle_loop, initial_state in Hs. rewrite ED, EC in Hs.
  cbn [debtors creditors length Nat.add while_loop loop_cond dIdx cIdx
       Nat.ltb Nat.leb andb loop_body lookup list_lookup] in Hs.
  destruct (while_loop _ _) as [[s'' m]|] eqn:Hw; [|done].
  injection Hs as -> _.
  apply while_loop_payments_prefix in Hw as [more Hm]. rewrite Hm.
  cbn [pass payments]. rewrite Ht. cbn [app from to pay_amount].
  rewrite <- Hdv, <- Hcv. split; [|reflexivity].
  apply Forall_forall. intros q Hq.
  assert (HqB : (name q, balance ps total byP (name q)) ∈ B)
    by (by apply get_Some_elem_of, balances_get).
  pose proof epsilon_pos as Heps.
  split.
  - destruct (Qlt_le_dec (balance ps total byP (name q)) (- epsilon)) as [Hlt|Hge]; [|lra].
    assert (Hin : (name q, balance ps total byP (name q)) ∈ debtors_of B)
      by (by apply elem_of_debtors_of).
    rewrite ED in Hin. apply elem_of_cons in Hin as [Heq|Hin].
    + rewrite <- Heq. cbn [snd]. lra.
    + rewrite Forall_forall in SD. specialize (SD _ Hin). cbn [snd] in SD. lra.
  - destruct (Qlt_le_dec epsilon (balance ps total byP (name q))) as [Hlt|Hge]; [|lra].
    assert (Hin : (name q, balance ps total byP (name q)) ∈ creditors_of B)
      by (by apply elem_of_creditors_of).
    rewrite EC in Hin. apply elem_of_cons in Hin as [Heq|Hin].
    + rewrite <- Heq. cbn [snd]. lra.
    + rewrite Forall_forall in SC. specialize (SC _ Hin). cbn [snd] in SC. lra.
Qed.

(** ** The chart data (lines 869-873) *)

Lemma chart_fold (m : gmap string Q) (cats : list ExpenseCategory)
    (r : ChartData) (k : nat) :
  foldl (chart_step m) (r, k) cats
  = ({| labels := labels r ++ (category_key <$> List.filter (positive_entry m) cats);
        data := data r ++ ((fun c => default 0 (m !! category_key c))
                             <$> List.filter (positive_entry m) cats);
        backgroundColors :=
          backgroundColors r
          ++ ((fun i => CHART_COLORS !! (i mod length CHART_COLORS)%nat)
                <$> seq k (length (List.filter (positive_entry m) cats))) |},
     (k + length (List.filter (positive_entry m) cats))%nat).
Proof.
  revert r k. induction cats as [|c cats IH]; intros r k.
  - cbn [foldl List.filter fmap list_fmap length seq]. rewrite !app_nil_r, Nat.add_0_r.
    by destruct r.
  - cbn [foldl List.filter]. unfold chart_step at 2.
    destruct (positive_entry m c); cbn [fst snd]; rewrite IH; [|done].
    cbn [labels data backgroundColors length seq]. rewrite !fmap_cons, <- !app_assoc.
    cbn [app]. by rewrite Nat.add_succ_r.
Qed.

Lemma filter_bool_length_le {A} (f : A -> bool) (l : list A) :
  (length (List.filter f l) <= length l)%nat.
Proof.
  induction l as [|x l IH]; [done|]. cbn [List.filter].
  destruct (f x); cbn [length]; lia.
Qed.

(** The chart has one bar for every category whose total is positive, in
    the order of the enumeration, with that total as its value; the three
    arrays have the same length, and the bars get the first colours of
    [CHART_COLORS], all different. *)
Theorem chartDataByCategory_shape (m : gmap string Q) :
  let r := chartDataByCategory m in
  let shown := List.filter (positive_entry m) CATEGORIES in
  labels r = category_key <$> shown
  /\ Forall2 (fun c v => m !! category_key c = Some v /\ 0 < v) shown (data r)
  /\ backgroundColors r = Some <$> take (length shown) CHART_COLORS
  /\ NoDup (backgroundColors r).
Proof.
  intros r shown. unfold r, chartDataByCategory. rewrite chart_fold.
  cbn [fst labels data backgroundColors app]. fold shown.
  assert (Hcol : (fun i => CHART_COLORS !! (i mod length CHART_COLORS)%nat)
                   <$> seq 0 (length shown)
                 = Some <$> take (length shown) CHART_COLORS).
  { pose proof (filter_bool_length_le (positive_entry m) CATEGORIES) as Hle.
    fold shown in Hle. change (length CATEGORIES) with 7%nat in Hle.
    destruct (length shown) as [|[|[|[|[|[|[|[|n]]]]]]]]; try reflexivity. lia. }
  rewrite Hcol. split_and!; [done| |done|].
  - apply Forall2_fmap_r, Forall_Forall2_diag, Forall_forall.
    intros c [_ Hc]%elem_of_filter_bool. unfold positive_entry in Hc.
    unfold compose. cbn beta.
    destruct (m !! category_key c) as [v|]; [|done]. cbn [default]. split; [done|].
    by apply Qltb_lt.
  - apply (NoDup_fmap_2 Some).
    refine (sublist_NoDup _ CHART_COLORS _ (sublist_take _ _)).
    refine (bool_decide_unpack _ _). vm_compute. exact I.
Qed.

(** The keys of [expensesByCategory] are the seven categories. *)
Lemma expensesByCategory_keys (es : list Expense) (k : string) (v : Q) :
  expensesByCategory es !! k = Some v -> exists c, k = category_key c.
Proof.
  intros Hv.
  assert (Hin : k ∈ dom (expensesByCategory es)) by (apply elem_of_dom; by eexists).
  unfold expensesByCategory in Hin. rewrite add_amounts_dom in Hin.
  apply elem_of_union in Hin as [Hin|Hin].
  - apply elem_of_dom in Hin as [v0 Hv0].
    destruct (decide (k ∈ category_key <$> CATEGORIES)) as [Hk|Hk].
    + apply list_elem_of_fmap in Hk as (c & -> & _). by exists c.
    + exfalso. revert Hv0. cbn [foldl CATEGORIES].
      rewrite !lookup_insert_ne, lookup_empty; [done|..];
        intros <-; apply Hk; unfold CATEGORIES; rewrite !fmap_cons;
        repeat (first [apply list_elem_of_here | apply list_elem_of_further]).
  - apply elem_of_list_to_set, list_elem_of_fmap in Hin as (e & -> & _). by eexists.
Qed.

(** With amounts that are not negative, the message "No hay gastos para
    mostrar" is shown exactly when the chart is not, and that is exactly
    when the total trip cost is zero. *)
Theorem chart_or_message (es : list Expense) :
  Forall (fun e => 0 <= amount e) es ->
  (every_zero (expensesByCategory es) = true
   <-> data (chartDataByCategory (expensesByCategory es)) = [])
  /\ (every_zero (expensesByCategory es) = true <-> totalTripCost es == 0).
Proof.
  intros Hpos. set (m := expensesByCategory es).
  assert (Hentry : forall c, exists v, m !! category_key c = Some v /\ 0 <= v
             /\ v == totalTripCost (List.filter (fun e => bool_decide (category e = c)) es)).
  { intros c. destruct (expensesByCategory_entry es c) as (v & Hv & He).
    exists v. split_and!; [done| |done]. rewrite He.
    by apply totalTripCost_filter_le. }
  assert (Hzero : every_zero m = true
                  <-> forall c v, m !! category_key c = Some v -> v == 0).
  { unfold every_zero. rewrite forallb_forall. split.
    - intros H c v Hv. apply Qeq_bool_eq.
      apply (H (category_key c, v)), list_elem_of_In. by apply elem_of_map_to_list.
    - intros H [k v] Hkv%list_elem_of_In%elem_of_map_to_list. cbn [snd].
      destruct (expensesByCategory_keys es k v Hkv) as [c ->].
      apply Qeq_eq_bool. by eapply H. }
  split.
  - rewrite Hzero.
    destruct (chartDataByCategory_shape m) as (_ & Hdata & _). cbn zeta in Hdata.
    split.
    + intros H. destruct (List.filter (positive_entry m) CATEGORIES) as [|c l] eqn:E.
      * by inversion Hdata.
      * exfalso. inversion Hdata as [|? v ? ? [Hv Hlt] _]; subst.
        rewrite (H c v Hv) in Hlt. lra.
    + intros Hnil c v Hv.
      assert (Hf : List.filter (positive_entry m) CATEGORIES = []).
      { apply Forall2_length in Hdata. rewrite Hnil in Hdata. by apply nil_length_inv. }
      destruct (Hentry c) as (v' & Hv' & Hge & _). rewrite Hv in Hv'. injection Hv' as <-.
      destruct (Qlt_le_dec 0 v) as [Hlt|Hle]; [|lra]. exfalso.
      assert (Hin : c ∈ List.filter (positive_entry m) CATEGORIES).
      { apply elem_of_filter_bool. split.
        - destruct c; unfold CATEGORIES;
            repeat (first [apply list_elem_of_here | apply list_elem_of_further]).
        - unfold positive_entry. rewrite Hv. by apply Qltb_lt. }
      rewrite Hf in Hin. by apply not_elem_of_nil in Hin.
  - rewrite Hzero, <- (totalTripCost_by_category es).
    unfold CATEGORIES. rewrite !fmap_cons, !Qsum_cons. change (Qsum (_ <$> [])) with 0.
    split.
    + intros H.
      repeat match goal with
             | |- context [totalTripCost (List.filter (fun e => bool_decide (category e = ?c)) es)] =>
                 let v := fresh "v" in let Hv := fresh "Hv" in let He := fresh "He" in
                 destruct (Hentry c) as (v & Hv & _ & He); rewrite <- He, (H c v Hv);
                 clear v Hv He
             end.
      reflexivity.
    + intros Hsum c v Hv.
      pose proof (Hentry ALOJAMIENTO) as (v1 & _ & G1 & E1).
      pose proof (Hentry ACTIVIDADES) as (v2 & _ & G2 & E2).
      pose proof (Hentry COMIDA) as (v3 & _ & G3 & E3).
      pose proof (Hentry TRANSPORTE) as (v4 & _ & G4 & E4).
      pose proof (Hentry ENTRADAS) as (v5 & _ & G5 & E5).
      pose proof (Hentry COMPRAS) as (v6 & _ & G6 & E6).
      pose proof (Hentry OTROS) as (v7 & _ & G7 & E7).
      destruct (Hentry c) as (v' & Hv' & _ & E). rewrite Hv in Hv'. injection Hv' as <-.
      destruct c; lra.
Qed.

Lemma chart_or_message_witness :
  let es := [expense_by "Alice" 30 COMIDA] in
  every_zero (expensesByCategory es) = true
  <-> data (chartDataByCategory (expensesByCategory es)) = [].
Proof.
  intros es. destruct (chart_or_message es) as [H _].
  - repeat constructor. vm_compute. discriminate.
  - exact H.
Defined.

(** ** The calendar index (lines 1023-1031) *)

Lemma filter_bool_app {A} (f : A -> bool) (l k : list A) :
  List.filter f (l ++ k) = List.filter f l ++ List.filter f k.
Proof.
  induction l as [|x l IH]; [done|]. cbn [app List.filter].
  destruct (f x); by rewrite IH.
Qed.

(** The index has a key for every date that has an expense, and no other;
    under a date it holds the expenses of that date, in the order of the
    list.  So a click on a day, which reads [get(dateStr) || \[\]], shows
    exactly the expenses of that day. *)
Theorem expensesByDate_lookup (es : list Expense) (d : string) :
  expensesByDate es !! d
  = match List.filter (fun e => String.eqb (date e) d) es with
    | [] => None
    | l => Some l
    end.
Proof.
  induction es as [|e es IH] using rev_ind.
  - cbn. apply lookup_empty.
  - unfold expensesByDate in *. rewrite foldl_app. cbn [foldl].
    set (m := foldl _ ∅ es) in *. rewrite filter_bool_app. cbn [List.filter].
    assert (Hstep : forall l0,
              (match m !! date e with Some _ => m | None => <[date e := []]> m end)
                !! date e = Some l0 ->
              l0 = default [] (m !! date e)).
    { intros l0. destruct (m !! date e) as [l1|] eqn:E.
      - rewrite E. by intros [= <-].
      - rewrite lookup_insert_eq. by intros [= <-]. }
    destruct ((match m !! date e with Some _ => m | None => <[date e := []]> m end)
                !! date e) as [l0|] eqn:E0.
    + rewrite (Hstep l0 eq_refl).
      destruct (String.eqb_spec (date e) d) as [->|Hne].
      * rewrite lookup_insert_eq, IH.
        destruct (List.filter _ es); cbn [default app]; [done|done].
      * rewrite lookup_insert_ne by done. rewrite app_nil_r.
        destruct (m !! date e) eqn:E; [done|]. by rewrite lookup_insert_ne.
    + exfalso. destruct (m !! date e) eqn:E; [congruence|].
      by rewrite lookup_insert_eq in E0.
Qed.

(** ** Accounts (lines 210-229) *)

Lemma blank_false (s : string) : blank s = false <-> s <> EmptyString.
Proof. unfold blank. by destruct (String.eqb_spec s ""). Qed.

(** A registration that passes the three checks can log in right away,
    as the user who registered. *)
Theorem register_then_login (trim : string -> string) (st : AppState) (u p : string) :
  blank (trim u) = false -> blank (trim p) = false ->
  Forall (fun x => StoredUser.username x <> u) (storedUsers st) ->
  exists st' st'',
    handleRegister trim st u p p = (Registered, st')
    /\ handleLogin st' u p = (true, st'')
    /\ currentUser st'' = Some {| User.username := u |}.
Proof.
  intros Hu Hp Hnew. unfold handleRegister. rewrite Hu, Hp, String.eqb_refl. cbn [orb negb].
  assert (Hex : existsb (fun user => String.eqb (StoredUser.username user) u)
                        (storedUsers st) = false).
  { apply not_true_iff_false. intros (x & Hx & Heq)%existsb_exists.
    apply String.eqb_eq in Heq. rewrite Forall_forall in Hnew.
    apply (Hnew x); [by apply list_elem_of_In|done]. }
  rewrite Hex. eexists _, _. split; [reflexivity|].
  unfold handleLogin. cbn [storedUsers].
  set (f := fun user => _).
  assert (Hfind : List.find f (storedUsers st ++ [{| StoredUser.username := u;
                                                     StoredUser.password := Some p |}])
                  = Some {| StoredUser.username := u; StoredUser.password := Some p |}).
  { induction (storedUsers st) as [|x l IH]; cbn [app List.find].
    - unfold f. cbn. by rewrite !String.eqb_refl.
    - apply Forall_cons in Hnew as [Hx Hl].
      assert (Hf : f x = false).
      { unfold f. destruct (String.eqb_spec (StoredUser.username x) u); [done|done]. }
      rewrite Hf. apply IH; [done|].
      cbn [existsb] in Hex. by apply orb_false_iff in Hex as [_ Hex]. }
  rewrite Hfind. split; reflexivity.
Qed.

Lemma register_then_login_witness :
  let st := {| currentUser := None; storedUsers := []; trips := []; expenses := [];
               mediaItems := []; infoItems := []; chatMessages := [];
               itineraryItems := []; markedMapLocations := []; activeTripId := None;
               view := auth; joinTripError := None; showTripCodeModal := None;
               authFormInitialValues := None |} in
  exists st' st'',
    handleRegister (fun s => s) st "ana" "secreto" "secreto" = (Registered, st')
    /\ handleLogin st' "ana" "secreto" = (true, st'')
    /\ currentUser st'' = Some {| User.username := "ana" |}.
Proof.
  intros st. apply (register_then_login (fun s => s) st "ana" "secreto").
  - reflexivity.
  - reflexivity.
  - constructor.
Defined.

(** Registering never gives two accounts the same user name. *)
Theorem register_keeps_usernames_unique (trim : string -> string) (st : AppState)
    (u p c : string) :
  NoDup (StoredUser.username <$> storedUsers st) ->
  NoDup (StoredUser.username <$> storedUsers (handleRegister trim st u p c).2).
Proof.
  intros Hnd. unfold handleRegister.
  destruct (blank (trim u) || blank (trim p)); [done|].
  destruct (negb (String.eqb p c)); [done|].
  destruct (existsb _ _) eqn:Hex; [done|].
  cbn [snd storedUsers]. rewrite fmap_app. cbn [fmap list_fmap StoredUser.username].
  apply NoDup_app. split_and!; [done| |apply NoDup_singleton].
  intros x (y & Hxy & Hy)%list_elem_of_fmap Hxu%list_elem_of_singleton.
  apply not_true_iff_false in Hex. apply Hex, existsb_exists.
  exists y. split; [by apply list_elem_of_In|]. apply String.eqb_eq. congruence.
Qed.

Lemma register_keeps_usernames_unique_witness :
  let st := {| currentUser := None;
               storedUsers := [{| StoredUser.username := "ana";
                                  StoredUser.password := Some "secreto" |}];
               trips := []; expenses := [];
               mediaItems := []; infoItems := []; chatMessages := [];
               itineraryItems := []; markedMapLocations := []; activeTripId := None;
               view := auth; joinTripError := None; showTripCodeModal := None;
               authFormInitialValues := None |} in
  NoDup (StoredUser.username
           <$> storedUsers (handleRegister (fun s => s) st "ana" "otra" "otra").2).
Proof.
  intros st. apply (register_keeps_usernames_unique (fun s => s) st "ana" "otra" "otra").
  refine (bool_decide_unpack _ _). vm_compute. exact I.
Defined.

(** ** Trips (lines 237-277, 586-591) *)

(** [handleCreateTrip] either rejects, with an alert and the state as it
    was, or appends one trip with as many participants as names, and
    makes it the active one.  Either way every trip still has a
    participant and no participant an empty name. *)
Theorem handleCreateTrip_named (trim : string -> string) (now : N) (code : string)
    (st : AppState) (tripName : string) (names : list string) :
  let r := handleCreateTrip trim now code st tripName names in
  (is_Some r.1 /\ r.2 = st
   \/ r.1 = None
      /\ exists t, trips r.2 = trips st ++ [t]
                   /\ length (Trip.participants t) = length names
                   /\ activeTripId r.2 = Some (Trip.id t)
                   /\ expenses r.2 = expenses st)
  /\ (trips_named st -> trips_named r.2).
Proof.
  cbn zeta. unfold handleCreateTrip.
  destruct (blank (trim tripName)) eqn:Hn; cbn [orb].
  { split; [left; split; [by eexists|done]|done]. }
  destruct (length names =? 0)%nat eqn:Hl; cbn [orb].
  { split; [left; split; [by eexists|done]|done]. }
  destruct (existsb _ names) eqn:Hex.
  { split; [left; split; [by eexists|done]|done]. }
  cbn [fst snd trips activeTripId expenses]. split.
  - right. split; [done|]. eexists. split; [reflexivity|].
    cbn [Trip.participants Trip.id]. by rewrite length_map.
  - intros Hst. unfold trips_named. cbn [trips]. apply Forall_app. split; [exact Hst|].
    apply Forall_singleton. cbn [Trip.participants]. split.
    + destruct names; [done|discriminate].
    + apply Forall_forall. intros q Hq.
      apply list_elem_of_In, in_map_iff in Hq as (pn & <- & Hpn). cbn [name].
      destruct (blank (trim pn)) eqn:Hb; [|done].
      apply not_true_iff_false in Hex. exfalso. apply Hex, existsb_exists. by exists pn.
Qed.

(** With a [trim] that returns its result unchanged when applied again, a
    trip created through the form has as participants the pieces between
    the commas, trimmed, without those that are empty, in their order;
    when all are empty nothing is created. *)
Theorem tripCreateSubmit_participants (trim : string -> string) (now : N) (code : string)
    (st : AppState) (tripName participantsStr : string) :
  (forall s, trim (trim s) = trim s) ->
  blank (trim tripName) = false ->
  let names := List.filter (fun p => negb (blank p))
                           (map trim (split_commas participantsStr)) in
  let r := tripCreateSubmit trim now code st tripName participantsStr in
  match names with
  | [] => is_Some r.1 /\ r.2 = st
  | _ => r.1 = None
         /\ exists t, trips r.2 = trips st ++ [t]
                      /\ Trip.participants t = map (fun n => {| name := n |}) names
  end.
Proof.
  intros Hidem Hname names r. subst r. unfold tripCreateSubmit. fold names.
  destruct names as [|n0 names'] eqn:E.
  { cbn. split; [by eexists|done]. }
  rewrite <- E. assert (Hlen : (length names =? 0)%nat = false) by (by rewrite E).
  rewrite Hlen. unfold handleCreateTrip. rewrite Hname, Hlen. cbn [orb].
  assert (Htrim : Forall (fun p => trim p = p /\ blank p = false) names).
  { apply Forall_forall. intros p [Hp Hb]%elem_of_filter_bool.
    apply list_elem_of_In, in_map_iff in Hp as (s & <- & _).
    split; [apply Hidem|]. by apply negb_true_iff. }
  assert (Hex : existsb (fun p => blank (trim p)) names = false).
  { apply not_true_iff_false. intros (p & Hp & Hb)%existsb_exists.
    rewrite Forall_forall in Htrim.
    destruct (Htrim p) as [Ht Hnb]; [by apply list_elem_of_In|]. congruence. }
  rewrite Hex. cbn [fst snd trips]. rewrite E. split; [done|].
  eexists. split; [reflexivity|]. cbn [Trip.participants]. rewrite <- E.
  clear -Htrim. induction Htrim as [|p l [Hp _] _ IH]; [done|].
  cbn [map]. by rewrite Hp, IH.
Qed.

Lemma tripCreateSubmit_participants_witness :
  let st := {| currentUser := None; storedUsers := []; trips := []; expenses := [];
               mediaItems := []; infoItems := []; chatMessages := [];
               itineraryItems := []; markedMapLocations := []; activeTripId := None;
               view := trip_create; joinTripError := None; showTripCodeModal := None;
               authFormInitialValues := None |} in
  let r := tripCreateSubmit (fun s => s) 1700000000000 "TF-0A1B-2C3D" st "Roma" "Ana,,Juan,Eva" in
  r.1 = None
  /\ exists t, trips r.2 = [t]
               /\ Trip.participants t = people ["Ana"; "Juan"; "Eva"].
Proof.
  intros st.
  exact (tripCreateSubmit_participants (fun s => s) 1700000000000 "TF-0A1B-2C3D" st
           "Roma" "Ana,,Juan,Eva" (fun s => eq_refl) eq_refl).
Defined.

Section FilterByKey.
Context {A : Type} (key : A -> string).

Lemma filter_out_Forall (t : string) (l : list A) :
  Forall (fun x => key x <> t) (List.filter (fun x => negb (String.eqb (key x) t)) l).
Proof.
  apply Forall_forall. intros x [_ Hx]%elem_of_filter_bool.
  apply negb_true_iff in Hx. by destruct (String.eqb_spec (key x) t).
Qed.

Lemma filter_out_other (t t' : string) (l : list A) :
  t' <> t ->
  List.filter (fun x => String.eqb (key x) t')
              (List.filter (fun x => negb (String.eqb (key x) t)) l)
  = List.filter (fun x => String.eqb (key x) t') l.
Proof.
  intros Hne. induction l as [|x l IH]; [done|]. cbn [List.filter].
  destruct (String.eqb_spec (key x) t) as [Hx|Hx]; cbn [negb List.filter].
  - rewrite IH. destruct (String.eqb_spec (key x) t'); [congruence|done].
  - by rewrite IH.
Qed.
End FilterByKey.

(** Deleting a trip, once confirmed, removes the trip and everything
    recorded for it, and nothing recorded for another trip; declined, it
    changes nothing. *)
Theorem handleDeleteTrip_cascade (st : AppState) (t : string) :
  handleDeleteTrip false st t = st
  /\ let st' := handleDeleteTrip true st t in
     (Forall (fun x => Trip.id x <> t) (trips st')
      /\ Forall (fun x => tripId x <> t) (expenses st')
      /\ Forall (fun x => MediaItem.tripId x <> t) (mediaItems st')
      /\ Forall (fun x => InfoItem.tripId x <> t) (infoItems st')
      /\ Forall (fun x => ChatMessage.tripId x <> t) (chatMessages st')
      /\ Forall (fun x => ItineraryItem.tripId x <> t) (itineraryItems st')
      /\ Forall (fun x => MarkedLocation.tripId x <> t) (markedMapLocations st')
      /\ activeTripId st' <> Some t)
     /\ forall t', t' <> t ->
          List.filter (fun x => String.eqb (Trip.id x) t') (trips st')
          = List.filter (fun x => String.eqb (Trip.id x) t') (trips st)
          /\ List.filter (fun x => String.eqb (tripId x) t') (expenses st')
             = List.filter (fun x => String.eqb (tripId x) t') (expenses st)
          /\ List.filter (fun x => String.eqb (MediaItem.tripId x) t') (mediaItems st')
             = List.filter (fun x => String.eqb (MediaItem.tripId x) t') (mediaItems st)
          /\ List.filter (fun x => String.eqb (InfoItem.tripId x) t') (infoItems st')
             = List.filter (fun x => String.eqb (InfoItem.tripId x) t') (infoItems st)
          /\ List.filter (fun x => String.eqb (ChatMessage.tripId x) t') (chatMessages st')
             = List.filter (fun x => String.eqb (ChatMessage.tripId x) t') (chatMessages st)
          /\ List.filter (fun x => String.eqb (ItineraryItem.tripId x) t') (itineraryItems st')
             = List.filter (fun x => String.eqb (ItineraryItem.tripId x) t') (itineraryItems st)
          /\ List.filter (fun x => String.eqb (MarkedLocation.tripId x) t')
                         (markedMapLocations st')
             = List.filter (fun x => String.eqb (MarkedLocation.tripId x) t')
                           (markedMapLocations st).
Proof.
  split; [reflexivity|]. cbn zeta. unfold handleDeleteTrip.
  cbn [negb trips expenses mediaItems infoItems chatMessages itineraryItems
       markedMapLocations activeTripId].
  split.
  - split_and!; try apply filter_out_Forall.
    destruct (activeTripId st) as [a|]; [|done].
    destruct (String.eqb_spec a t); [done|congruence].
  - intros t' Hne. split_and!; by apply filter_out_other.
Qed.

(** ** Expenses (lines 179-182, 279-288) *)

Section ActiveTripFacts.
Context (getTime : string -> Q) (localeCompare : string -> string -> Q).

Lemma activeTripExpenses_perm (st : AppState) (a : string) :
  activeTripId st = Some a -> blank a = false ->
  activeTripExpenses getTime localeCompare st
  ≡ₚ List.filter (fun exp => String.eqb (tripId exp) a) (expenses st).
Proof.
  intros Ha Hb. unfold activeTripExpenses. rewrite Ha, Hb. apply array_sort_perm.
Qed.

(** Deleting a trip that is not the active one changes neither the active
    trip nor the expenses [GastosView] is given. *)
Theorem handleDeleteTrip_other (confirm : bool) (st : AppState) (a t : string) :
  activeTripId st = Some a -> a <> t ->
  let st' := handleDeleteTrip confirm st t in
  activeTripId st' = Some a
  /\ activeTrip st' = activeTrip st
  /\ activeTripExpenses getTime localeCompare st'
     = activeTripExpenses getTime localeCompare st.
Proof.
  intros Ha Hne. cbn zeta. destruct confirm; [|done].
  unfold handleDeleteTrip, activeTrip, activeTripExpenses.
  cbn [negb activeTripId trips expenses]. rewrite Ha.
  destruct (String.eqb_spec a t) as [|_]; [done|].
  split_and!; [done| |].
  - destruct (blank a); [done|].
    induction (trips st) as [|x l IH]; [done|]. cbn [List.filter List.find].
    destruct (String.eqb_spec (Trip.id x) t) as [Hx|Hx]; cbn [negb List.find].
    + destruct (String.eqb_spec (Trip.id x) a); [congruence|done].
    + by rewrite IH.
  - destruct (blank a); [done|]. by rewrite (filter_out_other tripId t a).
Qed.
End ActiveTripFacts.

Lemma handleDeleteTrip_other_witness :
  let e := {| id := "exp-1"; tripId := "trip-1"; date := "2024-05-01"; amount := 12;
              category := COMIDA; description := ""; paidBy := "Ana";
              proofImage := None; paymentMethod := None |} in
  let st := {| currentUser := None; storedUsers := []; trips := []; expenses := [e];
               mediaItems := []; infoItems := []; chatMessages := [];
               itineraryItems := []; markedMapLocations := [];
               activeTripId := Some "trip-1";
               view := active_trip; joinTripError := None; showTripCodeModal := None;
               authFormInitialValues := None |} in
  activeTripExpenses (fun _ => 0) (fun _ _ => 0) (handleDeleteTrip true st "trip-2")
  = activeTripExpenses (fun _ => 0) (fun _ _ => 0) st.
Proof.
  intros e st.
  destruct (handleDeleteTrip_other (fun _ => 0) (fun _ _ => 0) true st "trip-1" "trip-2")
    as (_ & _ & H).
  - reflexivity.
  - discriminate.
  - exact H.
Defined.

(** The entry of a name in [expensesByParticipant], read with [|| 0]: the
    amounts that name paid, whether the name has an entry or not. *)
Lemma expensesByParticipant_value (ps : list Participant) (es : list Expense) (k : string) :
  or_zero (expensesByParticipant ps es !! k)
  == totalTripCost (List.filter (fun e => String.eqb (paidBy e) k) es).
Proof.
  destruct (expensesByParticipant ps es !! k) as [v|] eqn:E.
  - rewrite or_zero_Some. by eapply expensesByParticipant_lookup.
  - apply not_elem_of_dom in E. rewrite expensesByParticipant_dom in E.
    apply not_elem_of_union in E as [_ E]. rewrite elem_of_list_to_set in E.
    change (or_zero None) with 0. symmetry.
    assert (Hnil : List.filter (fun e => String.eqb (paidBy e) k) es = []).
    { destruct (List.filter _ es) as [|e l] eqn:Ef; [done|]. exfalso. apply E.
      assert (He : e ∈ List.filter (fun e => String.eqb (paidBy e) k) es)
        by (rewrite Ef; apply list_elem_of_here).
      apply elem_of_filter_bool in He as [He Hk]. apply String.eqb_eq in Hk.
      apply list_elem_of_fmap. by exists e. }
    rewrite Hnil. reflexivity.
Qed.

Lemma filter_bool_comm {A} (f g : A -> bool) (l : list A) :
  List.filter f (List.filter g l) = List.filter g (List.filter f l).
Proof.
  induction l as [|x l IH]; [done|]. cbn [List.filter].
  destruct (f x) eqn:Ef, (g x) eqn:Eg; cbn [List.filter]; rewrite ?Ef, ?Eg, ?IH; done.
Qed.

Section ExpenseHandlers.
Context (getTime : string -> Q) (localeCompare : string -> string -> Q).

(** Adding an expense while a trip is open appends one expense, which
    has the fields given, the id made from the clock and the id of the
    open trip.  [GastosView] is then given the expenses it had and the
    new one, and the expenses of every other trip are as they were. *)
Theorem handleAddExpense_listed (now : N) (st : AppState) (e : Expense) (a : string) :
  activeTripId st = Some a -> blank a = false ->
  let new := {| id := "exp-" ++ number_string now; tripId := a; date := date e;
                amount := amount e; category := category e;
                description := description e; paidBy := paidBy e;
                proofImage := proofImage e; paymentMethod := paymentMethod e |} in
  let st' := handleAddExpense now st e in
  expenses st' = expenses st ++ [new]
  /\ activeTripExpenses getTime localeCompare st'
     ≡ₚ new :: activeTripExpenses getTime localeCompare st
  /\ forall t, t <> a ->
       List.filter (fun exp => String.eqb (tripId exp) t) (expenses st')
       = List.filter (fun exp => String.eqb (tripId exp) t) (expenses st).
Proof.
  intros Ha Hb new st'.
  assert (Hexp : expenses st' = expenses st ++ [new]).
  { unfold st', handleAddExpense. by rewrite Ha, Hb. }
  assert (Hact : activeTripId st' = Some a).
  { unfold st', handleAddExpense. by rewrite Ha, Hb. }
  split_and!; [done| |].
  - rewrite (activeTripExpenses_perm _ _ _ a) by done.
    rewrite (activeTripExpenses_perm _ _ st a) by done.
    rewrite Hexp, filter_bool_app. cbn [List.filter tripId new].
    rewrite String.eqb_refl. by rewrite Permutation_app_comm.
  - intros t Ht. rewrite Hexp, filter_bool_app. cbn [List.filter tripId new].
    destruct (String.eqb_spec a t); [congruence|]. by rewrite app_nil_r.
Qed.

(** Deleting an expense, once confirmed, takes every expense with that id
    out of what [GastosView] is given and leaves the others. *)
Theorem handleDeleteExpense_removes (st : AppState) (x a : string) :
  activeTripId st = Some a -> blank a = false ->
  let before := activeTripExpenses getTime localeCompare st in
  let after := activeTripExpenses getTime localeCompare (handleDeleteExpense true st x) in
  after ≡ₚ List.filter (fun exp => negb (String.eqb (id exp) x)) before
  /\ Forall (fun exp => id exp <> x) after.
Proof.
  intros Ha Hb before after.
  assert (Hperm : after ≡ₚ List.filter (fun exp => negb (String.eqb (id exp) x)) before).
  { unfold after, before, handleDeleteExpense. cbn [negb].
    rewrite (activeTripExpenses_perm _ _ _ a) by done.
    rewrite (filter_bool_perm _ _ _ (activeTripExpenses_perm _ _ st a Ha Hb)).
    cbn [expenses]. by rewrite filter_bool_comm. }
  split; [done|]. rewrite Hperm. apply Forall_forall.
  intros exp [_ Hx]%elem_of_filter_bool.
  destruct (String.eqb_spec (id exp) x); [done|done].
Qed.

End ExpenseHandlers.

Lemma handleAddExpense_listed_witness :
  let e := expense_by "Juan" 7.5 TRANSPORTE in
  length (activeTripExpenses (fun _ => 0) (fun _ _ => 0)
            (handleAddExpense 1700000000000 sample_state e))
  = S (length (activeTripExpenses (fun _ => 0) (fun _ _ => 0) sample_state)).
Proof.
  intros e.
  destruct (handleAddExpense_listed (fun _ => 0) (fun _ _ => 0) 1700000000000
              sample_state e "trip-1") as (_ & H & _).
  - reflexivity.
  - reflexivity.
  - by rewrite H.
Defined.

Lemma handleDeleteExpense_removes_witness :
  Forall (fun exp => id exp <> "exp-1")
    (activeTripExpenses (fun _ => 0) (fun _ _ => 0)
       (handleDeleteExpense true sample_state "exp-1")).
Proof.
  destruct (handleDeleteExpense_removes (fun _ => 0) (fun _ _ => 0)
              sample_state "exp-1" "trip-1") as (_ & H).
  - reflexivity.
  - reflexivity.
  - exact H.
Defined.

(** ** Trip codes (lines 19-22) *)

Lemma holds_from_spec (f : N -> bool) (count : nat) (start n : N) :
  holds_from f start count = true ->
  (start <= n)%N -> (n < start + N.of_nat count)%N -> f n = true.
Proof.
  revert start. induction count as [|count IH]; intros start H Hlo Hhi; [lia|].
  cbn [holds_from] in H. apply andb_true_iff in H as [H0 H].
  destruct (N.eq_dec start n) as [->|Hne]; [done|].
  apply (IH (N.succ start)); [done|lia|lia].
Qed.

Lemma string_length_append (a b : string) :
  String.length (String.append a b) = (String.length a + String.length b)%nat.
Proof. induction a as [|c a IH]; simpl; [done|]. by f_equal. Qed.

(** What holds of every number [Math.random] can lead to. *)
Lemma S4_checked :
  holds_from (fun n => (String.length (S4 n) =? 4)%nat
                       && match upper_hex_number 0 (S4 n) with
                          | Some v => (v =? (n - 65536) mod 65536)%N
                          | None => false
                          end)
             65536 (N.to_nat 65537) = true.
Proof. vm_compute. reflexivity. Qed.

(** A trip code is [TF-], four upper-case hexadecimal digits, a dash and
    four more: twelve characters; and two codes are the same only when
    the numbers drawn are, below the one value that rounding can add to
    the range. *)
Theorem generateTripCode_format (n1 n2 : N) :
  (65536 <= n1 <= 131072)%N -> (65536 <= n2 <= 131072)%N ->
  String.length (generateTripCode n1 n2) = 12%nat
  /\ (exists v1 v2, upper_hex_number 0 (S4 n1) = Some v1
                    /\ upper_hex_number 0 (S4 n2) = Some v2)
  /\ forall m1 m2, (65536 <= m1 < 131072)%N -> (65536 <= m2 < 131072)%N ->
       (n1 < 131072)%N -> (n2 < 131072)%N ->
       generateTripCode n1 n2 = generateTripCode m1 m2 -> n1 = m1 /\ n2 = m2.
Proof.
  intros H1 H2.
  assert (Hs : forall n, (65536 <= n <= 131072)%N ->
             String.length (S4 n) = 4%nat
             /\ upper_hex_number 0 (S4 n) = Some ((n - 65536) mod 65536)%N).
  { intros n Hn. pose proof (holds_from_spec _ _ _ n S4_checked) as H.
    cbn beta in H. specialize (H ltac:(lia) ltac:(lia)).
    apply andb_true_iff in H as [Hl Hv].
    split; [by apply Nat.eqb_eq|].
    destruct (upper_hex_number 0 (S4 n)); [|done]. by apply N.eqb_eq in Hv as ->. }
  destruct (Hs n1 H1) as [L1 V1]. destruct (Hs n2 H2) as [L2 V2].
  split_and!.
  - unfold generateTripCode. rewrite !string_length_append, L1, L2. reflexivity.
  - eauto.
  - intros m1 m2 Hm1 Hm2 Hn1 Hn2 Heq.
    destruct (Hs m1 ltac:(lia)) as [L1' V1']. destruct (Hs m2 ltac:(lia)) as [L2' V2'].
    unfold generateTripCode in Heq. cbn [String.append] in Heq.
    injection Heq as Heq.
    assert (Hsplit : forall a b a' b' : string,
               String.length a = String.length a' ->
               (a ++ b = a' ++ b')%string -> a = a' /\ b = b').
    { clear. induction a as [|c a IH]; intros b [|c' a'] b' Hl Hab; try discriminate.
      - done.
      - cbn in Hab. injection Hab as -> Hab. cbn in Hl.
        destruct (IH b a' b' ltac:(lia) Hab) as [-> ->]. done. }
    assert (Hlen : String.length (S4 n1) = String.length (S4 m1)) by congruence.
    destruct (Hsplit (S4 n1) _ (S4 m1) _ Hlen Heq) as [Ha Hb].
    injection Hb as Hb. change (S4 n2 = S4 m2) in Hb.
    rewrite Ha in V1. rewrite V1' in V1. injection V1 as V1.
    rewrite Hb in V2. rewrite V2' in V2. injection V2 as V2.
    rewrite !N.mod_small in V1, V2 by lia. lia.
Qed.

Lemma generateTripCode_format_witness :
  String.length (generateTripCode 70000 131071) = 12%nat.
Proof.
  destruct (generateTripCode_format 70000 131071) as (H & _); [lia|lia|exact H].
Defined.

(** Without rounding, the own numeric totals by participant add up to the
    total trip cost when no two participants have the same name and every
    expense was paid by a participant. *)
Lemma adds_up_own (ps : list Participant) (es : list Expense) :
  NoDup (name <$> ps) ->
  Forall (fun e => paidBy e ∈ name <$> ps) es ->
  sum_over ps (fun k => default 0 (expensesByParticipant ps es !! k))
  == totalTripCost es.
Proof.
  intros Hnd Hpaid.
  assert (Hall : List.filter (fun e => bool_decide (paidBy e ∈ name <$> ps)) es = es).
  { apply filter_all. eapply Forall_impl; [exact Hpaid|].
    intros e He. by apply bool_decide_eq_true. }
  pose proof (paid_by_names ps es Hnd) as Hsum. rewrite Hall in Hsum.
  rewrite <- Hsum.
  apply sum_over_ext, Forall_forall. intros q Hq.
  assert (Hin : name q ∈ dom (expensesByParticipant ps es)).
  { rewrite expensesByParticipant_dom, elem_of_union, !elem_of_list_to_set.
    left. apply list_elem_of_fmap. by exists q. }
  apply elem_of_dom in Hin as [v Hv]. rewrite Hv. cbn [default].
  by eapply expensesByParticipant_lookup.
Qed.

(** Joining with the code a trip was created with opens a trip that has
    that code (the first one in the list, should two trips share it),
    provided [trim] leaves the code as it is. *)
Theorem create_then_join (trim : string -> string) (now : N) (code : string)
    (st : AppState) (tripName : string) (names : list string) :
  (handleCreateTrip trim now code st tripName names).1 = None ->
  trim code = code ->
  let st1 := (handleCreateTrip trim now code st tripName names).2 in
  let st2 := handleJoinTrip trim st1 code in
  view st2 = active_trip /\ joinTripError st2 = None
  /\ exists t, t ∈ trips st1 /\ Trip.tripCode t = code
               /\ activeTripId st2 = Some (Trip.id t).
Proof.
  intros Hok Htrim st1 st2.
  destruct (handleCreateTrip_named trim now code st tripName names) as [[[Hal _]|Hacc] _].
  { rewrite Hok in Hal. by destruct Hal. }
  destruct Hacc as (_ & t & Ht & _).
  assert (Hcode : Trip.tripCode t = code).
  { revert Ht Hok. unfold handleCreateTrip. destruct (_ || _); [done|].
    cbn [fst snd trips]. intros Ht%app_inj_tail. by destruct Ht as [_ <-]. }
  fold st1 in Ht. subst st2. unfold handleJoinTrip. rewrite Htrim.
  destruct (List.find _ (trips st1)) as [t'|] eqn:Hfind.
  - cbn [view joinTripError activeTripId]. split_and!; [done|done|].
    apply find_some in Hfind as [Hin Heq]. exists t'.
    split_and!; [by apply list_elem_of_In|by apply String.eqb_eq|done].
  - exfalso. eapply find_none in Hfind.
    + rewrite Hcode, String.eqb_refl in Hfind. done.
    + rewrite Ht. apply in_or_app. right. by left.
Qed.

Lemma create_then_join_witness :
  let st1 := (handleCreateTrip (fun s => s) 1700000000000 "TF-0A1B-2C3D" sample_state
                "Lisboa" ["Ana"; "Eva"]).2 in
  view (handleJoinTrip (fun s => s) st1 "TF-0A1B-2C3D") = active_trip.
Proof.
  intros st1.
  destruct (create_then_join (fun s => s) 1700000000000 "TF-0A1B-2C3D" sample_state
              "Lisboa" ["Ana"; "Eva"]) as (H & _).
  - reflexivity.
  - reflexivity.
  - exact H.
Defined.


(** * The engine with the prototype of its objects

    From here on the statements are about [Proto]: the objects are the
    object literals of the source, with the members they inherit. *)

(** ** The balances object with its prototype *)

Section ProtoBalances.
Import JsObject.

Lemma Proto_settle_loop (b : list (string * Proto.value)) :
  Proto.settle_loop b = settle_loop (Proto.numbers b).
Proof.
  unfold Proto.settle_loop, settle_loop, Proto.initial_state, initial_state,
    Proto.debtors_of, Proto.creditors_of, debtors_of, creditors_of.
  by rewrite numbers_entries.
Qed.

Lemma elem_of_set {V} (o : list (string * V)) (k : string) (v : V) (e : string * V) :
  e ∈ set o k v -> e ∈ o \/ e = (k, v).
Proof.
  induction o as [|[k0 v0] o IH]; cbn [set].
  - intros ->%list_elem_of_singleton. by right.
  - destruct (String.eqb_spec k0 k) as [->|Hk].
    + intros [->|Hin]%elem_of_cons; [by right|]. left. by apply list_elem_of_further.
    + intros [->|Hin]%elem_of_cons; [left; apply list_elem_of_here|].
      destruct (IH Hin) as [?|?]; [left|by right]. by apply list_elem_of_further.
Qed.

(** Assigning to a key whose value, if it is there, is already [v]. *)
Lemma numbers_set (b : list (string * Proto.value)) (k : string) (v : Proto.value) :
  (forall v', (k, v') ∈ b -> v' = v) ->
  Proto.numbers (set b k v)
  = match v with
    | Proto.Number x => set (Proto.numbers b) k x
    | _ => Proto.numbers b
    end.
Proof.
  induction b as [|[k0 v0] b IH]; intros Hb.
  - cbn [set]. rewrite numbers_cons. by destruct v.
  - cbn [set]. destruct (String.eqb_spec k0 k) as [->|Hk].
    + rewrite (Hb v0) by apply list_elem_of_here.
      rewrite !numbers_cons. cbn [fst snd]. destruct v; try done.
      cbn [set]. by rewrite String.eqb_refl.
    + rewrite !numbers_cons. cbn [fst snd].
      rewrite IH by (intros v' Hv'; apply Hb; by apply list_elem_of_further).
      destruct v0, v; try done.
      cbn [set]. by destruct (String.eqb_spec k0 k).
Qed.

Lemma assign_all_ext (val val' : string -> Q) (b : t) (ps : list Participant) :
  (forall p, p ∈ ps -> val (name p) = val' (name p)) ->
  assign_all val b ps = assign_all val' b ps.
Proof.
  revert b. induction ps as [|p ps IH]; intros b H; [done|].
  cbn [assign_all foldl]. rewrite (H p) by apply list_elem_of_here.
  apply IH. intros p' Hp'. apply H. by apply list_elem_of_further.
Qed.

Context (ps0 : list Participant) (total : Q) (byP : gmap string Proto.value).

(** The numeric entries of [balances]: the participants whose balance is
    stored as a number, in order. *)
Lemma Proto_balances_from (b : list (string * Proto.value)) (ps : list Participant) :
  (forall e, e ∈ b -> e.2 = Proto.balance ps0 total byP e.1) ->
  Proto.numbers
    (foldl (fun b p =>
              Proto.assign set b (name p) (Proto.balance ps0 total byP (name p)))
           b ps)
  = assign_all (fun k => Proto.number_of (Proto.balance ps0 total byP k))
      (Proto.numbers b) (List.filter (Proto.has_balance ps0 total byP) ps).
Proof.
  revert b. induction ps as [|p ps IH]; intros b Hb; [done|].
  cbn [foldl List.filter]. unfold Proto.has_balance at 1, Proto.assign at 2.
  destruct (String.eqb_spec (name p) "__proto__") as [Hp|Hp]; cbn [negb andb].
  - by apply IH.
  - rewrite IH.
    + rewrite numbers_set.
      * destruct (Proto.balance ps0 total byP (name p)) eqn:E; cbn [Proto.is_number];
          try done.
        cbn [assign_all foldl]. by rewrite E.
      * intros v' Hv'. by apply Hb in Hv'.
    + intros e [He| ->]%elem_of_set; [by apply Hb|done].
Qed.

Lemma Proto_balances_numbers :
  Proto.numbers (Proto.balances ps0 total byP)
  = assign_all (fun k => Proto.number_of (Proto.balance ps0 total byP k))
      [] (List.filter (Proto.has_balance ps0 total byP) ps0).
Proof.
  unfold Proto.balances. rewrite Proto_balances_from; [done|].
  intros e He. by apply not_elem_of_nil in He.
Qed.

(** Where every participant has a number as balance, the settlement is
    the one computed on those numbers. *)
Lemma Proto_settledPayments_numbers (m : gmap string Q) :
  (forall p, p ∈ ps0 ->
     name p <> "__proto__"
     /\ Proto.balance ps0 total byP (name p) = Proto.Number (balance ps0 total m (name p))) ->
  Proto.settledPayments ps0 total byP = settledPayments ps0 total m.
Proof.
  intros H. unfold Proto.settledPayments, settledPayments.
  rewrite Proto_settle_loop, Proto_balances_numbers, balances_assign_all.
  rewrite filter_all.
  - erewrite assign_all_ext; [done|]. intros p Hp. cbn beta.
    destruct (H p Hp) as [_ ->]. done.
  - apply Forall_forall. intros p Hp. destruct (H p Hp) as [Hn Hb].
    unfold Proto.has_balance. rewrite Hb.
    by destruct (String.eqb_spec (name p) "__proto__").
Qed.
End ProtoBalances.

(** A totals mapping of numbers, read by line 821. *)
Lemma Proto_balance_number (ps : list Participant) (total : Q) (m : gmap string Q)
    (k : string) :
  is_Some (m !! k) \/ Proto.inherited k = false ->
  Proto.balance ps total (Proto.Number <$> m) k = Proto.Number (balance ps total m k).
Proof.
  intros H. unfold Proto.balance, balance, Proto.get. rewrite lookup_fmap.
  destruct (m !! k) as [v|] eqn:Hk; cbn [fmap option_fmap option_map or_zero].
  - cbn [Proto.or_zero]. by destruct (Qeq_bool v 0).
  - destruct H as [[? [=]]| ->]. reflexivity.
Qed.


(** With no participant named like a member of [Object.prototype] that
    the totals lack, the settlement is the one computed on the own
    numeric properties. *)
Lemma settledPayments_plain (ps : list Participant) (total : Q) (m : gmap string Q) :
  Forall (fun p => name p <> "__proto__"
                   /\ (is_Some (m !! name p) \/ Proto.inherited (name p) = false)) ps ->
  Proto.settledPayments ps total (Proto.Number <$> m) = settledPayments ps total m.
Proof.
  intros H. apply Proto_settledPayments_numbers. intros p Hp.
  rewrite Forall_forall in H. destruct (H p Hp) as [Hn Hk].
  split; [done|]. by apply Proto_balance_number.
Qed.

Lemma not_inherited_proto (k : string) :
  Proto.inherited k = false -> k <> "__proto__".
Proof. intros H ->. vm_compute in H. discriminate H. Qed.

(** ** The totals object with its prototype (lines 811-816) *)

Lemma Proto_assign_lookup (o : gmap string Proto.value) (k k' : string)
    (v : Proto.value) :
  Proto.assign Proto.put o k v !! k'
  = if decide (k = k' /\ k <> "__proto__") then Some v else o !! k'.
Proof.
  unfold Proto.assign, Proto.put.
  destruct (String.eqb_spec k "__proto__") as [Hp|Hp].
  - rewrite decide_False; [done|]. by intros [_ ?].
  - destruct (decide (k = k')) as [<-|Hk].
    + rewrite lookup_insert_eq, decide_True; done.
    + rewrite lookup_insert_ne by done. rewrite decide_False; [done|]. by intros [? _].
Qed.

Lemma Proto_zeroed_lookup (ps : list Participant) (o : gmap string Proto.value)
    (k : string) :
  Proto.zeroed o ps !! k
  = if decide (k ∈ name <$> ps /\ k <> "__proto__")
    then Some (Proto.Number 0) else o !! k.
Proof.
  revert o. induction ps as [|p ps IH]; intros o.
  - rewrite decide_False; [done|]. intros [H _]. by apply not_elem_of_nil in H.
  - unfold Proto.zeroed in *. cbn [foldl]. rewrite IH, fmap_cons.
    destruct (decide (k ∈ name <$> ps /\ k <> "__proto__")) as [[Hin Hp]|Hn].
    + rewrite decide_True; [done|]. split; [by apply list_elem_of_further|done].
    + rewrite Proto_assign_lookup.
      destruct (decide (name p = k /\ name p <> "__proto__")) as [[<- Hp]|Hn'].
      * rewrite decide_True; [done|]. split; [apply list_elem_of_here|done].
      * rewrite decide_False; [done|].
        intros [[?|?]%elem_of_cons ?]; [|tauto]. subst k. tauto.
Qed.

Lemma Proto_add_amounts_cons (o : gmap string Proto.value) (e : Expense)
    (es : list Expense) :
  Proto.add_amounts o (e :: es)
  = Proto.add_amounts
      (Proto.assign Proto.put o (paidBy e)
         (Proto.plus (Proto.or_zero (Proto.get o (paidBy e))) (amount e))) es.
Proof. reflexivity. Qed.

(** The keys: those there before, and every payer but [__proto__]. *)
Lemma Proto_add_amounts_dom (es : list Expense) (o : gmap string Proto.value)
    (k : string) :
  k ∈ dom (Proto.add_amounts o es)
  <-> k ∈ dom o \/ (k ∈ paidBy <$> es /\ k <> "__proto__").
Proof.
  revert o. induction es as [|e es IH]; intros o.
  - cbn. split; [by left|]. intros [?|[H _]]; [done|]. by apply not_elem_of_nil in H.
  - rewrite Proto_add_amounts_cons, IH, fmap_cons, elem_of_cons.
    rewrite !elem_of_dom, Proto_assign_lookup.
    destruct (decide (paidBy e = k /\ paidBy e <> "__proto__")) as [[<- Hp]|Hn].
    + split; [intros _; right; by split; [left|]|intros _; left; by eexists].
    + split; [intros [?|[? ?]]; [by left|right; by split; [right|]]|].
      intros [?|[[->|?] ?]]; [by left|tauto|right; by split].
Qed.

(** A key that is a participant's, or is not a member's name, is read
    and written as an own numeric property. *)
Lemma Proto_add_amounts_number (es : list Expense) (o : gmap string Proto.value)
    (m : gmap string Q) (k : string) :
  k <> "__proto__" ->
  o !! k = Proto.Number <$> m !! k ->
  is_Some (m !! k) \/ Proto.inherited k = false ->
  Proto.add_amounts o es !! k = Proto.Number <$> add_amounts paidBy m es !! k.
Proof.
  intros Hp. revert o m. induction es as [|e es IH]; intros o m Ho Hk; [done|].
  rewrite Proto_add_amounts_cons, add_amounts_cons. apply IH.
  - rewrite Proto_assign_lookup.
    destruct (decide (paidBy e = k /\ paidBy e <> "__proto__")) as [[-> _]|Hn].
    + rewrite lookup_insert_eq. cbn [fmap option_fmap option_map]. f_equal.
      unfold Proto.get. rewrite Ho.
      destruct (m !! k) as [v|] eqn:Hm; cbn [fmap option_fmap option_map or_zero].
      * cbn [Proto.or_zero]. by destruct (Qeq_bool v 0).
      * destruct Hk as [[? [=]]| ->]. reflexivity.
    + rewrite lookup_insert_ne; [done|]. intros Heq. apply Hn.
      split; [done|]. by rewrite Heq.
  - destruct (decide (paidBy e = k)) as [->|Hn].
    + left. rewrite lookup_insert_eq. by eexists.
    + by rewrite lookup_insert_ne.
Qed.

Lemma Proto_expensesByParticipant_number (ps : list Participant)
    (es : list Expense) (k : string) :
  k <> "__proto__" ->
  k ∈ name <$> ps \/ Proto.inherited k = false ->
  Proto.expensesByParticipant ps es !! k
  = Proto.Number <$> expensesByParticipant ps es !! k.
Proof.
  intros Hp Hk. unfold Proto.expensesByParticipant, expensesByParticipant.
  apply Proto_add_amounts_number; [done| |].
  - rewrite Proto_zeroed_lookup, zeroed_lookup.
    destruct (decide (k ∈ name <$> ps)) as [Hin|Hin].
    + rewrite decide_True; done.
    + rewrite decide_False; [|tauto]. by rewrite !lookup_empty.
  - rewrite zeroed_lookup. destruct (decide (k ∈ name <$> ps)); [left; by eexists|].
    destruct Hk; [done|by right].
Qed.



(** ** What holds of every input *)

Section ProtoSound.
Import JsObject.
Context (ps : list Participant) (total : Q) (byP : gmap string Proto.value).

Lemma Proto_balances_get_from (b : list (string * Proto.value)) (qs : list Participant)
    (k : string) :
  get (foldl (fun b p =>
                Proto.assign set b (name p) (Proto.balance ps total byP (name p)))
             b qs) k
  = if decide (k ∈ name <$> qs /\ k <> "__proto__")
    then Some (Proto.balance ps total byP k) else get b k.
Proof.
  revert b. induction qs as [|p qs IH]; intros b.
  - rewrite decide_False; [done|]. intros [H _]. by apply not_elem_of_nil in H.
  - cbn [foldl]. rewrite IH, fmap_cons.
    destruct (decide (k ∈ name <$> qs /\ k <> "__proto__")) as [[Hin Hp]|Hn].
    + rewrite decide_True; [done|]. split; [by apply list_elem_of_further|done].
    + unfold Proto.assign.
      destruct (String.eqb_spec (name p) "__proto__") as [Hp|Hp].
      * rewrite decide_False; [done|].
        intros [[?|?]%elem_of_cons ?]; [congruence|tauto].
      * rewrite get_set. destruct (String.eqb_spec (name p) k) as [<-|Hk].
        -- rewrite decide_True; [done|]. split; [apply list_elem_of_here|done].
        -- rewrite decide_False; [done|].
           intros [[?|?]%elem_of_cons ?]; [congruence|tauto].
Qed.

(** [balances] has an entry for every participant but one named
    [__proto__], and for nobody else. *)
Lemma Proto_balances_get (k : string) :
  get (Proto.balances ps total byP) k
  = if decide (k ∈ name <$> ps /\ k <> "__proto__")
    then Some (Proto.balance ps total byP k) else None.
Proof. unfold Proto.balances. by rewrite Proto_balances_get_from. Qed.





Lemma Proto_partitions :
  Proto.debtors_of (Proto.balances ps total byP)
  = debtors_of (Proto.numbers (Proto.balances ps total byP))
  /\ Proto.creditors_of (Proto.balances ps total byP)
     = creditors_of (Proto.numbers (Proto.balances ps total byP)).
Proof.
  unfold Proto.debtors_of, Proto.creditors_of, debtors_of, creditors_of.
  by rewrite numbers_entries.
Qed.

(** The loop on these balances runs to its end. *)
Lemma Proto_settle_loop_end :
  let B := Proto.balances ps total byP in
  exists s n,
    Proto.settle_loop B = Some (s, n) /\ loop_cond s = false
    /\ settle_inv (Proto.debtors_of B) (Proto.creditors_of B) s
    /\ (Proto.debtors_of B <> [] -> Proto.creditors_of B <> [] ->
        (1 <= n /\ S n <= length (Proto.debtors_of B) + length (Proto.creditors_of B))%nat)
    /\ (Proto.debtors_of B = [] \/ Proto.creditors_of B = [] -> n = O).
Proof.
  intros B. destruct Proto_partitions as [HD HC]. fold B in HD, HC.
  rewrite Proto_settle_loop, HD, HC.
  destruct (settle_loop_end (Proto.numbers B)) as (s & n & Hs & Hend & Inv & Hn & Hn0).
  exists s, n. split_and!; [done|done|done| |].
  - intros Hd Hc.
    assert (Hcond : loop_cond (initial_state (Proto.numbers B)) = true).
    { apply loop_cond_true. cbn [initial_state dIdx cIdx debtors creditors].
      destruct (debtors_of (Proto.numbers B)); [done|].
      destruct (creditors_of (Proto.numbers B)); [done|]. cbn. lia. }
    split; [|by apply Hn].
    destruct n as [|n]; [|lia]. exfalso.
    unfold settle_loop in Hs.
    destruct (length (debtors (initial_state (Proto.numbers B)))
              + length (creditors (initial_state (Proto.numbers B))))%nat eqn:Ef;
      cbn [while_loop] in Hs; rewrite Hcond in Hs; [done|].
    destruct (loop_body _); [|done].
    destruct (while_loop _ _) as [[? ?]|]; [|done]. by injection Hs.
  - intros Hnil. apply Hn0. apply loop_cond_false.
    cbn [initial_state dIdx cIdx debtors creditors].
    destruct Hnil as [-> | ->]; cbn; lia.
Qed.

(** [settledPayments] returns: the guard's empty list, or the payments
    of the end state of the loop. *)
Lemma Proto_settledPayments_returns :
  exists pays,
    Proto.settledPayments ps total byP = Some pays
    /\ (((length ps < 2)%nat \/ total == 0) /\ pays = []
        \/ ((2 <= length ps)%nat /\ ~ total == 0
            /\ exists s n, Proto.settle_loop (Proto.balances ps total byP) = Some (s, n)
                           /\ pays = payments s)).
Proof.
  unfold Proto.settledPayments.
  destruct (Nat.ltb_spec (length ps) 2) as [Hl|Hl]; cbn [orb].
  - exists []. split; [done|]. left. split; [by left|done].
  - destruct (Qeq_bool total 0) eqn:Ht.
    + exists []. split; [done|]. left. split; [|done]. right. by apply Qeq_bool_eq.
    + destruct Proto_settle_loop_end as (s & n & Hs & _).
      rewrite Hs. exists (payments s). split; [done|]. right.
      split_and!; [lia| |by exists s, n].
      intros H. apply Qeq_eq_bool in H. congruence.
Qed.

End ProtoSound.

(** ** The greedy loop (lines 824-831) *)

(** C5, as amended.  On every input of finite numbers the loop runs to
    its end.  It makes no pass when there is no debtor or no creditor,
    and otherwise at least one pass and at most
    [debtors.length + creditors.length - 1]. *)
Theorem settle_loop_pass_bound (ps : list Participant) (total : Q)
    (byP : gmap string Proto.value) :
  let B := Proto.balances ps total byP in
  let D := length (Proto.debtors_of B) in
  let C := length (Proto.creditors_of B) in
  exists s n,
    Proto.settle_loop B = Some (s, n) /\ loop_cond s = false
    /\ (D = O \/ C = O -> n = O)
    /\ (D <> O -> C <> O -> (1 <= n <= D + C - 1)%nat).
Proof.
  intros B D C.
  destruct (Proto_settle_loop_end ps total byP) as (s & n & Hs & Hend & _ & Hn & Hn0).
  exists s, n. split_and!; [done|done| |].
  - intros [H|H]; apply Hn0; [left|right]; by apply length_zero_iff_nil.
  - intros HD HC.
    destruct Hn as [H1 H2].
    + intros H. apply HD. unfold D. fold B in H. by rewrite H.
    + intros H. apply HC. unfold C. fold B in H. by rewrite H.
    + fold B in H2. fold D C in H2. lia.
Qed.

(** C5, as stated, fails when nobody is a debtor or a creditor: two
    participants who paid the same leave both lists empty, the loop makes
    no pass, and [debtors.length + creditors.length - 1] is [-1]. *)
Lemma settle_loop_pass_bound_counterexample :
  let ps := people ["Alice"; "Bob"] in
  let es := [expense_by "Alice" 50 COMIDA; expense_by "Bob" 50 COMIDA] in
  let B := Proto.balances ps (totalTripCost es) (Proto.expensesByParticipant ps es) in
  exists s, Proto.settle_loop B = Some (s, O)
    /\ ~ (Z.of_nat 0
          <= Z.of_nat (length (Proto.debtors_of B))
             + Z.of_nat (length (Proto.creditors_of B)) - 1)%Z.
Proof.
  eexists. split.
  - vm_compute. reflexivity.
  - vm_compute. intros H. apply H. reflexivity.
Qed.

(** There are fewer payments than participants, on every input of finite
    numbers. *)
Theorem settledPayments_count (ps : list Participant) (total : Q)
    (byP : gmap string Proto.value) :
  exists pays,
    Proto.settledPayments ps total byP = Some pays
    /\ (length pays < Nat.max 1 (length ps))%nat.
Proof.
  destruct (Proto_settledPayments_returns ps total byP) as (pays & Hp & Hcase).
  exists pays. split; [done|].
  destruct Hcase as [[_ ->]|(Hlen & _ & s & n & Hs & ->)]; [cbn; lia|].
  rewrite Proto_settle_loop in Hs.
  set (B := Proto.numbers (Proto.balances ps total byP)) in *.
  destruct (settle_loop_end B) as (s' & n' & Hs' & _ & _ & Hn & Hn0).
  rewrite Hs in Hs'. injection Hs' as <- <-.
  pose proof (while_loop_payments_length _ _ _ _ Hs) as [_ Hle]. cbn in Hle.
  pose proof (partitions_in_balances B) as HB.
  assert (HBl : (length B <= length ps)%nat).
  { unfold B. rewrite Proto_balances_numbers.
    etrans; [apply assign_all_length|]. cbn [length Nat.add].
    apply List.filter_length_le. }
  destruct (loop_cond (initial_state B)) eqn:Hc.
  - specialize (Hn eq_refl). lia.
  - rewrite (Hn0 eq_refl) in Hle. lia.
Qed.

(** ** A participant the totals do not mention (line 821) *)




(** ** The keys and values of [expensesByParticipant] (lines 811-816) *)

Lemma Proto_expensesByParticipant_dom (ps : list Participant) (es : list Expense) :
  dom (Proto.expensesByParticipant ps es)
  = (list_to_set (name <$> ps) ∪ list_to_set (paidBy <$> es)) ∖ {["__proto__"]}.
Proof.
  apply set_eq. intros k. unfold Proto.expensesByParticipant.
  rewrite Proto_add_amounts_dom, elem_of_dom, Proto_zeroed_lookup, lookup_empty.
  rewrite elem_of_difference, elem_of_union, !elem_of_list_to_set, elem_of_singleton.
  destruct (decide (k ∈ name <$> ps /\ k <> "__proto__")) as [[? ?]|Hn].
  - split; [intros _; split; [by left|done]|intros _; left; by eexists].
  - split.
    + intros [[? [=]]|[? ?]]. split; [by right|done].
    + intros [[?|?] ?]; [tauto|right; by split].
Qed.



(** ** The sum of the balances (lines 819-821) *)

Lemma Proto_balance_agree (ps : list Participant) (total : Q)
    (o : gmap string Proto.value) (m : gmap string Q) (k : string) :
  o !! k = Proto.Number <$> m !! k ->
  is_Some (m !! k) \/ Proto.inherited k = false ->
  Proto.balance ps total o k = Proto.Number (balance ps total m k).
Proof.
  intros Ho H. unfold Proto.balance, balance, Proto.get. rewrite Ho.
  destruct (m !! k) as [v|] eqn:Hk; cbn [fmap option_fmap option_map or_zero].
  - cbn [Proto.or_zero]. by destruct (Qeq_bool v 0).
  - destruct H as [[? [=]]| ->]. reflexivity.
Qed.

(** In [GastosView] every participant but one named [__proto__] has a
    number as balance: the one computed on the own numeric properties. *)
Lemma Proto_balance_of_expenses (ps : list Participant) (es : list Expense)
    (total : Q) (k : string) :
  k ∈ name <$> ps -> k <> "__proto__" ->
  Proto.balance ps total (Proto.expensesByParticipant ps es) k
  = Proto.Number (balance ps total (expensesByParticipant ps es) k).
Proof.
  intros Hin Hp. apply Proto_balance_agree.
  - apply Proto_expensesByParticipant_number; [done|by left].
  - left. apply elem_of_dom. rewrite expensesByParticipant_dom, elem_of_union,
      elem_of_list_to_set. by left.
Qed.

Lemma settledPayments_of_plain (ps : list Participant) (es : list Expense) :
  "__proto__" ∉ name <$> ps ->
  Proto.settledPayments_of ps es = settledPayments_of ps es.
Proof.
  intros Hp. apply Proto_settledPayments_numbers. intros p Hin.
  assert (Hk : name p ∈ name <$> ps) by (apply list_elem_of_fmap; by exists p).
  assert (Hn : name p <> "__proto__") by (intros Heq; by rewrite Heq in Hk).
  split; [done|]. by apply Proto_balance_of_expenses.
Qed.

(** C2, as amended.  When no two participants have the same name, none
    is named [__proto__] and every expense was paid by a participant,
    every participant has a number as balance, stored under the
    participant's name, and without rounding these balances add up to
    zero. *)
Theorem balance_sum_zero (ps : list Participant) (es : list Expense) :
  NoDup (name <$> ps) ->
  "__proto__" ∉ name <$> ps ->
  Forall (fun e => paidBy e ∈ name <$> ps) es ->
  let total := totalTripCost es in
  let byP := Proto.expensesByParticipant ps es in
  Forall (fun q =>
            Proto.is_number (Proto.balance ps total byP (name q)) = true
            /\ JsObject.get (Proto.balances ps total byP) (name q)
               = Some (Proto.balance ps total byP (name q))) ps
  /\ sum_over ps (fun k => Proto.number_of (Proto.balance ps total byP k)) == 0.
Proof.
  intros Hnd Hproto Hpaid total byP.
  assert (Hb : forall q, q ∈ ps ->
            name q <> "__proto__"
            /\ Proto.balance ps total byP (name q)
               = Proto.Number (balance ps total (expensesByParticipant ps es) (name q))).
  { intros q Hq.
    assert (Hk : name q ∈ name <$> ps) by (apply list_elem_of_fmap; by exists q).
    assert (Hn : name q <> "__proto__") by (intros Heq; by rewrite Heq in Hk).
    split; [done|]. by apply Proto_balance_of_expenses. }
  split.
  - apply Forall_forall. intros q Hq. destruct (Hb q Hq) as [Hn Hq'].
    split; [by rewrite Hq'|].
    rewrite Proto_balances_get, decide_True; [done|].
    split; [|done]. apply list_elem_of_fmap. by exists q.
  - rewrite (sum_over_ext ps _ (balance ps total (expensesByParticipant ps es))).
    + destruct ps as [|q ps']; [reflexivity|].
      rewrite sum_of_balances by done. rewrite sum_of_totals by done.
      rewrite filter_all; [unfold total; lra|].
      eapply Forall_impl; [exact Hpaid|]. intros e He. by apply bool_decide_eq_true.
    + apply Forall_forall. intros q Hq. destruct (Hb q Hq) as [_ ->]. reflexivity.
Qed.

Lemma balance_sum_zero_witness :
  let ps := people ["Alice"; "Bob"; "Carol"] in
  let es := [expense_by "Alice" 90 COMIDA; expense_by "Carol" 12.5 TRANSPORTE] in
  sum_over ps (fun k =>
    Proto.number_of
      (Proto.balance ps (totalTripCost es) (Proto.expensesByParticipant ps es) k)) == 0.
Proof.
  intros ps es.
  destruct (balance_sum_zero ps es) as (_ & H).
  - refine (bool_decide_unpack _ _). vm_compute. exact I.
  - refine (bool_decide_unpack _ _). vm_compute. exact I.
  - repeat constructor.
  - exact H.
Defined.

(** C2, as stated, fails for an expense whose payer is not a participant:
    Alice and Bob each get the balance [-50], and the sum [-100] is not
    within [2 * epsilon] of zero. *)
Lemma balance_sum_counterexample :
  let ps := people ["Alice"; "Bob"] in
  let es := [expense_by "Zed" 100 COMIDA] in
  let byP := Proto.expensesByParticipant ps es in
  let bal := fun k => Proto.number_of (Proto.balance ps (totalTripCost es) byP k) in
  Proto.balance ps (totalTripCost es) byP "Alice" = Proto.Number (0 - 100 / 2)
  /\ Proto.balance ps (totalTripCost es) byP "Bob" = Proto.Number (0 - 100 / 2)
  /\ sum_over ps bal == - 100
  /\ ~ Qabs (sum_over ps bal) <= epsilon * length_number ps.
Proof.
  split_and!.
  - vm_compute. reflexivity.
  - vm_compute. reflexivity.
  - vm_compute. reflexivity.
  - apply Qlt_not_le. vm_compute. reflexivity.
Qed.

(** ** Totals given directly: names that are not names of members *)

Lemma plain_names (ps : list Participant) (m : gmap string Q) :
  Forall (fun p => Proto.inherited (name p) = false) ps ->
  Forall (fun p => name p <> "__proto__"
                   /\ (is_Some (m !! name p) \/ Proto.inherited (name p) = false)) ps.
Proof.
  intros H. eapply Forall_impl; [exact H|]. cbn beta.
  intros p Hp. split; [by apply not_inherited_proto|by right].
Qed.

Lemma plain_balances (ps : list Participant) (total : Q) (m : gmap string Q) :
  Forall (fun p => Proto.inherited (name p) = false) ps ->
  Forall (fun p => Proto.balance ps total (Proto.Number <$> m) (name p)
                   = Proto.Number (balance ps total m (name p))) ps.
Proof.
  intros H. eapply Forall_impl; [exact H|]. cbn beta.
  intros p Hp. apply Proto_balance_number. by right.
Qed.

(** ** Conservation (lines 817-833) *)

(** C1, as amended.  Take participants with pairwise distinct names,
    none of them the name of a member of [Object.prototype], and a total
    and totals by participant that pass the guard and give balances that
    do not add up to more than zero (as they do when the total is the sum
    of amounts that are not negative).  Then every balance is the number
    [balance], and without rounding the payments returned add up to no
    more than the credit owed, the sum over the participants of
    [max(0, balance)], and to no less than that sum minus [epsilon] times
    the number of participants. *)
Theorem settlement_conservation (ps : list Participant) (total : Q)
    (byP : gmap string Q) :
  NoDup (name <$> ps) ->
  Forall (fun p => Proto.inherited (name p) = false) ps ->
  (2 <= length ps)%nat ->
  ~ total == 0 ->
  sum_over ps (balance ps total byP) <= 0 ->
  let totals := Proto.Number <$> byP in
  let owed := sum_over ps (fun k => Qmax 0 (balance ps total byP k)) in
  Forall (fun p => Proto.balance ps total totals (name p)
                   = Proto.Number (balance ps total byP (name p))) ps
  /\ exists pays,
       Proto.settledPayments ps total totals = Some pays
       /\ total_paid pays <= owed
       /\ owed - total_paid pays <= epsilon * length_number ps.
Proof.
  intros Hnd Hplain Hlen Htot Hsum totals owed.
  split; [by apply plain_balances|].
  unfold totals. rewrite settledPayments_plain by (by apply plain_names).
  by apply conservation_own.
Qed.

Lemma settlement_conservation_witness :
  let ps := people ["Alice"; "Bob"; "Carol"] in
  let byP : gmap string Q := <["Alice" := 90]> ∅ in
  exists pays,
    Proto.settledPayments ps 90 (Proto.Number <$> byP) = Some pays
    /\ total_paid pays <= sum_over ps (fun k => Qmax 0 (balance ps 90 byP k)).
Proof.
  intros ps byP.
  destruct (settlement_conservation ps 90 byP) as (_ & pays & Hp & Hup & _).
  - refine (bool_decide_unpack _ _). vm_compute. exact I.
  - repeat constructor.
  - simpl. lia.
  - vm_compute. discriminate.
  - vm_compute. discriminate.
  - exists pays. split; [exact Hp|exact Hup].
Defined.

(** C1, as stated, fails: five participants, one expense of two cents.
    Ana is owed 0.016, the other four owe 0.004 each, which is within
    [epsilon]: there is no debtor, nothing is paid, the amounts paid
    differ from the credit owed by more than three times [epsilon], and
    the balances are not brought to zero. *)
Lemma settlement_conservation_counterexample :
  let ps := people ["Ana"; "Bea"; "Eva"; "Juan"; "Luis"] in
  let es := [expense_by "Ana" 0.02 COMIDA] in
  let total := totalTripCost es in
  let bal := fun k =>
    Proto.number_of (Proto.balance ps total (Proto.expensesByParticipant ps es) k) in
  let owed := sum_over ps (fun k => Qmax 0 (bal k)) in
  (2 <= length ps)%nat /\ ~ total == 0
  /\ Proto.settledPayments_of ps es = Some []
  /\ owed == 0.016
  /\ ~ Qabs (total_paid [] - owed) <= 3 * epsilon
  /\ ~ (forall q, q ∈ ps -> balance_after bal [] (name q) == 0).
Proof.
  split_and!.
  - simpl. lia.
  - vm_compute. discriminate.
  - vm_compute. reflexivity.
  - vm_compute. reflexivity.
  - apply Qlt_not_le. vm_compute. reflexivity.
  - intros H. specialize (H {| name := "Ana" |} (list_elem_of_here _ _)).
    vm_compute in H. discriminate H.
Qed.

(** ** More on the payments *)

(** The settlement is empty exactly when the guard applies, or no
    participant's balance is below [- epsilon], or none is above
    [epsilon]: with a debtor and a creditor the first pass pays. *)
Theorem settledPayments_empty_iff (ps : list Participant) (total : Q)
    (byP : gmap string Q) :
  Forall (fun p => Proto.inherited (name p) = false) ps ->
  exists pays,
    Proto.settledPayments ps total (Proto.Number <$> byP) = Some pays
    /\ (pays = []
        <-> (length ps < 2)%nat \/ total == 0
            \/ Forall (fun q => - epsilon <= balance ps total byP (name q)) ps
            \/ Forall (fun q => balance ps total byP (name q) <= epsilon) ps).
Proof.
  intros Hplain. rewrite settledPayments_plain by (by apply plain_names).
  apply empty_iff_own.
Qed.

Lemma settledPayments_empty_iff_witness :
  let ps := people ["Alice"; "Bob"] in
  let byP : gmap string Q := <["Alice" := 50]> (<["Bob" := 50]> ∅) in
  Proto.settledPayments ps 100 (Proto.Number <$> byP) = Some [].
Proof.
  intros ps byP.
  destruct (settledPayments_empty_iff ps 100 byP) as (pays & Hp & Hiff).
  - repeat constructor.
  - rewrite Hp. f_equal. apply Hiff. right. right. left.
    repeat constructor; vm_compute; discriminate.
Defined.

(** Without rounding, applying the payments moves every participant's
    balance towards zero and never past it: a participant who owes ends
    between what they owed and zero, one who is owed between zero and
    what they were owed. *)
Theorem settledPayments_toward_zero (ps : list Participant) (total : Q)
    (byP : gmap string Q) :
  Forall (fun p => Proto.inherited (name p) = false) ps ->
  exists pays,
    Proto.settledPayments ps total (Proto.Number <$> byP) = Some pays
    /\ Forall (fun q =>
         let b := balance ps total byP (name q) in
         let b' := balance_after (balance ps total byP) pays (name q) in
         (b <= 0 -> b <= b' /\ b' <= 0) /\ (0 <= b -> 0 <= b' /\ b' <= b)) ps.
Proof.
  intros Hplain. rewrite settledPayments_plain by (by apply plain_names).
  apply toward_zero_own.
Qed.

Lemma settledPayments_toward_zero_witness :
  let ps := people ["Alice"; "Bob"; "Carol"] in
  let byP : gmap string Q := <["Alice" := 90]> ∅ in
  exists pays,
    Proto.settledPayments ps 90 (Proto.Number <$> byP) = Some pays
    /\ balance_after (balance ps 90 byP) pays "Bob" <= 0.
Proof.
  intros ps byP.
  destruct (settledPayments_toward_zero ps 90 byP) as (pays & Hp & Hall).
  - repeat constructor.
  - exists pays. split; [exact Hp|].
    apply Forall_cons in Hall as [_ Hall]. apply Forall_cons in Hall as [[Hbob _] _].
    apply Hbob. vm_compute. discriminate.
Defined.

(** The first payment goes from a participant with the lowest balance to
    one with the highest, and its amount is the smaller of what the one
    owes and what the other is owed. *)
Theorem settledPayments_first (ps : list Participant) (total : Q) (byP : gmap string Q) :
  Forall (fun p => Proto.inherited (name p) = false) ps ->
  exists pays,
    Proto.settledPayments ps total (Proto.Number <$> byP) = Some pays
    /\ match pays with
       | [] => True
       | p :: _ =>
           Forall (fun q => balance ps total byP (from p) <= balance ps total byP (name q)
                            /\ balance ps total byP (name q) <= balance ps total byP (to p)) ps
           /\ pay_amount p
              == Qmin (- balance ps total byP (from p)) (balance ps total byP (to p))
       end.
Proof.
  intros Hplain. rewrite settledPayments_plain by (by apply plain_names).
  apply first_own.
Qed.

Lemma settledPayments_first_witness :
  let ps := people ["Alice"; "Bob"; "Carol"] in
  let byP : gmap string Q := <["Alice" := 90]> (<["Bob" := 30]> ∅) in
  exists p pays,
    Proto.settledPayments ps 120 (Proto.Number <$> byP) = Some (p :: pays)
    /\ from p = "Carol" /\ to p = "Alice" /\ pay_amount p == 40.
Proof.
  intros ps byP.
  destruct (settledPayments_first ps 120 byP) as (pays & Hp & Hfirst).
  - repeat constructor.
  - destruct pays as [|p pays].
    + vm_compute in Hp. discriminate Hp.
    + exists p, pays. split; [exact Hp|].
      vm_compute in Hp. injection Hp as <- _.
      split_and!; reflexivity.
Defined.

(** ** Aggregates and settlement for any order of the expenses *)

(** Without rounding, the settlement is the same, as numbers, for any
    order of the expenses. *)
Theorem settlement_order_free (ps : list Participant) (es es' : list Expense) :
  "__proto__" ∉ name <$> ps ->
  es ≡ₚ es' ->
  exists pays pays',
    Proto.settledPayments_of ps es = Some pays
    /\ Proto.settledPayments_of ps es' = Some pays'
    /\ Forall2 payment_eq pays pays'.
Proof.
  intros Hproto Hp. rewrite !settledPayments_of_plain by done.
  by apply order_free_own.
Qed.

Lemma settlement_order_free_witness :
  let ps := people ["Alice"; "Bob"; "Carol"] in
  let a := expense_by "Alice" 30 COMIDA in
  let b := expense_by "Bob" 12.5 COMPRAS in
  exists pays pays',
    Proto.settledPayments_of ps [a; b] = Some pays
    /\ Proto.settledPayments_of ps [b; a] = Some pays'
    /\ Forall2 payment_eq pays pays'.
Proof.
  intros ps a b. apply (settlement_order_free ps [a; b] [b; a]).
  - refine (bool_decide_unpack _ _). vm_compute. exact I.
  - apply Permutation_swap.
Defined.

(** Without rounding, the total, the totals by category and the numeric
    totals by participant are the same, as numbers, for any order of the
    expenses, and [expensesByParticipant] has the same keys. *)
Theorem aggregates_order_free (ps : list Participant) (es es' : list Expense) :
  es ≡ₚ es' ->
  totalTripCost es == totalTripCost es'
  /\ (forall k, option_Forall2 Qeq (expensesByCategory es !! k)
                                   (expensesByCategory es' !! k))
  /\ dom (Proto.expensesByParticipant ps es) = dom (Proto.expensesByParticipant ps es')
  /\ (forall k, k ∈ name <$> ps \/ Proto.inherited k = false ->
        option_Forall2 Qeq
          (Proto.number_of <$> Proto.expensesByParticipant ps es !! k)
          (Proto.number_of <$> Proto.expensesByParticipant ps es' !! k)).
Proof.
  intros Hp.
  destruct (aggregates_order_free_own ps es es' Hp) as (Ht & Hc & Hbp).
  split_and!; [done|done| |].
  - rewrite !Proto_expensesByParticipant_dom. by rewrite Hp.
  - intros k Hk. destruct (decide (k = "__proto__")) as [->|Hn].
    + assert (Hnone : forall l, Proto.expensesByParticipant ps l !! "__proto__" = None).
      { intros l. apply not_elem_of_dom. rewrite Proto_expensesByParticipant_dom.
        rewrite elem_of_difference, elem_of_singleton. tauto. }
      rewrite !Hnone. constructor.
    + rewrite !Proto_expensesByParticipant_number by done.
      specialize (Hbp k). destruct Hbp; cbn; by constructor.
Qed.

Lemma aggregates_order_free_witness :
  let ps := people ["Alice"; "Bob"] in
  let a := expense_by "Alice" 30 COMIDA in
  let b := expense_by "Bob" 12.5 COMPRAS in
  totalTripCost [a; b] == totalTripCost [b; a].
Proof.
  intros ps a b.
  destruct (aggregates_order_free ps [a; b] [b; a]) as (H & _).
  - apply Permutation_swap.
  - exact H.
Defined.

(** Without rounding, the totals by participant add up to the total trip
    cost when no two participants have the same name, none is named
    [__proto__] and every expense was paid by a participant. *)
Theorem expensesByParticipant_adds_up (ps : list Participant) (es : list Expense) :
  NoDup (name <$> ps) ->
  "__proto__" ∉ name <$> ps ->
  Forall (fun e => paidBy e ∈ name <$> ps) es ->
  Forall (fun q => exists v, Proto.expensesByParticipant ps es !! name q
                             = Some (Proto.Number v)) ps
  /\ sum_over ps (fun k =>
       Proto.number_of (default Proto.Undefined (Proto.expensesByParticipant ps es !! k)))
     == totalTripCost es.
Proof.
  intros Hnd Hproto Hpaid.
  assert (Hk : forall q, q ∈ ps ->
            Proto.expensesByParticipant ps es !! name q
            = Proto.Number <$> expensesByParticipant ps es !! name q
            /\ is_Some (expensesByParticipant ps es !! name q)).
  { intros q Hq.
    assert (Hin : name q ∈ name <$> ps) by (apply list_elem_of_fmap; by exists q).
    split.
    - apply Proto_expensesByParticipant_number; [|by left].
      intros Heq. by rewrite Heq in Hin.
    - apply elem_of_dom. rewrite expensesByParticipant_dom, elem_of_union,
        elem_of_list_to_set. by left. }
  split.
  - apply Forall_forall. intros q Hq. destruct (Hk q Hq) as [-> [v ->]]. by exists v.
  - rewrite <- (adds_up_own ps es Hnd Hpaid). apply sum_over_ext.
    apply Forall_forall. intros q Hq. destruct (Hk q Hq) as [-> [v ->]]. reflexivity.
Qed.

Lemma expensesByParticipant_adds_up_witness :
  let ps := people ["Alice"; "Bob"; "Carol"] in
  let es := [expense_by "Alice" 90 COMIDA; expense_by "Carol" 12.5 TRANSPORTE] in
  sum_over ps (fun k =>
    Proto.number_of (default Proto.Undefined (Proto.expensesByParticipant ps es !! k)))
  == totalTripCost es.
Proof.
  intros ps es. apply (expensesByParticipant_adds_up ps es).
  - refine (bool_decide_unpack _ _). vm_compute. exact I.
  - refine (bool_decide_unpack _ _). vm_compute. exact I.
  - repeat constructor.
Defined.

(** ** A participant named [__proto__] *)


(** Alice paid 100 and the other participant is named [__proto__]: the
    average is 50, Alice is owed 50, and nothing is paid. *)
Example proto_participant :
  let ps := people ["Alice"; "__proto__"] in
  let es := [expense_by "Alice" 100 COMIDA] in
  Proto.balances ps (totalTripCost es) (Proto.expensesByParticipant ps es)
  = [("Alice", Proto.Number (100 - 100 / 2))]
  /\ Proto.settledPayments_of ps es = Some [].
Proof. split; vm_compute; reflexivity. Qed.

(** * The engine on doubles *)

(** ** A transfer of exactly [epsilon] (lines 826-830) *)

(** C10.  There is an input on which the second pass of the loop computes
    a transfer of exactly [epsilon]: no payment is added, yet both
    amounts are reduced by it and both cursors move on, so that the
    payments returned fall short of the credit owed by that [epsilon].
    Participants A, B and C; C paid 0.018 and Z, who is not a
    participant, 0.0015.  The balances are -0.0065, -0.0065 and 0.0115:
    A pays C 0.0065, C is still owed 0.005 and is paired with B.  This
    is so without rounding and on doubles alike: on doubles the second
    transfer is the double [0.005] itself. *)
Theorem epsilon_transfer_not_emitted :
  let ps := people ["A"; "B"; "C"] in
  let es := [expense_by "C" 0.018 COMIDA; expense_by "Z" 0.0015 COMIDA] in
  (let total := totalTripCost es in
   let byP := Proto.expensesByParticipant ps es in
   let B := Proto.balances ps total byP in
   let owed :=
     sum_over ps (fun k => Qmax 0 (Proto.number_of (Proto.balance ps total byP k))) in
   exists s d c s' d' c' pays,
     after_passes 1 (Proto.initial_state B) = Some s
     /\ loop_cond s = true
     /\ debtors s !! dIdx s = Some d /\ creditors s !! cIdx s = Some c
     /\ Qmin (- d.2) c.2 == epsilon
     /\ loop_body s = Some s'
     /\ payments s' = payments s
     /\ debtors s' !! dIdx s = Some d' /\ d'.2 == d.2 + epsilon
     /\ creditors s' !! cIdx s = Some c' /\ c'.2 == c.2 - epsilon
     /\ dIdx s' = S (dIdx s) /\ cIdx s' = S (cIdx s)
     /\ Proto.settledPayments_of ps es = Some pays
     /\ total_paid pays == owed - epsilon)
  /\ (let total := Binary64.totalTripCost es in
      let byP := Binary64.expensesByParticipant ps es in
      let B := Binary64.balances ps total byP in
      exists s d c s' d' c' pays,
        Binary64.after_passes 1 (Binary64.initial_state B) = Some s
        /\ Binary64.loop_cond s = true
        /\ Binary64.debtors s !! Binary64.dIdx s = Some d
        /\ Binary64.creditors s !! Binary64.cIdx s = Some c
        /\ Binary64.Math_min (PrimFloat.opp d.2) c.2 = Binary64.epsilon
        /\ Binary64.loop_body s = Some s'
        /\ Binary64.payments s' = Binary64.payments s
        /\ Binary64.debtors s' !! Binary64.dIdx s = Some d'
        /\ d'.2 = PrimFloat.add d.2 Binary64.epsilon
        /\ Binary64.creditors s' !! Binary64.cIdx s = Some c'
        /\ c'.2 = PrimFloat.sub c.2 Binary64.epsilon
        /\ Binary64.dIdx s' = S (Binary64.dIdx s)
        /\ Binary64.cIdx s' = S (Binary64.cIdx s)
        /\ Binary64.settledPayments_of ps es = Some pays
        /\ PrimFloat.sub (Binary64.owed B) (Binary64.total_paid pays) = Binary64.epsilon).
Proof.
  intros ps es. split.
  - cbn zeta. eexists _, _, _, _, _, _, _.
    split; [vm_compute; reflexivity|].
    split; [vm_compute; reflexivity|].
    split; [vm_compute; reflexivity|].
    split; [vm_compute; reflexivity|].
    split; [vm_compute; reflexivity|].
    split; [vm_compute; reflexivity|].
    split; [vm_compute; reflexivity|].
    split; [vm_compute; reflexivity|].
    split; [vm_compute; reflexivity|].
    split; [vm_compute; reflexivity|].
    split; [vm_compute; reflexivity|].
    split; [vm_compute; reflexivity|].
    split; [vm_compute; reflexivity|].
    split; [vm_compute; reflexivity|].
    vm_compute. reflexivity.
  - cbn zeta. eexists _, _, _, _, _, _, _.
    split; [vm_compute; reflexivity|].
    split; [vm_compute; reflexivity|].
    split; [vm_compute; reflexivity|].
    split; [vm_compute; reflexivity|].
    split; [vm_compute; reflexivity|].
    split; [vm_compute; reflexivity|].
    split; [vm_compute; reflexivity|].
    split; [vm_compute; reflexivity|].
    split; [vm_compute; reflexivity|].
    split; [vm_compute; reflexivity|].
    split; [vm_compute; reflexivity|].
    split; [vm_compute; reflexivity|].
    split; [vm_compute; reflexivity|].
    split; [vm_compute; reflexivity|].
    vm_compute. reflexivity.
Qed.

(** ** Where rounding shows *)

(** On doubles the total depends on the order of the expenses: 0.1, 0.2
    and 0.3 add up to 0.6000000000000001, and in the opposite order to
    0.6. *)
Example total_depends_on_order :
  let es := [expense_by "A" 0.1 COMIDA; expense_by "A" 0.2 COMIDA;
             expense_by "A" 0.3 COMIDA] in
  PrimFloat.eqb (Binary64.totalTripCost es) (Binary64.totalTripCost (reverse es)) = false
  /\ totalTripCost es == totalTripCost (reverse es).
Proof. split; vm_compute; reflexivity. Qed.

(** So does the settlement.  A and B both paid 0.6, in amounts of 0.1,
    0.2 and 0.3, and C nothing.  Without rounding A and B are owed the
    same and A, the first, is paid first, in either order of the
    expenses; on doubles the one whose amounts were added in ascending
    order is owed more and is paid first. *)
Example settlement_depends_on_order :
  let ps := people ["A"; "B"; "C"] in
  let es := [expense_by "A" 0.3 COMIDA; expense_by "A" 0.2 COMIDA;
             expense_by "A" 0.1 COMIDA; expense_by "B" 0.1 COMIDA;
             expense_by "B" 0.2 COMIDA; expense_by "B" 0.3 COMIDA] in
  option_map (map Binary64.to) (Binary64.settledPayments_of ps es) = Some ["B"; "A"]
  /\ option_map (map Binary64.to) (Binary64.settledPayments_of ps (reverse es)) = Some ["A"; "B"]
  /\ option_map (map to) (Proto.settledPayments_of ps es) = Some ["A"; "B"]
  /\ option_map (map to) (Proto.settledPayments_of ps (reverse es)) = Some ["A"; "B"].
Proof. split_and!; vm_compute; reflexivity. Qed.

(** The balances on doubles need not add up to zero within the
    tolerance: with one expense of 1000000000000001 among three
    participants their sum is -0.125. *)
Example balance_sum_rounded :
  let ps := people ["A"; "B"; "C"] in
  let es := [expense_by "A" 1000000000000001 COMIDA] in
  let B := Binary64.balances ps (Binary64.totalTripCost es)
             (Binary64.expensesByParticipant ps es) in
  PrimFloat.ltb (PrimFloat.mul (Binary64.of_Z 3) Binary64.epsilon)
                (PrimFloat.abs (Binary64.sum_values B)) = true
  /\ sum_over ps (fun k =>
        Proto.number_of
          (Proto.balance ps (totalTripCost es) (Proto.expensesByParticipant ps es) k))
      == 0.
Proof. split; vm_compute; reflexivity. Qed.
